(** * FPBDJointUtilities: the math kernel of the Chaos PBD joint solver

    A shallow embedding of
    [Engine/Source/Runtime/Experimental/Chaos/Private/Chaos/PBDJointConstraintUtilities.cpp]
    (UnrealEngine 4.25) and the properties of its settings resolver, its
    linear limit shapes, its swing/twist extraction and its mass/inertia
    conditioner.

    Numbers: [FReal] is embedded as the real numbers [R], so a statement
    about these definitions is a statement in exact arithmetic.  A comparison
    of the source ([a > b], [a < b], ...) is a boolean test on [R], and a C++
    conditional is an [if] on it.  The mass/inertia conditioner and the
    spherical limit are transcribed a second time over the machine type
    (module [Binary32], IEEE 754 binary32 with round to nearest even), where
    the program is evaluated at inputs on which rounding or overflow decides
    the result. *)

From Stdlib Require Import Reals Lra Psatz Bool ZArith QArith Floats.SpecFloat.

Open Scope R_scope.

(** ** Comparisons of the source as boolean tests *)

Definition Rgtb (a b : R) : bool := if Rlt_dec b a then true else false.
Definition Rltb (a b : R) : bool := if Rlt_dec a b then true else false.
Definition Rgeb (a b : R) : bool := if Rle_dec b a then true else false.

Infix ">?" := Rgtb (at level 70, no associativity) : R_scope.
Infix "<?" := Rltb (at level 70, no associativity) : R_scope.
Infix ">=?" := Rgeb (at level 70, no associativity) : R_scope.

(** ** Engine constants and scalar helpers *)

(** Modelled from the spec: the engine macro [SMALL_NUMBER] (declared in the
    engine's core headers, not in this file), the "small-magnitude threshold"
    under which a vector counts as degenerate; the engine's value is 1.e-8. *)
Definition SMALL_NUMBER : R := / 100000000.

(** Modelled from the spec: the engine macro [KINDA_SMALL_NUMBER], the coarser
    threshold of the same kind; the engine's value is 1.e-4. *)
Definition KINDA_SMALL_NUMBER : R := / 10000.

Module FMath.

(** Modelled from the spec: [FMath::Lerp] (engine code, not in this file), the
    linear remapping [A + Alpha * (B - A)]. *)
Definition Lerp (A B Alpha : R) : R := A + Alpha * (B - A).

(** Modelled from the spec: [FMath::Min3] and [FMath::Max3] (engine code, not
    in this file), the least and the greatest of three numbers. *)
Definition Min3 (a b c : R) : R := Rmin (Rmin a b) c.
Definition Max3 (a b c : R) : R := Rmax (Rmax a b) c.

(** Modelled from the spec: [FMath::Acos] (engine code, not in this file), the
    arc cosine with its argument clamped to [-1, 1]; [acos] of the standard
    library is already the clamped function. *)
Definition Acos (x : R) : R := acos x.

(** Modelled from the spec: [FMath::Atan2] (engine code, not in this file),
    taken as the two-argument arctangent with [Atan2 0 0 = 0]. *)
Definition Atan2 (y x : R) : R :=
  if x >? 0 then atan (y / x)
  else if x <? 0 then (if y >=? 0 then atan (y / x) + PI else atan (y / x) - PI)
  else if y >? 0 then PI / 2
  else if y <? 0 then - (PI / 2)
  else 0.

End FMath.

(** ** Vectors

    Modelled from the spec: [FVec3] and its operators are the engine's
    3-vector (not in this file); [Min] and [Max] are the least and the
    greatest component, [Size] the Euclidean length. *)

Record FVec3 : Type := mkVec3 { X : R; Y : R; Z : R }.

Module Vec3.

Definition Zero : FVec3 := mkVec3 0 0 0.
Definition add (a b : FVec3) : FVec3 := mkVec3 (X a + X b) (Y a + Y b) (Z a + Z b).
Definition sub (a b : FVec3) : FVec3 := mkVec3 (X a - X b) (Y a - Y b) (Z a - Z b).
Definition scale (k : R) (a : FVec3) : FVec3 := mkVec3 (k * X a) (k * Y a) (k * Z a).
Definition div (a : FVec3) (k : R) : FVec3 := mkVec3 (X a / k) (Y a / k) (Z a / k).
Definition DotProduct (a b : FVec3) : R := X a * X b + Y a * Y b + Z a * Z b.
Definition CrossProduct (a b : FVec3) : FVec3 :=
  mkVec3 (Y a * Z b - Z a * Y b) (Z a * X b - X a * Z b) (X a * Y b - Y a * X b).
Definition SizeSquared (a : FVec3) : R := X a * X a + Y a * Y a + Z a * Z a.
Definition Size (a : FVec3) : R := sqrt (SizeSquared a).
Definition Min (a : FVec3) : R := FMath.Min3 (X a) (Y a) (Z a).
Definition Max (a : FVec3) : R := FMath.Max3 (X a) (Y a) (Z a).

End Vec3.

Declare Scope vec_scope.
Delimit Scope vec_scope with vec.
Bind Scope vec_scope with FVec3.
Infix "+" := Vec3.add : vec_scope.
Infix "-" := Vec3.sub : vec_scope.
Infix "*:" := Vec3.scale (at level 40, left associativity) : vec_scope.
Infix "/:" := Vec3.div (at level 40, left associativity) : vec_scope.

(** ** Enumerations and the two settings structures

    The structures are declared in the joint solver's headers; the fields
    below are the ones this file reads. *)

Inductive EJointMotionType : Type := Free | Limited | Locked.

Inductive EJointForceMode : Type := Acceleration | Force.

Definition motion_eqb (a b : EJointMotionType) : bool :=
  match a, b with
  | Free, Free | Limited, Limited | Locked, Locked => true
  | _, _ => false
  end.

Definition force_eqb (a b : EJointForceMode) : bool :=
  match a, b with
  | Acceleration, Acceleration | Force, Force => true
  | _, _ => false
  end.

(** [TVector<T, 3>], indexed by 0, 1, 2. *)
Record TVector3 (A : Type) : Type := mkTVector3 { at0 : A; at1 : A; at2 : A }.
Arguments mkTVector3 {A} _ _ _.
Arguments at0 {A} _.
Arguments at1 {A} _.
Arguments at2 {A} _.

Module SolverSettings.
Record FPBDJointSolverSettings : Type := mk {
  Stiffness : R;
  SoftLinearStiffness : R;
  SoftLinearDamping : R;
  SoftTwistStiffness : R;
  SoftTwistDamping : R;
  SoftSwingStiffness : R;
  SoftSwingDamping : R;
  LinearDriveStiffness : R;
  LinearDriveDamping : R;
  AngularDriveStiffness : R;
  AngularDriveDamping : R;
  LinearProjection : R;
  AngularProjection : R;
  AngularConstraintPositionCorrection : R
}.
End SolverSettings.

Module JointSettings.
Record FPBDJointSettings : Type := mk {
  Stiffness : R;
  LinearProjection : R;
  AngularProjection : R;
  LinearMotionTypes : TVector3 EJointMotionType;
  LinearLimit : R;
  bSoftLinearLimitsEnabled : bool;
  LinearSoftForceMode : EJointForceMode;
  AngularSoftForceMode : EJointForceMode;
  SoftLinearStiffness : R;
  SoftLinearDamping : R;
  SoftTwistStiffness : R;
  SoftTwistDamping : R;
  SoftSwingStiffness : R;
  SoftSwingDamping : R;
  LinearDriveStiffness : R;
  LinearDriveDamping : R;
  bAngularSLerpPositionDriveEnabled : bool;
  bAngularSLerpVelocityDriveEnabled : bool;
  bAngularTwistPositionDriveEnabled : bool;
  bAngularTwistVelocityDriveEnabled : bool;
  bAngularSwingPositionDriveEnabled : bool;
  bAngularSwingVelocityDriveEnabled : bool;
  AngularDriveForceMode : EJointForceMode;
  AngularDriveStiffness : R;
  AngularDriveDamping : R
}.
End JointSettings.

(** ** The settings resolver *)

Section SettingsResolver.

Variable SolverSettings : SolverSettings.FPBDJointSolverSettings.
Variable JointSettings : JointSettings.FPBDJointSettings.

Definition GetLinearStiffness : R :=
  if SolverSettings.(SolverSettings.Stiffness) >? 0
  then SolverSettings.(SolverSettings.Stiffness)
  else JointSettings.(JointSettings.Stiffness).

Definition GetSoftLinearStiffness : R :=
  if SolverSettings.(SolverSettings.SoftLinearStiffness) >? 0
  then SolverSettings.(SolverSettings.SoftLinearStiffness)
  else JointSettings.(JointSettings.SoftLinearStiffness).

Definition GetSoftLinearDamping : R :=
  if SolverSettings.(SolverSettings.SoftLinearDamping) >? 0
  then SolverSettings.(SolverSettings.SoftLinearDamping)
  else JointSettings.(JointSettings.SoftLinearDamping).

Definition GetTwistStiffness : R :=
  if SolverSettings.(SolverSettings.Stiffness) >? 0
  then SolverSettings.(SolverSettings.Stiffness)
  else JointSettings.(JointSettings.Stiffness).

Definition GetSoftTwistStiffness : R :=
  if SolverSettings.(SolverSettings.SoftTwistStiffness) >? 0
  then SolverSettings.(SolverSettings.SoftTwistStiffness)
  else JointSettings.(JointSettings.SoftTwistStiffness).

Definition GetSoftTwistDamping : R :=
  if SolverSettings.(SolverSettings.SoftTwistDamping) >? 0
  then SolverSettings.(SolverSettings.SoftTwistDamping)
  else JointSettings.(JointSettings.SoftTwistDamping).

Definition GetSwingStiffness : R :=
  if SolverSettings.(SolverSettings.Stiffness) >? 0
  then SolverSettings.(SolverSettings.Stiffness)
  else JointSettings.(JointSettings.Stiffness).

Definition GetSoftSwingStiffness : R :=
  if SolverSettings.(SolverSettings.SoftSwingStiffness) >? 0
  then SolverSettings.(SolverSettings.SoftSwingStiffness)
  else JointSettings.(JointSettings.SoftSwingStiffness).

Definition GetSoftSwingDamping : R :=
  if SolverSettings.(SolverSettings.SoftSwingDamping) >? 0
  then SolverSettings.(SolverSettings.SoftSwingDamping)
  else JointSettings.(JointSettings.SoftSwingDamping).

Definition GetLinearDriveStiffness : R :=
  if SolverSettings.(SolverSettings.LinearDriveStiffness) >? 0
  then SolverSettings.(SolverSettings.LinearDriveStiffness)
  else JointSettings.(JointSettings.LinearDriveStiffness).

Definition GetLinearDriveDamping : R :=
  if SolverSettings.(SolverSettings.LinearDriveDamping) >? 0
  then SolverSettings.(SolverSettings.LinearDriveDamping)
  else JointSettings.(JointSettings.LinearDriveDamping).

Definition GetAngularTwistDriveStiffness : R :=
  if JointSettings.(JointSettings.bAngularTwistPositionDriveEnabled)
  then (if SolverSettings.(SolverSettings.AngularDriveStiffness) >? 0
        then SolverSettings.(SolverSettings.AngularDriveStiffness)
        else JointSettings.(JointSettings.AngularDriveStiffness))
  else 0.

Definition GetAngularTwistDriveDamping : R :=
  if JointSettings.(JointSettings.bAngularTwistVelocityDriveEnabled)
  then (if SolverSettings.(SolverSettings.AngularDriveDamping) >? 0
        then SolverSettings.(SolverSettings.AngularDriveDamping)
        else JointSettings.(JointSettings.AngularDriveDamping))
  else 0.

Definition GetAngularSwingDriveStiffness : R :=
  if JointSettings.(JointSettings.bAngularSwingPositionDriveEnabled)
  then (if SolverSettings.(SolverSettings.AngularDriveStiffness) >? 0
        then SolverSettings.(SolverSettings.AngularDriveStiffness)
        else JointSettings.(JointSettings.AngularDriveStiffness))
  else 0.

Definition GetAngularSwingDriveDamping : R :=
  if JointSettings.(JointSettings.bAngularSwingVelocityDriveEnabled)
  then (if SolverSettings.(SolverSettings.AngularDriveDamping) >? 0
        then SolverSettings.(SolverSettings.AngularDriveDamping)
        else JointSettings.(JointSettings.AngularDriveDamping))
  else 0.

Definition GetAngularSLerpDriveStiffness : R :=
  if JointSettings.(JointSettings.bAngularSLerpPositionDriveEnabled)
  then (if SolverSettings.(SolverSettings.AngularDriveStiffness) >? 0
        then SolverSettings.(SolverSettings.AngularDriveStiffness)
        else JointSettings.(JointSettings.AngularDriveStiffness))
  else 0.

Definition GetAngularSLerpDriveDamping : R :=
  if JointSettings.(JointSettings.bAngularSLerpVelocityDriveEnabled)
  then (if SolverSettings.(SolverSettings.AngularDriveDamping) >? 0
        then SolverSettings.(SolverSettings.AngularDriveDamping)
        else JointSettings.(JointSettings.AngularDriveDamping))
  else 0.

Definition GetLinearProjection : R :=
  if SolverSettings.(SolverSettings.LinearProjection) >? 0
  then SolverSettings.(SolverSettings.LinearProjection)
  else JointSettings.(JointSettings.LinearProjection).

Definition GetAngularProjection : R :=
  if SolverSettings.(SolverSettings.AngularProjection) >? 0
  then SolverSettings.(SolverSettings.AngularProjection)
  else JointSettings.(JointSettings.AngularProjection).

Definition GetLinearSoftAccelerationMode : bool :=
  force_eqb JointSettings.(JointSettings.LinearSoftForceMode) Acceleration.

Definition GetAngularSoftAccelerationMode : bool :=
  force_eqb JointSettings.(JointSettings.AngularSoftForceMode) Acceleration.

Definition GetDriveAccelerationMode : bool :=
  force_eqb JointSettings.(JointSettings.AngularDriveForceMode) Acceleration.

Definition GetAngularPositionCorrection : R :=
  let bPositionCorrectionEnabled :=
    motion_eqb (at0 JointSettings.(JointSettings.LinearMotionTypes)) Locked
    && motion_eqb (at1 JointSettings.(JointSettings.LinearMotionTypes)) Locked
    && motion_eqb (at2 JointSettings.(JointSettings.LinearMotionTypes)) Locked in
  if bPositionCorrectionEnabled
  then SolverSettings.(SolverSettings.AngularConstraintPositionCorrection)
  else 0.

End SettingsResolver.

(** ** Rotations

    [FRotation3] is the engine's quaternion type.  Its members are engine
    code that this file only calls; they are modelled here as the quaternion
    algebra the kernel's description relies on. *)

Module Quat.

Record FRotation3 : Type := mk { X : R; Y : R; Z : R; W : R }.

Definition Identity : FRotation3 := mk 0 0 0 1.

Definition SizeSquared (q : FRotation3) : R :=
  X q * X q + Y q * Y q + Z q * Z q + W q * W q.

Definition IsNormalized (q : FRotation3) : Prop := SizeSquared q = 1.

(** Modelled from the spec: [FRotation3::Inverse] (engine code, not in this
    file), the inverse [R0⁻¹] of a unit quaternion, its conjugate. *)
Definition Inverse (q : FRotation3) : FRotation3 :=
  mk (- X q) (- Y q) (- Z q) (W q).

(** Modelled from the spec: the quaternion product [A * B] of the engine
    (not in this file), the Hamilton product; as a rotation it applies [B]
    first and then [A]. *)
Definition mul (a b : FRotation3) : FRotation3 :=
  mk (W a * X b + X a * W b + Y a * Z b - Z a * Y b)
     (W a * Y b - X a * Z b + Y a * W b + Z a * X b)
     (W a * Z b + X a * Y b - Y a * X b + Z a * W b)
     (W a * W b - X a * X b - Y a * Y b - Z a * Z b).

(** Modelled from the spec: [R * V], the vector [V] rotated by the
    quaternion [R] (engine code, not in this file):
    [V + W * T + Q x T] with [Q] the vector part and [T = 2 (Q x V)]. *)
Definition RotateVector (q : FRotation3) (V : FVec3) : FVec3 :=
  let Q := mkVec3 (X q) (Y q) (Z q) in
  let T := Vec3.scale 2 (Vec3.CrossProduct Q V) in
  Vec3.add (Vec3.add V (Vec3.scale (W q) T)) (Vec3.CrossProduct Q T).

(** Modelled from the spec: [FRotation3::GetNormalized] (engine code, not in
    this file): the quaternion scaled to unit length, and the identity when
    its squared length is under the small-magnitude threshold. *)
Definition GetNormalized (q : FRotation3) : FRotation3 :=
  let SquareSum := SizeSquared q in
  if SquareSum >=? SMALL_NUMBER then
    let Scale := / sqrt SquareSum in
    mk (X q * Scale) (Y q * Scale) (Z q * Scale) (W q * Scale)
  else Identity.

(** Modelled from the spec: [FRotation3::GetAngle] (engine code, not in this
    file), the rotation angle of the quaternion, [2 * acos W]. *)
Definition GetAngle (q : FRotation3) : R := 2 * FMath.Acos (W q).

(** Modelled from the spec: [FRotation3::ToSwingTwistX] (engine code, not in
    this file): the twist is the normalised projection [(X, 0, 0, W)] of the
    rotation on the X axis (the identity when [X] is zero), the swing is the
    remaining rotation, [this * Twist⁻¹].  Returns [(Swing, Twist)]. *)
Definition ToSwingTwistX (q : FRotation3) : FRotation3 * FRotation3 :=
  let OutTwist :=
    if (X q >? 0) || (X q <? 0) then GetNormalized (mk (X q) 0 0 (W q))
    else Identity in
  let OutSwing := mul q (Inverse OutTwist) in
  (OutSwing, OutTwist).

End Quat.

Declare Scope quat_scope.
Delimit Scope quat_scope with quat.
Bind Scope quat_scope with Quat.FRotation3.
Infix "*" := Quat.mul : quat_scope.

Module FJointConstants.
(** Modelled from the spec: the joint frame constants (declared in the joint
    types header, not in this file): the twist axis is the local X axis, and
    the swing axes are Z (swing 1) and Y (swing 2), as the components read by
    [GetSwingTwistAngles] show. *)
Definition TwistAxis : FVec3 := mkVec3 1 0 0.
Definition Swing1Axis : FVec3 := mkVec3 0 0 1.
Definition Swing2Axis : FVec3 := mkVec3 0 1 0.
End FJointConstants.

(** ** Swing/twist decomposition and the twist angle *)

(** Returns [(R01Swing, R01Twist)]. *)
Definition DecomposeSwingTwistLocal (R0 R1 : Quat.FRotation3)
  : Quat.FRotation3 * Quat.FRotation3 :=
  let R01 := (Quat.Inverse R0 * R1)%quat in
  Quat.ToSwingTwistX R01.

(** Returns [(TwistAngle, Swing1Angle, Swing2Angle)]. *)
Definition GetSwingTwistAngles (R0 R1 : Quat.FRotation3) : R * R * R :=
  let '(R01Swing, R01Twist) := DecomposeSwingTwistLocal R0 R1 in
  let TwistAngle := Quat.GetAngle R01Twist in
  let Swing1Angle := 4 * FMath.Atan2 (Quat.Z R01Swing) (1 + Quat.W R01Swing) in
  let Swing2Angle := 4 * FMath.Atan2 (Quat.Y R01Swing) (1 + Quat.W R01Swing) in
  (TwistAngle, Swing1Angle, Swing2Angle).

(** The two assignments to [Angle] are the two conditionals, in order.  The
    [ensure] on [Abs(Twist.W) <= 1] only reports and has no part in the
    result. *)
Definition GetTwistAngle (InTwist : Quat.FRotation3) : R :=
  let Twist := Quat.GetNormalized InTwist in
  let Angle := Quat.GetAngle Twist in
  let Angle := if Angle >? PI then Angle - 2 * PI else Angle in
  let Angle := if Quat.X Twist <? 0 then - Angle else Angle in
  Angle.

(** Returns [(Axis, Angle)]. *)
Definition GetTwistAxisAngle (R0 R1 : Quat.FRotation3) : FVec3 * R :=
  let '(R01Swing, R01Twist) := DecomposeSwingTwistLocal R0 R1 in
  let Axis := Quat.RotateVector R1 FJointConstants.TwistAxis in
  let Angle := GetTwistAngle R01Twist in
  (Axis, Angle).

(** ** The mass and inertia conditioner *)

Definition ConditionInertia (InI : FVec3) (MaxRatio : R) : FVec3 :=
  let IMin := Vec3.Min InI in
  let IMax := Vec3.Max InI in
  if (MaxRatio >? 0) && (IMin >? 0) then
    let Ratio := IMax / IMin in
    if Ratio >? MaxRatio then
      let MinIMin := IMax / MaxRatio in
      mkVec3 (FMath.Lerp MinIMin IMax ((X InI - IMin) / (IMax - IMin)))
             (FMath.Lerp MinIMin IMax ((Y InI - IMin) / (IMax - IMin)))
             (FMath.Lerp MinIMin IMax ((Z InI - IMin) / (IMax - IMin)))
    else InI
  else InI.

Definition ConditionParentInertia (IParent IChild : FVec3) (MinRatio : R) : FVec3 :=
  if MinRatio >? 0 then
    let IParentMax := Vec3.Max IParent in
    let IChildMax := Vec3.Max IChild in
    if (IParentMax >? 0) && (IChildMax >? 0) then
      let Ratio := IParentMax / IChildMax in
      if Ratio <? MinRatio then
        let Multiplier := MinRatio / Ratio in
        Vec3.scale Multiplier IParent
      else IParent
    else IParent
  else IParent.

Definition ConditionParentMass (MParent MChild MinRatio : R) : R :=
  if (MinRatio >? 0) && (MParent >? 0) && (MChild >? 0) then
    let Ratio := MParent / MChild in
    if Ratio <? MinRatio then
      let Multiplier := MinRatio / Ratio in
      MParent * Multiplier
    else MParent
  else MParent.

(** The four in/out parameters of [ConditionInverseMassAndInertia]. *)
Record FInvMassInertia : Type := mkInvMassInertia {
  InvMParent : R;
  InvMChild : R;
  InvIParent : FVec3;
  InvIChild : FVec3
}.

(** The componentwise reciprocal [FVec3(1 / V.X, 1 / V.Y, 1 / V.Z)]. *)
Definition Reciprocal (V : FVec3) : FVec3 := mkVec3 (1 / X V) (1 / Y V) (1 / Z V).

(** Each [if] of the source is one [let] below, in the source's order; the
    result holds the values of the four in/out parameters on return. *)
Definition ConditionInverseMassAndInertia
    (InOut : FInvMassInertia) (MinParentMassRatio MaxInertiaRatio : R)
  : FInvMassInertia :=
  let InOutInvMParent := InvMParent InOut in
  let InOutInvMChild := InvMChild InOut in
  let InOutInvIParent := InvIParent InOut in
  let InOutInvIChild := InvIChild InOut in
  let MParent := 0 in
  let IParent := mkVec3 0 0 0 in
  let MChild := 0 in
  let IChild := mkVec3 0 0 0 in
  let '(MParent, IParent) :=
    if InOutInvMParent >? 0
    then (1 / InOutInvMParent, ConditionInertia (Reciprocal InOutInvIParent) MaxInertiaRatio)
    else (MParent, IParent) in
  let '(MChild, IChild) :=
    if InOutInvMChild >? 0
    then (1 / InOutInvMChild, ConditionInertia (Reciprocal InOutInvIChild) MaxInertiaRatio)
    else (MChild, IChild) in
  let '(MParent, IParent) :=
    if (InOutInvMParent >? 0) && (InOutInvMChild >? 0)
    then (ConditionParentMass MParent MChild MinParentMassRatio,
          ConditionParentInertia IParent IChild MinParentMassRatio)
    else (MParent, IParent) in
  let '(OutInvMParent, OutInvIParent) :=
    if InOutInvMParent >? 0
    then (1 / MParent, Reciprocal IParent)
    else (InOutInvMParent, InOutInvIParent) in
  let '(OutInvMChild, OutInvIChild) :=
    if InOutInvMChild >? 0
    then (1 / MChild, Reciprocal IChild)
    else (InOutInvMChild, InOutInvIChild) in
  mkInvMassInertia OutInvMParent OutInvMChild OutInvIParent OutInvIChild.

(** ** The linear limit shapes *)

Definition GetSphereLimitedPositionError (CX : FVec3) (Radius : R) : FVec3 :=
  let CXLen := Vec3.Size CX in
  if CXLen <? Radius then mkVec3 0 0 0
  else if CXLen >? SMALL_NUMBER then
    let Dir := (CX /: CXLen)%vec in
    (CX - Radius *: Dir)%vec
  else CX.

Definition GetCylinderLimitedPositionError
    (InCX Axis : FVec3) (Limit : R) (AxisMotion : EJointMotionType) : FVec3 :=
  let CXAxis := (Vec3.DotProduct InCX Axis *: Axis)%vec in
  let CXPlane := (InCX - CXAxis)%vec in
  let CXPlaneLen := Vec3.Size CXPlane in
  let CXAxis := if motion_eqb AxisMotion Free then mkVec3 0 0 0 else CXAxis in
  let CXPlane :=
    if CXPlaneLen <? Limit then mkVec3 0 0 0
    else if CXPlaneLen >? KINDA_SMALL_NUMBER then
      let Dir := (CXPlane /: CXPlaneLen)%vec in
      (CXPlane - Limit *: Dir)%vec
    else CXPlane in
  (CXAxis + CXPlane)%vec.

Definition GetLineLimitedPositionError
    (CX Axis : FVec3) (Limit : R) (AxisMotion : EJointMotionType) : FVec3 :=
  let CXDist := Vec3.DotProduct CX Axis in
  if motion_eqb AxisMotion Free || (Rabs CXDist <? Limit) then
    (CX - CXDist *: Axis)%vec
  else if CXDist >=? Limit then
    (CX - Limit *: Axis)%vec
  else
    (CX + Limit *: Axis)%vec.

(** The motion types the projection works with: a soft limited axis counts
    as free. *)
Definition EffectiveMotion (JointSettings : JointSettings.FPBDJointSettings)
  : TVector3 EJointMotionType :=
  let soft := JointSettings.(JointSettings.bSoftLinearLimitsEnabled) in
  let types := JointSettings.(JointSettings.LinearMotionTypes) in
  mkTVector3
    (if motion_eqb (at0 types) Limited && soft then Free else at0 types)
    (if motion_eqb (at1 types) Limited && soft then Free else at1 types)
    (if motion_eqb (at2 types) Limited && soft then Free else at2 types).

Definition GetLimitedPositionError
    (JointSettings : JointSettings.FPBDJointSettings) (R0 : Quat.FRotation3)
    (InCX : FVec3) : FVec3 :=
  let Motion := EffectiveMotion JointSettings in
  let LinearLimit := JointSettings.(JointSettings.LinearLimit) in
  if motion_eqb (at0 Motion) Locked && motion_eqb (at1 Motion) Locked
     && motion_eqb (at2 Motion) Locked then
    InCX
  else if motion_eqb (at0 Motion) Limited && motion_eqb (at1 Motion) Limited
          && motion_eqb (at2 Motion) Limited then
    GetSphereLimitedPositionError InCX LinearLimit
  else if motion_eqb (at1 Motion) Limited && motion_eqb (at2 Motion) Limited then
    let Axis := Quat.RotateVector R0 (mkVec3 1 0 0) in
    GetCylinderLimitedPositionError InCX Axis LinearLimit (at0 Motion)
  else if motion_eqb (at0 Motion) Limited && motion_eqb (at2 Motion) Limited then
    let Axis := Quat.RotateVector R0 (mkVec3 0 1 0) in
    GetCylinderLimitedPositionError InCX Axis LinearLimit (at1 Motion)
  else if motion_eqb (at0 Motion) Limited && motion_eqb (at1 Motion) Limited then
    let Axis := Quat.RotateVector R0 (mkVec3 0 0 1) in
    GetCylinderLimitedPositionError InCX Axis LinearLimit (at2 Motion)
  else
    let CX := InCX in
    let CX :=
      if negb (motion_eqb (at0 Motion) Locked)
      then GetLineLimitedPositionError CX (Quat.RotateVector R0 (mkVec3 1 0 0))
             LinearLimit (at0 Motion)
      else CX in
    let CX :=
      if negb (motion_eqb (at1 Motion) Locked)
      then GetLineLimitedPositionError CX (Quat.RotateVector R0 (mkVec3 0 1 0))
             LinearLimit (at1 Motion)
      else CX in
    let CX :=
      if negb (motion_eqb (at2 Motion) Locked)
      then GetLineLimitedPositionError CX (Quat.RotateVector R0 (mkVec3 0 0 1))
             LinearLimit (at2 Motion)
      else CX in
    CX.

(** ** The remaining angular extractors *)

(** Modelled from the spec: [FMath::Clamp] and [FMath::Asin] (engine code, not
    in this file); [asin] of the standard library is already clamped to
    [-1, 1]. *)
Definition Clamp (x lo hi : R) : R := if x <? lo then lo else if x <? hi then x else hi.

Definition Asin (x : R) : R := asin x.

(** Modelled from the spec: [Utilities::NormalizeSafe] (declared in the
    solver's utilities header, not in this file): a vector whose squared length
    is above the tolerance is scaled to unit length and reported as
    normalised; any other vector is left as it is and reported as not
    normalised.  Returns the vector and the report. *)
Definition NormalizeSafe (V : FVec3) (EpsilonSq : R) : FVec3 * bool :=
  let VLenSq := Vec3.SizeSquared V in
  if VLenSq >? EpsilonSq then (Vec3.scale (/ sqrt VLenSq) V, true) else (V, false).

(** The index of an angular constraint; the enumeration is declared in the
    joint types header. *)
Inductive EJointAngularConstraintIndex : Type := Twist | Swing1 | Swing2.


Section SwingExtractors.

(** The two lookups of [FJointConstants] that the joint types header declares
    and this file only calls: the local axis paired with a swing constraint,
    and the component index of a constraint. *)
Variable OtherSwingAxis : EJointAngularConstraintIndex -> FVec3.
Variable AxisIndex : EJointAngularConstraintIndex -> nat.

(** Returns [(Axis, Angle)]. *)
Definition GetLockedSwingAxisAngle
    (R0 R1 : Quat.FRotation3) (SwingConstraintIndex : EJointAngularConstraintIndex)
  : FVec3 * R :=
  let Twist1 := Quat.RotateVector R1 FJointConstants.TwistAxis in
  let Swing0 := Quat.RotateVector R0 (OtherSwingAxis SwingConstraintIndex) in
  let Axis := Vec3.CrossProduct Swing0 Twist1 in
  let Angle := - Vec3.DotProduct Swing0 Twist1 in
  (Axis, Angle).

(** Returns [(Axis, Angle)]; [Axis] is the cross product as [NormalizeSafe]
    leaves it. *)
Definition GetDualConeSwingAxisAngle
    (R0 R1 : Quat.FRotation3) (SwingConstraintIndex : EJointAngularConstraintIndex)
  : FVec3 * R :=
  let Twist1 := Quat.RotateVector R1 FJointConstants.TwistAxis in
  let Swing0 := Quat.RotateVector R0 (OtherSwingAxis SwingConstraintIndex) in
  let Axis := Vec3.CrossProduct Swing0 Twist1 in
  let Angle := 0 in
  let '(Axis, bNormalized) := NormalizeSafe Axis KINDA_SMALL_NUMBER in
  if bNormalized then
    let SwingTwistDot := Vec3.DotProduct Swing0 Twist1 in
    (Axis, Asin (Clamp (- SwingTwistDot) (-1) 1))
  else (Axis, Angle).


End SwingExtractors.

(** Returns [(Axis0, Axis1, Axis2)]; the three [+=] of the degenerate branch
    are the three rebuilt vectors. *)
Definition GetLockedAxes (R0 R1 : Quat.FRotation3) : FVec3 * FVec3 * FVec3 :=
  let W0 := Quat.W R0 in
  let W1 := Quat.W R1 in
  let V0 := mkVec3 (Quat.X R0) (Quat.Y R0) (Quat.Z R0) in
  let V1 := mkVec3 (Quat.X R1) (Quat.Y R1) (Quat.Z R1) in
  let C := Vec3.add (Vec3.scale W0 V1) (Vec3.scale W1 V0) in
  let D0 := W0 * W1 in
  let D1 := Vec3.DotProduct V0 V1 in
  let D := D0 - D1 in
  let Axis0 :=
    Vec3.scale (1 / 2)
      (Vec3.add (Vec3.add (Vec3.scale (X V1) V0) (Vec3.scale (X V0) V1))
                (mkVec3 D (Z C) (- Y C))) in
  let Axis1 :=
    Vec3.scale (1 / 2)
      (Vec3.add (Vec3.add (Vec3.scale (Y V1) V0) (Vec3.scale (Y V0) V1))
                (mkVec3 (- Z C) D (X C))) in
  let Axis2 :=
    Vec3.scale (1 / 2)
      (Vec3.add (Vec3.add (Vec3.scale (Z V1) V0) (Vec3.scale (Z V0) V1))
                (mkVec3 (Y C) (- X C) D)) in
  if Rabs (D0 + D1) <? SMALL_NUMBER then
    let Epsilon := SMALL_NUMBER in
    (mkVec3 (X Axis0 + Epsilon) (Y Axis0) (Z Axis0),
     mkVec3 (X Axis1) (Y Axis1 + Epsilon) (Z Axis1),
     mkVec3 (X Axis2) (Y Axis2) (Z Axis2 + Epsilon))
  else (Axis0, Axis1, Axis2).

(** ** The conditioner and the spherical limit on the machine type

    [FReal] of the source is the IEEE 754 binary32 type.  The module below
    transcribes the same source functions over binary32 values, with every
    operation rounded to nearest even as the hardware does (the standard
    library's [SpecFloat] at precision 24 and maximal exponent 128), so that
    the program can be evaluated at concrete inputs where rounding or
    overflow decides the result. *)

Module Binary32.

Definition FReal : Type := spec_float.

Definition prec : BinNums.Z := 24%Z.
Definition emax : BinNums.Z := 128%Z.

(** The binary32 value of an integer, and of [m * 2 ^ e]. *)
Definition ofZ (z : BinNums.Z) : FReal := binary_normalize prec emax z 0%Z false.
Definition ofBits (m e : BinNums.Z) : FReal := binary_normalize prec emax m e false.

Definition add : FReal -> FReal -> FReal := SFadd prec emax.
Definition sub : FReal -> FReal -> FReal := SFsub prec emax.
Definition mul : FReal -> FReal -> FReal := SFmul prec emax.
Definition div : FReal -> FReal -> FReal := SFdiv prec emax.
Definition sqrt : FReal -> FReal := SFsqrt prec emax.
Definition ltb (a b : FReal) : bool := SFltb a b.
Definition gtb (a b : FReal) : bool := SFltb b a.
Definition leb (a b : FReal) : bool := SFleb a b.
Definition geb (a b : FReal) : bool := SFleb b a.

(** The exact value of a finite binary32 number as a rational. *)
Definition toQ (x : FReal) : Q :=
  match x with
  | S754_finite s m e =>
      let v := (inject_Z (Zpos m) * Qpower 2 e)%Q in
      if s then Qopp v else v
  | _ => 0%Q
  end.

(** Modelled from the spec: the engine macro [SMALL_NUMBER] (not in this
    file), the binary32 number nearest to 1.e-8. *)
Definition SMALL_NUMBER : FReal := ofBits 11258999%Z (-50)%Z.

(** Modelled from the spec: [FMath::Lerp], [FMath::Min] and [FMath::Max]
    (engine code, not in this file), with the operations rounded. *)
Definition Lerp (A B Alpha : FReal) : FReal := add A (mul Alpha (sub B A)).
Definition Min (a b : FReal) : FReal := if leb a b then a else b.
Definition Max (a b : FReal) : FReal := if geb a b then a else b.

(** Modelled from the spec: [FVec3] and its operators (engine code, not in
    this file): the smallest and largest component, the length as the square
    root of the sum of the squares, and the componentwise difference, scaling
    and division by a scalar, each operation rounded. *)
Record FVec3 : Type := mkVec3 { X : FReal; Y : FReal; Z : FReal }.

Definition VMin (v : FVec3) : FReal := Min (Min (X v) (Y v)) (Z v).
Definition VMax (v : FVec3) : FReal := Max (Max (X v) (Y v)) (Z v).
Definition Size (v : FVec3) : FReal :=
  sqrt (add (add (mul (X v) (X v)) (mul (Y v) (Y v))) (mul (Z v) (Z v))).
Definition vsub (a b : FVec3) : FVec3 :=
  mkVec3 (sub (X a) (X b)) (sub (Y a) (Y b)) (sub (Z a) (Z b)).
Definition vscale (k : FReal) (a : FVec3) : FVec3 :=
  mkVec3 (mul k (X a)) (mul k (Y a)) (mul k (Z a)).
Definition vdiv (a : FVec3) (k : FReal) : FVec3 :=
  mkVec3 (div (X a) k) (div (Y a) k) (div (Z a) k).

(** The other way an engine divides a vector by a scalar: one rounded
    reciprocal, then three products. *)
Definition vdiv_by_reciprocal (a : FVec3) (k : FReal) : FVec3 :=
  vscale (div (ofZ 1%Z) k) a.

Definition ConditionInertia (InI : FVec3) (MaxRatio : FReal) : FVec3 :=
  let IMin := VMin InI in
  let IMax := VMax InI in
  if gtb MaxRatio (ofZ 0%Z) && gtb IMin (ofZ 0%Z) then
    let Ratio := div IMax IMin in
    if gtb Ratio MaxRatio then
      let MinIMin := div IMax MaxRatio in
      mkVec3 (Lerp MinIMin IMax (div (sub (X InI) IMin) (sub IMax IMin)))
             (Lerp MinIMin IMax (div (sub (Y InI) IMin) (sub IMax IMin)))
             (Lerp MinIMin IMax (div (sub (Z InI) IMin) (sub IMax IMin)))
    else InI
  else InI.

Definition ConditionParentInertia (IParent IChild : FVec3) (MinRatio : FReal) : FVec3 :=
  if gtb MinRatio (ofZ 0%Z) then
    let IParentMax := VMax IParent in
    let IChildMax := VMax IChild in
    if gtb IParentMax (ofZ 0%Z) && gtb IChildMax (ofZ 0%Z) then
      let Ratio := div IParentMax IChildMax in
      if ltb Ratio MinRatio then
        let Multiplier := div MinRatio Ratio in
        vscale Multiplier IParent
      else IParent
    else IParent
  else IParent.

Definition ConditionParentMass (MParent MChild MinRatio : FReal) : FReal :=
  if gtb MinRatio (ofZ 0%Z) && gtb MParent (ofZ 0%Z) && gtb MChild (ofZ 0%Z) then
    let Ratio := div MParent MChild in
    if ltb Ratio MinRatio then
      let Multiplier := div MinRatio Ratio in
      mul MParent Multiplier
    else MParent
  else MParent.

Record FInvMassInertia : Type := mkInvMassInertia {
  InvMParent : FReal;
  InvMChild : FReal;
  InvIParent : FVec3;
  InvIChild : FVec3
}.

Definition Reciprocal (V : FVec3) : FVec3 :=
  mkVec3 (div (ofZ 1%Z) (X V)) (div (ofZ 1%Z) (Y V)) (div (ofZ 1%Z) (Z V)).

Definition ConditionInverseMassAndInertia
    (InOut : FInvMassInertia) (MinParentMassRatio MaxInertiaRatio : FReal)
  : FInvMassInertia :=
  let InOutInvMParent := InvMParent InOut in
  let InOutInvMChild := InvMChild InOut in
  let InOutInvIParent := InvIParent InOut in
  let InOutInvIChild := InvIChild InOut in
  let MParent := ofZ 0%Z in
  let IParent := mkVec3 (ofZ 0%Z) (ofZ 0%Z) (ofZ 0%Z) in
  let MChild := ofZ 0%Z in
  let IChild := mkVec3 (ofZ 0%Z) (ofZ 0%Z) (ofZ 0%Z) in
  let '(MParent, IParent) :=
    if gtb InOutInvMParent (ofZ 0%Z)
    then (div (ofZ 1%Z) InOutInvMParent,
          ConditionInertia (Reciprocal InOutInvIParent) MaxInertiaRatio)
    else (MParent, IParent) in
  let '(MChild, IChild) :=
    if gtb InOutInvMChild (ofZ 0%Z)
    then (div (ofZ 1%Z) InOutInvMChild,
          ConditionInertia (Reciprocal InOutInvIChild) MaxInertiaRatio)
    else (MChild, IChild) in
  let '(MParent, IParent) :=
    if gtb InOutInvMParent (ofZ 0%Z) && gtb InOutInvMChild (ofZ 0%Z)
    then (ConditionParentMass MParent MChild MinParentMassRatio,
          ConditionParentInertia IParent IChild MinParentMassRatio)
    else (MParent, IParent) in
  let '(OutInvMParent, OutInvIParent) :=
    if gtb InOutInvMParent (ofZ 0%Z)
    then (div (ofZ 1%Z) MParent, Reciprocal IParent)
    else (InOutInvMParent, InOutInvIParent) in
  let '(OutInvMChild, OutInvIChild) :=
    if gtb InOutInvMChild (ofZ 0%Z)
    then (div (ofZ 1%Z) MChild, Reciprocal IChild)
    else (InOutInvMChild, InOutInvIChild) in
  mkInvMassInertia OutInvMParent OutInvMChild OutInvIParent OutInvIChild.

Definition GetSphereLimitedPositionError (CX : FVec3) (Radius : FReal) : FVec3 :=
  let CXLen := Size CX in
  if ltb CXLen Radius then mkVec3 (ofZ 0%Z) (ofZ 0%Z) (ofZ 0%Z)
  else if gtb CXLen SMALL_NUMBER then
    let Dir := vdiv CX CXLen in
    vsub CX (vscale Radius Dir)
  else CX.

End Binary32.

(** ** Predicates and inputs used by the statements *)

(** The precedence rule of the settings resolver: a positive solver value
    wins, otherwise the joint's value is used. *)
Definition OverrideIfPositive (Solver Joint Result : R) : Prop :=
  (0 < Solver -> Result = Solver) /\ (Solver <= 0 -> Result = Joint).

(** A solver whose every coefficient is 5 and a joint whose every coefficient
    is 2, with all six drive flags off. *)
Definition SolverAllFive : SolverSettings.FPBDJointSolverSettings :=
  SolverSettings.mk 5 5 5 5 5 5 5 5 5 5 5 5 5 5.

Definition JointAllTwoDrivesOff : JointSettings.FPBDJointSettings :=
  JointSettings.mk 2 2 2 (mkTVector3 Locked Locked Locked) 2 false
    Force Force 2 2 2 2 2 2 2 2
    false false false false false false
    Force 2 2.

(** The same joint with all six drive flags on, and a solver that overrides
    nothing. *)
Definition JointAllTwoDrivesOn : JointSettings.FPBDJointSettings :=
  JointSettings.mk 2 2 2 (mkTVector3 Locked Locked Locked) 2 false
    Force Force 2 2 2 2 2 2 2 2
    true true true true true true
    Force 2 2.

Definition SolverAllZero : SolverSettings.FPBDJointSolverSettings :=
  SolverSettings.mk 0 0 0 0 0 0 0 0 0 0 0 0 0 0.

(** All three components strictly positive. *)
Definition PositiveComponents (v : FVec3) : Prop := 0 < X v /\ 0 < Y v /\ 0 < Z v.

(** The linear remapping of [ConditionInertia]: the component [x] keeps its
    relative position between [IMin] and [IMax] inside the narrower range
    from [IMax / MaxRatio] to [IMax]. *)
Definition RemapInertia (IMin IMax MaxRatio x : R) : R :=
  FMath.Lerp (IMax / MaxRatio) IMax ((x - IMin) / (IMax - IMin)).

(** [b] orders its components the way [a] does. *)
Definition SameOrder (a b : FVec3) : Prop :=
  (X a <= Y a -> X b <= Y b) /\ (Y a <= X a -> Y b <= X b) /\
  (X a <= Z a -> X b <= Z b) /\ (Z a <= X a -> Z b <= X b) /\
  (Y a <= Z a -> Y b <= Z b) /\ (Z a <= Y a -> Z b <= Y b).

Definition SameStrictOrder (a b : FVec3) : Prop :=
  (X a < Y a -> X b < Y b) /\ (Y a < X a -> Y b < X b) /\
  (X a < Z a -> X b < Z b) /\ (Z a < X a -> Z b < X b) /\
  (Y a < Z a -> Y b < Z b) /\ (Z a < Y a -> Z b < Y b).

(** The anisotropy bound of a direct inertia: positive components whose
    max/min ratio is at most [MaxRatio]. *)
Definition InertiaRatioBounded (I : FVec3) (MaxRatio : R) : Prop :=
  0 < Vec3.Min I /\ Vec3.Max I / Vec3.Min I <= MaxRatio.

(** A dynamic parent of inverse inertia [(1, 1, 1/2)] next to a kinematic
    child. *)
Definition LoneParent : FInvMassInertia :=
  mkInvMassInertia 1 0 (mkVec3 1 1 (1 / 2)) (mkVec3 1 1 1).

(** Two dynamic bodies: a parent of mass 1 and a child of mass 100, with
    inertias [(1, 1, 100)] and [(100, 100, 100)]. *)
Definition LightParentHeavyChild : FInvMassInertia :=
  mkInvMassInertia 1 (1 / 100) (mkVec3 1 1 (1 / 100))
    (mkVec3 (1 / 100) (1 / 100) (1 / 100)).

(** Three joints that differ in their linear motion types: one axis soft
    limited next to two locked ones, three hard limited axes with a limit of
    0, and one hard limited axis next to two free ones. *)
Definition JointSoftLimitedX : JointSettings.FPBDJointSettings :=
  JointSettings.mk 2 2 2 (mkTVector3 Limited Locked Locked) 1 true
    Force Force 2 2 2 2 2 2 2 2
    false false false false false false
    Force 2 2.

Definition JointHardSphereZero : JointSettings.FPBDJointSettings :=
  JointSettings.mk 2 2 2 (mkTVector3 Limited Limited Limited) 0 false
    Force Force 2 2 2 2 2 2 2 2
    false false false false false false
    Force 2 2.

(** The angle of [GetTwistAngle] before the sign is resolved: the rotation
    angle of the normalised twist, less a full turn when it is above [PI]. *)
Definition RemappedAngle (InTwist : Quat.FRotation3) : R :=
  let Angle := Quat.GetAngle (Quat.GetNormalized InTwist) in
  if Angle >? PI then Angle - 2 * PI else Angle.

(** The half turn about the twist axis, written with a negative axis
    component. *)
Definition HalfTurnNegativeX : Quat.FRotation3 := Quat.mk (-1) 0 0 0.

(** The half turn about the Y axis, a pure swing. *)
Definition HalfTurnY : Quat.FRotation3 := Quat.mk 0 1 0 0.

(** ** Predicates and inputs of the further properties *)

(** The scalar triple product [a . (b x c)]: zero exactly when the three
    vectors are linearly dependent. *)
Definition TripleProduct (a b c : FVec3) : R :=
  Vec3.DotProduct a (Vec3.CrossProduct b c).

(** The four-dimensional dot product of two quaternions, [W0 W1 + V0 . V1]. *)
Definition QuatDot (a b : Quat.FRotation3) : R :=
  Quat.W a * Quat.W b + Quat.X a * Quat.X b + Quat.Y a * Quat.Y b + Quat.Z a * Quat.Z b.

(** The quaternion with its twist-axis component negated, and the negated
    quaternion (which is the same rotation). *)
Definition FlipX (q : Quat.FRotation3) : Quat.FRotation3 :=
  Quat.mk (- Quat.X q) (Quat.Y q) (Quat.Z q) (Quat.W q).

Definition Negate (q : Quat.FRotation3) : Quat.FRotation3 :=
  Quat.mk (- Quat.X q) (- Quat.Y q) (- Quat.Z q) (- Quat.W q).

(** Every joint coefficient that a getter can return is non-negative. *)
Definition NonNegativeJoint (J : JointSettings.FPBDJointSettings) : Prop :=
  0 <= JointSettings.Stiffness J /\
  0 <= JointSettings.SoftLinearStiffness J /\
  0 <= JointSettings.SoftLinearDamping J /\
  0 <= JointSettings.SoftTwistStiffness J /\
  0 <= JointSettings.SoftTwistDamping J /\
  0 <= JointSettings.SoftSwingStiffness J /\
  0 <= JointSettings.SoftSwingDamping J /\
  0 <= JointSettings.LinearDriveStiffness J /\
  0 <= JointSettings.LinearDriveDamping J /\
  0 <= JointSettings.AngularDriveStiffness J /\
  0 <= JointSettings.AngularDriveDamping J /\
  0 <= JointSettings.LinearProjection J /\
  0 <= JointSettings.AngularProjection J.

(** A solver whose every override is negative. *)
Definition SolverAllNegative : SolverSettings.FPBDJointSolverSettings :=
  SolverSettings.mk (-1) (-1) (-1) (-1) (-1) (-1) (-1) (-1) (-1) (-1) (-1) (-1) (-1) (-1).

(** No component of [a] is above the same component of [b]. *)
Definition ComponentsLe (a b : FVec3) : Prop :=
  X a <= X b /\ Y a <= Y b /\ Z a <= Z b.

(** A body pair is well formed for the conditioner when every dynamic body
    has positive inverse inertia components. *)
Definition WellFormedPair (In : FInvMassInertia) : Prop :=
  (0 < InvMParent In -> PositiveComponents (InvIParent In)) /\
  (0 < InvMChild In -> PositiveComponents (InvIChild In)).

(** A pairing of the swing constraints with local axes, for the examples:
    swing 1 with the swing-2 axis and the others with the swing-1 axis. *)
Definition PairedSwingAxis (i : EJointAngularConstraintIndex) : FVec3 :=
  match i with
  | Swing1 => FJointConstants.Swing2Axis
  | _ => FJointConstants.Swing1Axis
  end.

(** A joint whose three axes are free, one of them through a soft limit. *)
Definition JointAllFree : JointSettings.FPBDJointSettings :=
  JointSettings.mk 2 2 2 (mkTVector3 Free Limited Free) 1 true
    Force Force 2 2 2 2 2 2 2 2
    false false false false false false
    Force 2 2.

(** A joint with a hard limit of 1 on X and Y and a locked Z axis. *)
Definition JointHardLimitedXY : JointSettings.FPBDJointSettings :=
  JointSettings.mk 2 2 2 (mkTVector3 Limited Limited Locked) 1 false
    Force Force 2 2 2 2 2 2 2 2
    false false false false false false
    Force 2 2.

(** The unit quaternion of the third of a turn about the diagonal, which
    carries the X axis to the Y axis. *)
Definition ThirdTurnDiagonal : Quat.FRotation3 :=
  Quat.mk (1 / 2) (1 / 2) (1 / 2) (1 / 2).

(** ** Binary32 inputs of the counterexamples *)

Definition b32 (z : BinNums.Z) : Binary32.FReal := Binary32.ofZ z.

(** The inertia [(1, 14, 38)]. *)
Definition Inertia_1_14_38 : Binary32.FVec3 :=
  Binary32.mkVec3 (b32 1) (b32 14) (b32 38).

(** Two dynamic bodies of inverse masses 13 and 1 and unit inertias, and a
    dynamic parent with one locked rotation axis (inverse inertia 0) next to
    a kinematic child. *)
Definition Pair_13_1 : Binary32.FInvMassInertia :=
  Binary32.mkInvMassInertia (b32 13) (b32 1)
    (Binary32.mkVec3 (b32 1) (b32 1) (b32 1))
    (Binary32.mkVec3 (b32 1) (b32 1) (b32 1)).

Definition ParentLockedAxis : Binary32.FInvMassInertia :=
  Binary32.mkInvMassInertia (b32 1) (b32 0)
    (Binary32.mkVec3 (b32 0) (b32 1) (b32 1))
    (Binary32.mkVec3 (b32 1) (b32 1) (b32 1)).

(** One half as a binary32 number. *)
Definition b32_half : Binary32.FReal := Binary32.ofBits 1 (-1).

(** The errors [(1, 2, 2)], of length 3, and [(2^70, 0, 0)], whose squared
    length is above the largest binary32 number. *)
Definition Error_1_2_2 : Binary32.FVec3 :=
  Binary32.mkVec3 (b32 1) (b32 2) (b32 2).

Definition Error_huge : Binary32.FVec3 :=
  Binary32.mkVec3 (b32 (2 ^ 70)) (b32 0) (b32 0).

(** The exact squared length of a binary32 vector. *)
Definition ExactSizeSquared (v : Binary32.FVec3) : Q :=
  (Binary32.toQ (Binary32.X v) * Binary32.toQ (Binary32.X v)
   + Binary32.toQ (Binary32.Y v) * Binary32.toQ (Binary32.Y v)
   + Binary32.toQ (Binary32.Z v) * Binary32.toQ (Binary32.Z v))%Q.

(** Two dynamic bodies, the parent with negative inverse inertia
    components. *)
Definition NegativeInertiaParent : FInvMassInertia :=
  mkInvMassInertia 1 1 (mkVec3 (-1) (-1) (-1)) (mkVec3 1 1 1).

(** * Properties *)

(** ** Comparisons *)

Lemma Rgtb_true (a b : R) : b < a -> (a >? b) = true.
Proof. intros H; unfold Rgtb; destruct (Rlt_dec b a); [reflexivity | contradiction]. Qed.

Lemma Rgtb_false (a b : R) : a <= b -> (a >? b) = false.
Proof. intros H; unfold Rgtb; destruct (Rlt_dec b a); [lra | reflexivity]. Qed.

Lemma Rltb_true (a b : R) : a < b -> (a <? b) = true.
Proof. intros H; unfold Rltb; destruct (Rlt_dec a b); [reflexivity | contradiction]. Qed.

Lemma Rltb_false (a b : R) : b <= a -> (a <? b) = false.
Proof. intros H; unfold Rltb; destruct (Rlt_dec a b); [lra | reflexivity]. Qed.

Lemma Rgeb_true (a b : R) : b <= a -> (a >=? b) = true.
Proof. intros H; unfold Rgeb; destruct (Rle_dec b a); [reflexivity | contradiction]. Qed.

Lemma Rgeb_false (a b : R) : a < b -> (a >=? b) = false.
Proof. intros H; unfold Rgeb; destruct (Rle_dec b a); [lra | reflexivity]. Qed.

Lemma Rgtb_spec (a b : R) : reflect (b < a) (a >? b).
Proof. unfold Rgtb; destruct (Rlt_dec b a); constructor; assumption. Qed.

Lemma Rltb_spec (a b : R) : reflect (a < b) (a <? b).
Proof. unfold Rltb; destruct (Rlt_dec a b); constructor; assumption. Qed.

Lemma Rgeb_spec (a b : R) : reflect (b <= a) (a >=? b).
Proof. unfold Rgeb; destruct (Rle_dec b a); constructor; assumption. Qed.

Lemma SMALL_NUMBER_pos : 0 < SMALL_NUMBER.
Proof. unfold SMALL_NUMBER; lra. Qed.

Lemma vec_eq (a b : FVec3) : X a = X b -> Y a = Y b -> Z a = Z b -> a = b.
Proof. destruct a, b; simpl; intros -> -> ->; reflexivity. Qed.

(** ** The settings resolver *)

Lemma override_rule (s j : R) :
  OverrideIfPositive s j (if s >? 0 then s else j).
Proof.
  split; intros H.
  - rewrite Rgtb_true by assumption; reflexivity.
  - rewrite Rgtb_false by assumption; reflexivity.
Qed.

Lemma guarded_override_rule (flag : bool) (s j : R) :
  flag = true ->
  OverrideIfPositive s j (if flag then (if s >? 0 then s else j) else 0).
Proof. intros ->; apply override_rule. Qed.

(** C1, as the code has it: each of the six angular drive getters (twist,
    swing and slerp; stiffness guarded by the position-drive flag, damping by
    the velocity-drive flag) returns 0 when its flag is false, whatever the
    solver and joint coefficients are.  The two linear drive getters read no
    flag and are not part of the statement. *)
Theorem angular_drive_disabled_is_zero
    (S : SolverSettings.FPBDJointSolverSettings)
    (J : JointSettings.FPBDJointSettings) :
  (JointSettings.bAngularTwistPositionDriveEnabled J = false ->
     GetAngularTwistDriveStiffness S J = 0) /\
  (JointSettings.bAngularTwistVelocityDriveEnabled J = false ->
     GetAngularTwistDriveDamping S J = 0) /\
  (JointSettings.bAngularSwingPositionDriveEnabled J = false ->
     GetAngularSwingDriveStiffness S J = 0) /\
  (JointSettings.bAngularSwingVelocityDriveEnabled J = false ->
     GetAngularSwingDriveDamping S J = 0) /\
  (JointSettings.bAngularSLerpPositionDriveEnabled J = false ->
     GetAngularSLerpDriveStiffness S J = 0) /\
  (JointSettings.bAngularSLerpVelocityDriveEnabled J = false ->
     GetAngularSLerpDriveDamping S J = 0).
Proof.
  unfold GetAngularTwistDriveStiffness, GetAngularTwistDriveDamping,
    GetAngularSwingDriveStiffness, GetAngularSwingDriveDamping,
    GetAngularSLerpDriveStiffness, GetAngularSLerpDriveDamping.
  repeat split; intros ->; reflexivity.
Qed.

Lemma angular_drive_disabled_is_zero_witness :
  GetAngularTwistDriveStiffness SolverAllFive JointAllTwoDrivesOff = 0 /\
  GetAngularSLerpDriveDamping SolverAllFive JointAllTwoDrivesOff = 0.
Proof.
  pose proof (angular_drive_disabled_is_zero SolverAllFive JointAllTwoDrivesOff)
    as (Htwist & _ & _ & _ & _ & Hslerp).
  split; [apply Htwist | apply Hslerp]; reflexivity.
Defined.

(** C1, as stated, fails on the linear drive getters: with every drive flag
    of the joint false, the linear drive stiffness and damping are still the
    solver's 5 (and the joint's 2 when the solver overrides nothing), not 0. *)
Lemma linear_drive_ignores_enable_flags :
  JointSettings.bAngularTwistPositionDriveEnabled JointAllTwoDrivesOff = false /\
  JointSettings.bAngularTwistVelocityDriveEnabled JointAllTwoDrivesOff = false /\
  JointSettings.bAngularSwingPositionDriveEnabled JointAllTwoDrivesOff = false /\
  JointSettings.bAngularSwingVelocityDriveEnabled JointAllTwoDrivesOff = false /\
  JointSettings.bAngularSLerpPositionDriveEnabled JointAllTwoDrivesOff = false /\
  JointSettings.bAngularSLerpVelocityDriveEnabled JointAllTwoDrivesOff = false /\
  GetLinearDriveStiffness SolverAllFive JointAllTwoDrivesOff = 5 /\
  GetLinearDriveDamping SolverAllFive JointAllTwoDrivesOff = 5 /\
  GetLinearDriveStiffness SolverAllZero JointAllTwoDrivesOff = 2 /\
  GetLinearDriveStiffness SolverAllFive JointAllTwoDrivesOff <> 0 /\
  GetLinearDriveDamping SolverAllFive JointAllTwoDrivesOff <> 0.
Proof.
  unfold GetLinearDriveStiffness, GetLinearDriveDamping; simpl.
  rewrite (Rgtb_true 5 0) by lra.
  rewrite (Rgtb_false 0 0) by lra.
  repeat split; lra.
Qed.

(** C4: every getter with a global counterpart follows the precedence rule on
    its own pair of fields: a strictly positive solver value is returned,
    and otherwise (solver value at most 0) the joint's value is; for the six
    angular drive getters this is with their enable flag true. *)
Theorem resolver_override_if_positive
    (S : SolverSettings.FPBDJointSolverSettings)
    (J : JointSettings.FPBDJointSettings) :
  OverrideIfPositive (SolverSettings.Stiffness S) (JointSettings.Stiffness J)
    (GetLinearStiffness S J) /\
  OverrideIfPositive (SolverSettings.SoftLinearStiffness S)
    (JointSettings.SoftLinearStiffness J) (GetSoftLinearStiffness S J) /\
  OverrideIfPositive (SolverSettings.SoftLinearDamping S)
    (JointSettings.SoftLinearDamping J) (GetSoftLinearDamping S J) /\
  OverrideIfPositive (SolverSettings.Stiffness S) (JointSettings.Stiffness J)
    (GetTwistStiffness S J) /\
  OverrideIfPositive (SolverSettings.SoftTwistStiffness S)
    (JointSettings.SoftTwistStiffness J) (GetSoftTwistStiffness S J) /\
  OverrideIfPositive (SolverSettings.SoftTwistDamping S)
    (JointSettings.SoftTwistDamping J) (GetSoftTwistDamping S J) /\
  OverrideIfPositive (SolverSettings.Stiffness S) (JointSettings.Stiffness J)
    (GetSwingStiffness S J) /\
  OverrideIfPositive (SolverSettings.SoftSwingStiffness S)
    (JointSettings.SoftSwingStiffness J) (GetSoftSwingStiffness S J) /\
  OverrideIfPositive (SolverSettings.SoftSwingDamping S)
    (JointSettings.SoftSwingDamping J) (GetSoftSwingDamping S J) /\
  OverrideIfPositive (SolverSettings.LinearDriveStiffness S)
    (JointSettings.LinearDriveStiffness J) (GetLinearDriveStiffness S J) /\
  OverrideIfPositive (SolverSettings.LinearDriveDamping S)
    (JointSettings.LinearDriveDamping J) (GetLinearDriveDamping S J) /\
  (JointSettings.bAngularTwistPositionDriveEnabled J = true ->
   OverrideIfPositive (SolverSettings.AngularDriveStiffness S)
     (JointSettings.AngularDriveStiffness J) (GetAngularTwistDriveStiffness S J)) /\
  (JointSettings.bAngularTwistVelocityDriveEnabled J = true ->
   OverrideIfPositive (SolverSettings.AngularDriveDamping S)
     (JointSettings.AngularDriveDamping J) (GetAngularTwistDriveDamping S J)) /\
  (JointSettings.bAngularSwingPositionDriveEnabled J = true ->
   OverrideIfPositive (SolverSettings.AngularDriveStiffness S)
     (JointSettings.AngularDriveStiffness J) (GetAngularSwingDriveStiffness S J)) /\
  (JointSettings.bAngularSwingVelocityDriveEnabled J = true ->
   OverrideIfPositive (SolverSettings.AngularDriveDamping S)
     (JointSettings.AngularDriveDamping J) (GetAngularSwingDriveDamping S J)) /\
  (JointSettings.bAngularSLerpPositionDriveEnabled J = true ->
   OverrideIfPositive (SolverSettings.AngularDriveStiffness S)
     (JointSettings.AngularDriveStiffness J) (GetAngularSLerpDriveStiffness S J)) /\
  (JointSettings.bAngularSLerpVelocityDriveEnabled J = true ->
   OverrideIfPositive (SolverSettings.AngularDriveDamping S)
     (JointSettings.AngularDriveDamping J) (GetAngularSLerpDriveDamping S J)) /\
  OverrideIfPositive (SolverSettings.LinearProjection S)
    (JointSettings.LinearProjection J) (GetLinearProjection S J) /\
  OverrideIfPositive (SolverSettings.AngularProjection S)
    (JointSettings.AngularProjection J) (GetAngularProjection S J).
Proof.
  repeat match goal with
         | |- _ /\ _ => split
         | |- _ = true -> _ => intros Hflag
         end;
    first [ apply override_rule
          | apply (guarded_override_rule _ _ _ Hflag) ].
Qed.

(** The rule at the values of the specification: solver 5 against joint 2
    gives 5, solver 0 against joint 2 gives 2, for a plain getter and for a
    guarded one with its flag on. *)
Lemma resolver_override_if_positive_witness :
  GetLinearStiffness SolverAllFive JointAllTwoDrivesOn = 5 /\
  GetLinearStiffness SolverAllZero JointAllTwoDrivesOn = 2 /\
  GetAngularSwingDriveDamping SolverAllFive JointAllTwoDrivesOn = 5 /\
  GetAngularSwingDriveDamping SolverAllZero JointAllTwoDrivesOn = 2.
Proof.
  pose proof (resolver_override_if_positive SolverAllFive JointAllTwoDrivesOn)
    as (H5 & _ & _ & _ & _ & _ & _ & _ & _ & _ & _ & _ & _ & _ & G5 & _).
  pose proof (resolver_override_if_positive SolverAllZero JointAllTwoDrivesOn)
    as (H0 & _ & _ & _ & _ & _ & _ & _ & _ & _ & _ & _ & _ & _ & G0 & _).
  destruct H5 as [H5 _], H0 as [_ H0].
  destruct (G5 eq_refl) as [G5' _], (G0 eq_refl) as [_ G0'].
  simpl in H5, H0, G5', G0'.
  repeat split; [apply H5 | apply H0 | apply G5' | apply G0']; lra.
Defined.

(** ** Minimum and maximum of three components *)

Lemma Rmin_monotone (f : R -> R) (a b : R) :
  (forall x y, x <= y -> f x <= f y) -> Rmin (f a) (f b) = f (Rmin a b).
Proof.
  intros Hf; unfold Rmin.
  destruct (Rle_dec a b) as [Hab | Hab], (Rle_dec (f a) (f b)) as [Hfab | Hfab];
    try reflexivity.
  - elim Hfab; apply Hf; assumption.
  - apply Rle_antisym; [assumption | apply Hf; lra].
Qed.

Lemma Rmax_monotone (f : R -> R) (a b : R) :
  (forall x y, x <= y -> f x <= f y) -> Rmax (f a) (f b) = f (Rmax a b).
Proof.
  intros Hf; unfold Rmax.
  destruct (Rle_dec a b) as [Hab | Hab], (Rle_dec (f a) (f b)) as [Hfab | Hfab];
    try reflexivity.
  - elim Hfab; apply Hf; assumption.
  - apply Rle_antisym; [apply Hf; lra | assumption].
Qed.

Lemma Min3_monotone (f : R -> R) (a b c : R) :
  (forall x y, x <= y -> f x <= f y) ->
  FMath.Min3 (f a) (f b) (f c) = f (FMath.Min3 a b c).
Proof.
  intros Hf; unfold FMath.Min3.
  rewrite (Rmin_monotone f a b Hf); apply Rmin_monotone; assumption.
Qed.

Lemma Max3_monotone (f : R -> R) (a b c : R) :
  (forall x y, x <= y -> f x <= f y) ->
  FMath.Max3 (f a) (f b) (f c) = f (FMath.Max3 a b c).
Proof.
  intros Hf; unfold FMath.Max3.
  rewrite (Rmax_monotone f a b Hf); apply Rmax_monotone; assumption.
Qed.

Lemma Min3_lower (a b c : R) :
  FMath.Min3 a b c <= a /\ FMath.Min3 a b c <= b /\ FMath.Min3 a b c <= c.
Proof.
  unfold FMath.Min3, Rmin; repeat destruct (Rle_dec _ _); lra.
Qed.

Lemma Max3_upper (a b c : R) :
  a <= FMath.Max3 a b c /\ b <= FMath.Max3 a b c /\ c <= FMath.Max3 a b c.
Proof.
  unfold FMath.Max3, Rmax; repeat destruct (Rle_dec _ _); lra.
Qed.

Lemma Min3_attained (a b c : R) :
  FMath.Min3 a b c = a \/ FMath.Min3 a b c = b \/ FMath.Min3 a b c = c.
Proof.
  unfold FMath.Min3, Rmin; repeat destruct (Rle_dec _ _); auto.
Qed.

Lemma Max3_attained (a b c : R) :
  FMath.Max3 a b c = a \/ FMath.Max3 a b c = b \/ FMath.Max3 a b c = c.
Proof.
  unfold FMath.Max3, Rmax; repeat destruct (Rle_dec _ _); auto.
Qed.

Lemma Min_le_Max (v : FVec3) : Vec3.Min v <= Vec3.Max v.
Proof.
  unfold Vec3.Min, Vec3.Max.
  pose proof (Min3_lower (X v) (Y v) (Z v)); pose proof (Max3_upper (X v) (Y v) (Z v)); lra.
Qed.

Lemma Min_pos_iff (v : FVec3) : 0 < Vec3.Min v <-> PositiveComponents v.
Proof.
  unfold Vec3.Min, PositiveComponents; split.
  - pose proof (Min3_lower (X v) (Y v) (Z v)); lra.
  - destruct (Min3_attained (X v) (Y v) (Z v)) as [-> | [-> | ->]]; lra.
Qed.

Lemma Max_scale (k : R) (v : FVec3) :
  0 <= k -> Vec3.Max (Vec3.scale k v) = k * Vec3.Max v.
Proof.
  intros Hk; unfold Vec3.Max, Vec3.scale; simpl.
  apply (Max3_monotone (fun x => k * x)); intros; nra.
Qed.

Lemma Min_scale (k : R) (v : FVec3) :
  0 <= k -> Vec3.Min (Vec3.scale k v) = k * Vec3.Min v.
Proof.
  intros Hk; unfold Vec3.Min, Vec3.scale; simpl.
  apply (Min3_monotone (fun x => k * x)); intros; nra.
Qed.

(** Evaluates minima and maxima of explicit numbers. *)
Ltac eval_minmax :=
  unfold Vec3.Min, Vec3.Max, FMath.Min3, FMath.Max3, Rmin, Rmax; simpl;
  repeat destruct (Rle_dec _ _); try lra.

(** ** ConditionInertia *)

Section ConditionInertiaFacts.

Variable InI : FVec3.
Variable MaxRatio : R.

Let IMin := Vec3.Min InI.
Let IMax := Vec3.Max InI.

Hypothesis MaxRatio_ge_1 : 1 <= MaxRatio.
Hypothesis IMin_pos : 0 < IMin.
Hypothesis Ratio_large : MaxRatio < IMax / IMin.

Lemma spread_pos : 0 < IMax - IMin.
Proof.
  assert (H : MaxRatio * IMin < IMax).
  { apply (Rmult_lt_compat_r IMin) in Ratio_large; [| assumption].
    unfold Rdiv in Ratio_large.
    rewrite Rmult_assoc, Rinv_l, Rmult_1_r in Ratio_large by lra.
    assumption. }
  nra.
Qed.

Lemma floor_le_IMax : IMax / MaxRatio <= IMax.
Proof.
  pose proof spread_pos as Hs.
  assert (HM : 0 < IMax) by lra.
  apply (Rmult_le_reg_r MaxRatio); [lra |].
  unfold Rdiv; rewrite Rmult_assoc, Rinv_l, Rmult_1_r by lra.
  nra.
Qed.

Lemma Remap_monotone (x y : R) :
  x <= y -> RemapInertia IMin IMax MaxRatio x <= RemapInertia IMin IMax MaxRatio y.
Proof.
  intros Hxy; unfold RemapInertia, FMath.Lerp.
  pose proof spread_pos as Hs; pose proof floor_le_IMax as Hf.
  assert (Hinv : 0 < / (IMax - IMin)) by (apply Rinv_0_lt_compat; assumption).
  unfold Rdiv.
  assert ((x - IMin) * / (IMax - IMin) <= (y - IMin) * / (IMax - IMin)) by nra.
  nra.
Qed.

Lemma Remap_strictly_monotone (x y : R) :
  1 < MaxRatio -> x < y ->
  RemapInertia IMin IMax MaxRatio x < RemapInertia IMin IMax MaxRatio y.
Proof.
  intros Hr Hxy; unfold RemapInertia, FMath.Lerp.
  pose proof spread_pos as Hs.
  assert (HM : 0 < IMax) by lra.
  assert (Hf : IMax / MaxRatio < IMax).
  { apply (Rmult_lt_reg_r MaxRatio); [lra |].
    unfold Rdiv; rewrite Rmult_assoc, Rinv_l, Rmult_1_r by lra.
    nra. }
  assert (Hinv : 0 < / (IMax - IMin)) by (apply Rinv_0_lt_compat; assumption).
  unfold Rdiv in *.
  assert ((x - IMin) * / (IMax - IMin) < (y - IMin) * / (IMax - IMin)) by nra.
  nra.
Qed.

Lemma Remap_IMin : RemapInertia IMin IMax MaxRatio IMin = IMax / MaxRatio.
Proof. unfold RemapInertia, FMath.Lerp; field. pose proof spread_pos; lra. Qed.

Lemma Remap_IMax : RemapInertia IMin IMax MaxRatio IMax = IMax.
Proof. unfold RemapInertia, FMath.Lerp; field. pose proof spread_pos; lra. Qed.

Lemma ConditionInertia_components :
  ConditionInertia InI MaxRatio =
  mkVec3 (RemapInertia IMin IMax MaxRatio (X InI))
         (RemapInertia IMin IMax MaxRatio (Y InI))
         (RemapInertia IMin IMax MaxRatio (Z InI)).
Proof.
  unfold ConditionInertia; fold IMin IMax.
  rewrite (Rgtb_true MaxRatio 0), (Rgtb_true IMin 0) by lra; simpl.
  rewrite Rgtb_true by assumption.
  reflexivity.
Qed.

Lemma ConditionInertia_Max : Vec3.Max (ConditionInertia InI MaxRatio) = IMax.
Proof.
  rewrite ConditionInertia_components; unfold Vec3.Max at 1; simpl.
  rewrite (Max3_monotone (RemapInertia IMin IMax MaxRatio)) by apply Remap_monotone.
  apply Remap_IMax.
Qed.

Lemma ConditionInertia_Min :
  Vec3.Min (ConditionInertia InI MaxRatio) = IMax / MaxRatio.
Proof.
  rewrite ConditionInertia_components; unfold Vec3.Min at 1; simpl.
  rewrite (Min3_monotone (RemapInertia IMin IMax MaxRatio)) by apply Remap_monotone.
  apply Remap_IMin.
Qed.

End ConditionInertiaFacts.

Lemma ConditionInertia_unchanged (InI : FVec3) (MaxRatio : R) :
  ~ (0 < MaxRatio /\ 0 < Vec3.Min InI /\ MaxRatio < Vec3.Max InI / Vec3.Min InI) ->
  ConditionInertia InI MaxRatio = InI.
Proof.
  intros Hnot; unfold ConditionInertia.
  destruct (Rgtb_spec MaxRatio 0); simpl; [| reflexivity].
  destruct (Rgtb_spec (Vec3.Min InI) 0); simpl; [| reflexivity].
  destruct (Rgtb_spec (Vec3.Max InI / Vec3.Min InI) MaxRatio); [| reflexivity].
  elim Hnot; auto.
Qed.

(** C7, as the code has it, in exact arithmetic: for a maximum ratio of at
    least 1, a positive minimum component and a max/min ratio above the
    maximum ratio, the result has max/min ratio exactly [MaxRatio], the same
    maximum component, every component remapped linearly into the range from
    [max / MaxRatio] to [max], and the order of the components kept (strictly
    so when [MaxRatio] is above 1); and in every case where one of
    [MaxRatio > 0], [min > 0], [max / min > MaxRatio] fails, the result is the
    input. *)
Theorem ConditionInertia_remap (InI : FVec3) (MaxRatio : R) :
  (1 <= MaxRatio -> 0 < Vec3.Min InI -> MaxRatio < Vec3.Max InI / Vec3.Min InI ->
     let Out := ConditionInertia InI MaxRatio in
     Vec3.Max Out / Vec3.Min Out = MaxRatio /\
     Vec3.Max Out = Vec3.Max InI /\
     Vec3.Min Out = Vec3.Max InI / MaxRatio /\
     Out = mkVec3 (RemapInertia (Vec3.Min InI) (Vec3.Max InI) MaxRatio (X InI))
                  (RemapInertia (Vec3.Min InI) (Vec3.Max InI) MaxRatio (Y InI))
                  (RemapInertia (Vec3.Min InI) (Vec3.Max InI) MaxRatio (Z InI)) /\
     SameOrder InI Out /\
     (1 < MaxRatio -> SameStrictOrder InI Out)) /\
  (~ (0 < MaxRatio /\ 0 < Vec3.Min InI /\ MaxRatio < Vec3.Max InI / Vec3.Min InI) ->
     ConditionInertia InI MaxRatio = InI).
Proof.
  split; [| apply ConditionInertia_unchanged].
  intros Hr Hmin Hratio Out; subst Out.
  pose proof (spread_pos InI MaxRatio Hr Hmin Hratio) as Hs.
  pose proof (ConditionInertia_Max InI MaxRatio Hr Hmin Hratio) as HMax.
  pose proof (ConditionInertia_Min InI MaxRatio Hr Hmin Hratio) as HMin.
  pose proof (ConditionInertia_components InI MaxRatio Hr Hmin Hratio) as HOut.
  repeat split; try assumption.
  - rewrite HMax, HMin; field; lra.
  - rewrite HOut; simpl; apply Remap_monotone; assumption.
  - rewrite HOut; simpl; apply Remap_monotone; assumption.
  - rewrite HOut; simpl; apply Remap_monotone; assumption.
  - rewrite HOut; simpl; apply Remap_monotone; assumption.
  - rewrite HOut; simpl; apply Remap_monotone; assumption.
  - rewrite HOut; simpl; apply Remap_monotone; assumption.
  - rewrite HOut; simpl; apply Remap_strictly_monotone; assumption.
  - rewrite HOut; simpl; apply Remap_strictly_monotone; assumption.
  - rewrite HOut; simpl; apply Remap_strictly_monotone; assumption.
  - rewrite HOut; simpl; apply Remap_strictly_monotone; assumption.
  - rewrite HOut; simpl; apply Remap_strictly_monotone; assumption.
  - rewrite HOut; simpl; apply Remap_strictly_monotone; assumption.
Qed.

Lemma Min_1_1_100 : Vec3.Min (mkVec3 1 1 100) = 1.
Proof. eval_minmax. Qed.

Lemma Max_1_1_100 : Vec3.Max (mkVec3 1 1 100) = 100.
Proof. eval_minmax. Qed.

(** The specification's example: [(1, 1, 100)] under a maximum ratio of 10
    becomes [(10, 10, 100)], of ratio exactly 10. *)
Lemma ConditionInertia_remap_witness :
  ConditionInertia (mkVec3 1 1 100) 10 = mkVec3 10 10 100 /\
  Vec3.Max (ConditionInertia (mkVec3 1 1 100) 10)
    / Vec3.Min (ConditionInertia (mkVec3 1 1 100) 10) = 10.
Proof.
  destruct (ConditionInertia_remap (mkVec3 1 1 100) 10) as [H _].
  destruct H as (Hratio & _ & _ & Hout & _).
  - lra.
  - rewrite Min_1_1_100; lra.
  - rewrite Min_1_1_100, Max_1_1_100; lra.
  - split; [| exact Hratio].
    rewrite Hout, Min_1_1_100, Max_1_1_100.
    unfold RemapInertia, FMath.Lerp; simpl.
    apply vec_eq; simpl; field.
Defined.

Lemma ConditionInertia_1_1_2_half :
  ConditionInertia (mkVec3 1 1 2) (1 / 2) = mkVec3 4 4 2.
Proof.
  assert (Hmin : Vec3.Min (mkVec3 1 1 2) = 1) by eval_minmax.
  assert (Hmax : Vec3.Max (mkVec3 1 1 2) = 2) by eval_minmax.
  unfold ConditionInertia; rewrite Hmin, Hmax.
  rewrite (Rgtb_true (1 / 2) 0), (Rgtb_true 1 0) by lra; simpl.
  rewrite Rgtb_true by lra.
  unfold FMath.Lerp; apply vec_eq; simpl; field.
Qed.

(** For a maximum ratio below 1 the remapping goes the wrong way: [(1, 1, 2)] under a
    maximum ratio of 1/2 meets the three conditions and becomes [(4, 4, 2)],
    whose ratio is 2, whose maximum is no longer 2, and whose first and third
    components have changed order. *)
Lemma ConditionInertia_ratio_below_one :
  0 < 1 / 2 /\
  0 < Vec3.Min (mkVec3 1 1 2) /\
  1 / 2 < Vec3.Max (mkVec3 1 1 2) / Vec3.Min (mkVec3 1 1 2) /\
  ConditionInertia (mkVec3 1 1 2) (1 / 2) = mkVec3 4 4 2 /\
  Vec3.Max (ConditionInertia (mkVec3 1 1 2) (1 / 2))
    / Vec3.Min (ConditionInertia (mkVec3 1 1 2) (1 / 2)) <> 1 / 2 /\
  Vec3.Max (ConditionInertia (mkVec3 1 1 2) (1 / 2)) <> Vec3.Max (mkVec3 1 1 2) /\
  ~ SameOrder (mkVec3 1 1 2) (ConditionInertia (mkVec3 1 1 2) (1 / 2)).
Proof.
  assert (Hmin : Vec3.Min (mkVec3 1 1 2) = 1) by eval_minmax.
  assert (Hmax : Vec3.Max (mkVec3 1 1 2) = 2) by eval_minmax.
  pose proof ConditionInertia_1_1_2_half as Hout.
  assert (Hmin' : Vec3.Min (mkVec3 4 4 2) = 2) by eval_minmax.
  assert (Hmax' : Vec3.Max (mkVec3 4 4 2) = 4) by eval_minmax.
  rewrite Hout, Hmin, Hmax, Hmin', Hmax'.
  repeat split; try lra.
  intros (_ & _ & H & _); simpl in H; lra.
Qed.

(** ** The parent conditioners and the composite *)

Lemma Reciprocal_involutive (v : FVec3) :
  X v <> 0 -> Y v <> 0 -> Z v <> 0 -> Reciprocal (Reciprocal v) = v.
Proof.
  intros Hx Hy Hz; unfold Reciprocal; apply vec_eq; simpl; field; assumption.
Qed.

Lemma Reciprocal_positive (v : FVec3) :
  PositiveComponents v -> PositiveComponents (Reciprocal v).
Proof.
  intros (Hx & Hy & Hz); unfold PositiveComponents, Reciprocal; simpl.
  repeat split; apply Rdiv_lt_0_compat; lra.
Qed.

Lemma ratio_le_iff (a b r : R) : 0 < b -> a / b <= r <-> a <= r * b.
Proof.
  intros Hb; split; intros H.
  - apply (Rmult_le_compat_r b) in H; [| lra].
    unfold Rdiv in H; rewrite Rmult_assoc, Rinv_l, Rmult_1_r in H by lra; assumption.
  - apply (Rmult_le_reg_r b); [assumption |].
    unfold Rdiv; rewrite Rmult_assoc, Rinv_l, Rmult_1_r by lra; assumption.
Qed.

(** [ConditionInertia] establishes the anisotropy bound and keeps the
    maximum component. *)
Lemma ConditionInertia_bounded (I : FVec3) (MaxRatio : R) :
  1 <= MaxRatio -> PositiveComponents I ->
  InertiaRatioBounded (ConditionInertia I MaxRatio) MaxRatio /\
  Vec3.Max (ConditionInertia I MaxRatio) = Vec3.Max I.
Proof.
  intros Hr Hpos; apply Min_pos_iff in Hpos.
  destruct (Rlt_dec MaxRatio (Vec3.Max I / Vec3.Min I)) as [Hbig | Hsmall].
  - pose proof (spread_pos I MaxRatio Hr Hpos Hbig) as Hs.
    unfold InertiaRatioBounded.
    rewrite (ConditionInertia_Max I MaxRatio Hr Hpos Hbig),
      (ConditionInertia_Min I MaxRatio Hr Hpos Hbig).
    assert (HM : 0 < Vec3.Max I) by lra.
    repeat split.
    + apply Rdiv_lt_0_compat; lra.
    + right; field; lra.
  - rewrite ConditionInertia_unchanged by tauto.
    unfold InertiaRatioBounded; repeat split; [assumption | lra].
Qed.

(** Scaling by a positive factor keeps the anisotropy bound. *)
Lemma InertiaRatioBounded_scale (k : R) (I : FVec3) (MaxRatio : R) :
  0 < k -> InertiaRatioBounded I MaxRatio ->
  InertiaRatioBounded (Vec3.scale k I) MaxRatio.
Proof.
  intros Hk [Hmin Hratio]; unfold InertiaRatioBounded.
  rewrite Max_scale, Min_scale by lra.
  split; [nra |].
  apply ratio_le_iff in Hratio; [| assumption].
  apply ratio_le_iff; nra.
Qed.

Lemma ConditionParentInertia_cases (IParent IChild : FVec3) (MinRatio : R) :
  ConditionParentInertia IParent IChild MinRatio = IParent \/
  exists k, 0 < k /\ ConditionParentInertia IParent IChild MinRatio = Vec3.scale k IParent.
Proof.
  unfold ConditionParentInertia.
  destruct (Rgtb_spec MinRatio 0); [| auto].
  destruct (Rgtb_spec (Vec3.Max IParent) 0); simpl; [| auto].
  destruct (Rgtb_spec (Vec3.Max IChild) 0); simpl; [| auto].
  destruct (Rltb_spec (Vec3.Max IParent / Vec3.Max IChild) MinRatio); [| auto].
  right; eexists; split; [| reflexivity].
  apply Rdiv_lt_0_compat; [assumption |].
  apply Rdiv_lt_0_compat; assumption.
Qed.

Lemma ConditionParentInertia_ratio (IParent IChild : FVec3) (MinRatio : R) :
  0 < MinRatio -> 0 < Vec3.Max IParent -> 0 < Vec3.Max IChild ->
  MinRatio <= Vec3.Max (ConditionParentInertia IParent IChild MinRatio) / Vec3.Max IChild.
Proof.
  intros Hr HP HC; unfold ConditionParentInertia.
  rewrite (Rgtb_true MinRatio 0), (Rgtb_true (Vec3.Max IParent) 0),
    (Rgtb_true (Vec3.Max IChild) 0) by assumption; simpl.
  destruct (Rltb_spec (Vec3.Max IParent / Vec3.Max IChild) MinRatio) as [Hlt | Hge].
  - rewrite Max_scale.
    + right; field; lra.
    + left; apply Rdiv_lt_0_compat; [assumption |].
      apply Rdiv_lt_0_compat; assumption.
  - lra.
Qed.

Lemma ConditionParentMass_ratio (MParent MChild MinRatio : R) :
  0 < MinRatio -> 0 < MParent -> 0 < MChild ->
  0 < ConditionParentMass MParent MChild MinRatio /\
  MinRatio <= ConditionParentMass MParent MChild MinRatio / MChild.
Proof.
  intros Hr HP HC; unfold ConditionParentMass.
  rewrite (Rgtb_true MinRatio 0), (Rgtb_true MParent 0), (Rgtb_true MChild 0)
    by assumption; simpl.
  destruct (Rltb_spec (MParent / MChild) MinRatio) as [Hlt | Hge].
  - assert (Heq : MParent * (MinRatio / (MParent / MChild)) = MinRatio * MChild)
      by (field; lra).
    rewrite Heq; split; [nra |].
    right; field; lra.
  - split; [assumption | lra].
Qed.

Lemma ConditionParentMass_example : ConditionParentMass 1 100 (1 / 2) = 50.
Proof.
  unfold ConditionParentMass.
  rewrite (Rgtb_true (1 / 2) 0), (Rgtb_true 1 0), (Rgtb_true 100 0) by lra; simpl.
  rewrite Rltb_true by lra.
  field.
Qed.

(** The values on return, branch by branch. *)
Lemma Condition_parent_dynamic (In : FInvMassInertia) (MinRatio MaxRatio : R) :
  0 < InvMParent In -> InvMChild In <= 0 ->
  ConditionInverseMassAndInertia In MinRatio MaxRatio =
  mkInvMassInertia (1 / (1 / InvMParent In)) (InvMChild In)
    (Reciprocal (ConditionInertia (Reciprocal (InvIParent In)) MaxRatio))
    (InvIChild In).
Proof.
  intros HP HC; unfold ConditionInverseMassAndInertia.
  rewrite (Rgtb_true (InvMParent In) 0), (Rgtb_false (InvMChild In) 0) by assumption.
  reflexivity.
Qed.

Lemma Condition_child_dynamic (In : FInvMassInertia) (MinRatio MaxRatio : R) :
  InvMParent In <= 0 -> 0 < InvMChild In ->
  ConditionInverseMassAndInertia In MinRatio MaxRatio =
  mkInvMassInertia (InvMParent In) (1 / (1 / InvMChild In)) (InvIParent In)
    (Reciprocal (ConditionInertia (Reciprocal (InvIChild In)) MaxRatio)).
Proof.
  intros HP HC; unfold ConditionInverseMassAndInertia.
  rewrite (Rgtb_false (InvMParent In) 0), (Rgtb_true (InvMChild In) 0) by assumption.
  reflexivity.
Qed.

Lemma Condition_none_dynamic (In : FInvMassInertia) (MinRatio MaxRatio : R) :
  InvMParent In <= 0 -> InvMChild In <= 0 ->
  ConditionInverseMassAndInertia In MinRatio MaxRatio = In.
Proof.
  intros HP HC; unfold ConditionInverseMassAndInertia.
  rewrite (Rgtb_false (InvMParent In) 0), (Rgtb_false (InvMChild In) 0) by assumption.
  destruct In; reflexivity.
Qed.

Lemma Condition_both_dynamic (In : FInvMassInertia) (MinRatio MaxRatio : R) :
  0 < InvMParent In -> 0 < InvMChild In ->
  ConditionInverseMassAndInertia In MinRatio MaxRatio =
  mkInvMassInertia
    (1 / ConditionParentMass (1 / InvMParent In) (1 / InvMChild In) MinRatio)
    (1 / (1 / InvMChild In))
    (Reciprocal
       (ConditionParentInertia
          (ConditionInertia (Reciprocal (InvIParent In)) MaxRatio)
          (ConditionInertia (Reciprocal (InvIChild In)) MaxRatio) MinRatio))
    (Reciprocal (ConditionInertia (Reciprocal (InvIChild In)) MaxRatio)).
Proof.
  intros HP HC; unfold ConditionInverseMassAndInertia.
  rewrite (Rgtb_true (InvMParent In) 0), (Rgtb_true (InvMChild In) 0) by assumption.
  reflexivity.
Qed.

Lemma Reciprocal_twice_bounded (I : FVec3) (MaxRatio : R) :
  InertiaRatioBounded I MaxRatio -> Reciprocal (Reciprocal I) = I.
Proof.
  intros [Hmin _]; apply Min_pos_iff in Hmin; destruct Hmin as (Hx & Hy & Hz).
  apply Reciprocal_involutive; lra.
Qed.

Lemma Max_pos_of_bounded (I : FVec3) (MaxRatio : R) :
  InertiaRatioBounded I MaxRatio -> 0 < Vec3.Max I.
Proof. intros [Hmin _]; pose proof (Min_le_Max I); lra. Qed.

(** The parent's conditioned inertia keeps the anisotropy bound through the
    cross-body scaling. *)
Lemma parent_inertia_bounded (IParent IChild : FVec3) (MinRatio MaxRatio : R) :
  InertiaRatioBounded IParent MaxRatio ->
  InertiaRatioBounded (ConditionParentInertia IParent IChild MinRatio) MaxRatio.
Proof.
  intros Hb.
  destruct (ConditionParentInertia_cases IParent IChild MinRatio) as [-> | (k & Hk & ->)].
  - assumption.
  - apply InertiaRatioBounded_scale; assumption.
Qed.

(** C8, as the code has it, in exact arithmetic: with a positive minimum
    parent ratio, a maximum inertia ratio of at least 1 and positive inverse
    inertia components, on return the direct inertia of each body of positive
    inverse mass has a max/min ratio of at most [MaxRatio]; when both bodies
    are dynamic the parent/child ratio of direct masses and the parent/child
    ratio of maximum direct inertia components are both at least [MinRatio];
    and [ConditionParentMass 1 100 (1/2)] is the parent mass whose ratio to
    100 is exactly 1/2. *)
Theorem conditioning_invariant (In : FInvMassInertia) (MinRatio MaxRatio : R) :
  0 < MinRatio -> 1 <= MaxRatio ->
  let Out := ConditionInverseMassAndInertia In MinRatio MaxRatio in
  (0 < InvMParent In -> PositiveComponents (InvIParent In) ->
     InertiaRatioBounded (Reciprocal (InvIParent Out)) MaxRatio) /\
  (0 < InvMChild In -> PositiveComponents (InvIChild In) ->
     InertiaRatioBounded (Reciprocal (InvIChild Out)) MaxRatio) /\
  (0 < InvMParent In -> 0 < InvMChild In ->
     MinRatio <= (1 / InvMParent Out) / (1 / InvMChild Out)) /\
  (0 < InvMParent In -> 0 < InvMChild In ->
     PositiveComponents (InvIParent In) -> PositiveComponents (InvIChild In) ->
     MinRatio <= Vec3.Max (Reciprocal (InvIParent Out))
                 / Vec3.Max (Reciprocal (InvIChild Out))) /\
  ConditionParentMass 1 100 (1 / 2) / 100 = 1 / 2.
Proof.
  intros Hmin Hmax Out.
  assert (HbP : PositiveComponents (InvIParent In) ->
                InertiaRatioBounded
                  (ConditionInertia (Reciprocal (InvIParent In)) MaxRatio) MaxRatio).
  { intros Hpos; apply ConditionInertia_bounded; [assumption |].
    apply Reciprocal_positive; assumption. }
  assert (HbC : PositiveComponents (InvIChild In) ->
                InertiaRatioBounded
                  (ConditionInertia (Reciprocal (InvIChild In)) MaxRatio) MaxRatio).
  { intros Hpos; apply ConditionInertia_bounded; [assumption |].
    apply Reciprocal_positive; assumption. }
  split; [| split; [| split; [| split]]].
  - (* the parent's anisotropy *)
    intros HP Hpos; subst Out.
    destruct (Rlt_dec 0 (InvMChild In)) as [HC | HC].
    + rewrite Condition_both_dynamic by assumption; simpl.
      pose proof (parent_inertia_bounded _
        (ConditionInertia (Reciprocal (InvIChild In)) MaxRatio) MinRatio _ (HbP Hpos))
        as Hb.
      rewrite (Reciprocal_twice_bounded _ _ Hb); exact Hb.
    + rewrite Condition_parent_dynamic by lra; simpl.
      rewrite (Reciprocal_twice_bounded _ _ (HbP Hpos)); exact (HbP Hpos).
  - (* the child's anisotropy *)
    intros HC Hpos; subst Out.
    destruct (Rlt_dec 0 (InvMParent In)) as [HP | HP].
    + rewrite Condition_both_dynamic by assumption; simpl.
      rewrite (Reciprocal_twice_bounded _ _ (HbC Hpos)); exact (HbC Hpos).
    + rewrite Condition_child_dynamic by lra; simpl.
      rewrite (Reciprocal_twice_bounded _ _ (HbC Hpos)); exact (HbC Hpos).
  - (* the mass ratio *)
    intros HP HC; subst Out.
    rewrite Condition_both_dynamic by assumption; simpl.
    assert (HMP : 0 < 1 / InvMParent In) by (apply Rdiv_lt_0_compat; lra).
    assert (HMC : 0 < 1 / InvMChild In) by (apply Rdiv_lt_0_compat; lra).
    destruct (ConditionParentMass_ratio _ _ _ Hmin HMP HMC) as [Hpos Hratio].
    replace (1 / (1 / ConditionParentMass (1 / InvMParent In) (1 / InvMChild In) MinRatio))
      with (ConditionParentMass (1 / InvMParent In) (1 / InvMChild In) MinRatio)
      by (field; lra).
    replace (1 / (1 / (1 / InvMChild In))) with (1 / InvMChild In) by (field; lra).
    exact Hratio.
  - (* the inertia ratio *)
    intros HP HC HposP HposC; subst Out.
    rewrite Condition_both_dynamic by assumption; simpl.
    pose proof (parent_inertia_bounded _
      (ConditionInertia (Reciprocal (InvIChild In)) MaxRatio) MinRatio _ (HbP HposP))
      as Hb.
    rewrite (Reciprocal_twice_bounded _ _ Hb),
      (Reciprocal_twice_bounded _ _ (HbC HposC)).
    apply ConditionParentInertia_ratio; [assumption | |].
    + apply (Max_pos_of_bounded _ MaxRatio); auto.
    + apply (Max_pos_of_bounded _ MaxRatio); auto.
  - rewrite ConditionParentMass_example; field.
Qed.

Lemma LightParentHeavyChild_positive :
  PositiveComponents (InvIParent LightParentHeavyChild) /\
  PositiveComponents (InvIChild LightParentHeavyChild).
Proof. unfold PositiveComponents; simpl; repeat split; lra. Qed.

(** The invariant on a parent of mass 1 and a child of mass 100, with a
    minimum parent ratio of 1/2 and a maximum inertia ratio of 10. *)
Lemma conditioning_invariant_witness :
  let Out := ConditionInverseMassAndInertia LightParentHeavyChild (1 / 2) 10 in
  InertiaRatioBounded (Reciprocal (InvIParent Out)) 10 /\
  InertiaRatioBounded (Reciprocal (InvIChild Out)) 10 /\
  1 / 2 <= (1 / InvMParent Out) / (1 / InvMChild Out) /\
  1 / 2 <= Vec3.Max (Reciprocal (InvIParent Out)) / Vec3.Max (Reciprocal (InvIChild Out)).
Proof.
  intros Out.
  destruct LightParentHeavyChild_positive as [HposP HposC].
  assert (HP : 0 < InvMParent LightParentHeavyChild) by (simpl; lra).
  assert (HC : 0 < InvMChild LightParentHeavyChild) by (simpl; lra).
  destruct (conditioning_invariant LightParentHeavyChild (1 / 2) 10)
    as (H1 & H2 & H3 & H4 & _); [lra | lra |].
  split; [| split; [| split]].
  - apply H1; assumption.
  - apply H2; assumption.
  - apply H3; assumption.
  - apply H4; assumption.
Defined.

(** For a maximum inertia ratio below 1 the bound cannot be met: a dynamic
    parent of direct inertia [(1, 1, 2)], conditioned with the positive
    ratios 1 and 1/2, returns the inverse inertia [(1/4, 1/4, 1/2)], a direct
    inertia [(4, 4, 2)] of max/min ratio 2, above 1/2. *)
Lemma conditioning_ratio_below_one :
  0 < 1 /\ 0 < 1 / 2 /\ 0 < InvMParent LoneParent /\
  InvIParent (ConditionInverseMassAndInertia LoneParent 1 (1 / 2))
    = mkVec3 (1 / 4) (1 / 4) (1 / 2) /\
  Vec3.Max (Reciprocal (InvIParent (ConditionInverseMassAndInertia LoneParent 1 (1 / 2))))
    / Vec3.Min (Reciprocal (InvIParent (ConditionInverseMassAndInertia LoneParent 1 (1 / 2))))
    = 2 /\
  ~ Vec3.Max (Reciprocal (InvIParent (ConditionInverseMassAndInertia LoneParent 1 (1 / 2))))
    / Vec3.Min (Reciprocal (InvIParent (ConditionInverseMassAndInertia LoneParent 1 (1 / 2))))
    <= 1 / 2.
Proof.
  assert (Hin : Reciprocal (InvIParent LoneParent) = mkVec3 1 1 2).
  { unfold Reciprocal; apply vec_eq; simpl; field. }
  assert (Hout : InvIParent (ConditionInverseMassAndInertia LoneParent 1 (1 / 2))
                 = mkVec3 (1 / 4) (1 / 4) (1 / 2)).
  { rewrite Condition_parent_dynamic by (simpl; lra); cbn [InvIParent].
    rewrite Hin.
    rewrite ConditionInertia_1_1_2_half.
    unfold Reciprocal; apply vec_eq; simpl; field. }
  assert (Hdirect : Reciprocal (mkVec3 (1 / 4) (1 / 4) (1 / 2)) = mkVec3 4 4 2).
  { unfold Reciprocal; apply vec_eq; simpl; field. }
  assert (Hmin : Vec3.Min (mkVec3 4 4 2) = 2) by eval_minmax.
  assert (Hmax : Vec3.Max (mkVec3 4 4 2) = 4) by eval_minmax.
  rewrite Hout, Hdirect, Hmin, Hmax; simpl.
  repeat split; lra.
Qed.

(** C10: a child of positive inverse mass gets its inverse mass back
    unchanged, and its inverse inertia depends on neither the parent nor the
    minimum parent ratio (the cross-body step writes the parent only); and a
    body of non-positive inverse mass keeps its inverse mass and its inverse
    inertia. *)
Theorem conditioning_frame (In : FInvMassInertia) (MinRatio MaxRatio : R) :
  let Out := ConditionInverseMassAndInertia In MinRatio MaxRatio in
  (0 < InvMChild In ->
     InvMChild Out = InvMChild In /\
     InvIChild Out = Reciprocal (ConditionInertia (Reciprocal (InvIChild In)) MaxRatio)) /\
  (InvMChild In <= 0 ->
     InvMChild Out = InvMChild In /\ InvIChild Out = InvIChild In) /\
  (InvMParent In <= 0 ->
     InvMParent Out = InvMParent In /\ InvIParent Out = InvIParent In).
Proof.
  intros Out; subst Out.
  split; [| split]; intros H; split; revert H.
  - intros HC; destruct (Rlt_dec 0 (InvMParent In)) as [HP | HP].
    + rewrite Condition_both_dynamic by assumption; simpl; field; lra.
    + rewrite Condition_child_dynamic by lra; simpl; field; lra.
  - intros HC; destruct (Rlt_dec 0 (InvMParent In)) as [HP | HP].
    + rewrite Condition_both_dynamic by assumption; reflexivity.
    + rewrite Condition_child_dynamic by lra; reflexivity.
  - intros HC; destruct (Rlt_dec 0 (InvMParent In)) as [HP | HP].
    + rewrite Condition_parent_dynamic by assumption; reflexivity.
    + rewrite Condition_none_dynamic by lra; reflexivity.
  - intros HC; destruct (Rlt_dec 0 (InvMParent In)) as [HP | HP].
    + rewrite Condition_parent_dynamic by assumption; reflexivity.
    + rewrite Condition_none_dynamic by lra; reflexivity.
  - intros HP; destruct (Rlt_dec 0 (InvMChild In)) as [HC | HC].
    + rewrite Condition_child_dynamic by assumption; reflexivity.
    + rewrite Condition_none_dynamic by lra; reflexivity.
  - intros HP; destruct (Rlt_dec 0 (InvMChild In)) as [HC | HC].
    + rewrite Condition_child_dynamic by assumption; reflexivity.
    + rewrite Condition_none_dynamic by lra; reflexivity.
Qed.

(** The frame on a light parent and a heavy child, and on a kinematic child. *)
Lemma conditioning_frame_witness :
  InvMChild (ConditionInverseMassAndInertia LightParentHeavyChild (1 / 2) 10) = 1 / 100 /\
  InvMChild (ConditionInverseMassAndInertia LoneParent (1 / 2) 10) = 0 /\
  InvIChild (ConditionInverseMassAndInertia LoneParent (1 / 2) 10) = mkVec3 1 1 1.
Proof.
  destruct (conditioning_frame LightParentHeavyChild (1 / 2) 10) as [H1 _].
  destruct (conditioning_frame LoneParent (1 / 2) 10) as (_ & H2 & _).
  destruct H1 as [H1 _]; [simpl; lra |].
  destruct H2 as [H2 H3]; [simpl; lra |].
  repeat split; assumption.
Defined.

(** ** Vector algebra *)

Lemma SizeSquared_nonneg (v : FVec3) : 0 <= Vec3.SizeSquared v.
Proof. unfold Vec3.SizeSquared; nra. Qed.

Lemma Size_nonneg (v : FVec3) : 0 <= Vec3.Size v.
Proof. unfold Vec3.Size; apply sqrt_pos. Qed.

Lemma Size_scale (k : R) (v : FVec3) :
  Vec3.Size (Vec3.scale k v) = Rabs k * Vec3.Size v.
Proof.
  unfold Vec3.Size.
  replace (Vec3.SizeSquared (Vec3.scale k v)) with (k * k * Vec3.SizeSquared v)
    by (unfold Vec3.SizeSquared, Vec3.scale; simpl; ring).
  rewrite sqrt_mult; [| nra | apply SizeSquared_nonneg].
  f_equal; replace (k * k) with (k²) by reflexivity; apply sqrt_Rsqr_abs.
Qed.

Lemma Size_zero_inv (v : FVec3) : Vec3.Size v = 0 -> v = mkVec3 0 0 0.
Proof.
  unfold Vec3.Size; intros H.
  apply sqrt_eq_0 in H; [| apply SizeSquared_nonneg].
  unfold Vec3.SizeSquared in H.
  apply vec_eq; simpl; nra.
Qed.

Lemma Size_along_X (a : R) : 0 <= a -> Vec3.Size (mkVec3 a 0 0) = a.
Proof.
  intros Ha; unfold Vec3.Size, Vec3.SizeSquared; simpl.
  replace (a * a + 0 * 0 + 0 * 0) with (a * a) by ring.
  apply sqrt_square; assumption.
Qed.

(** A vector minus [Radius] times its direction is the vector scaled. *)
Lemma clip_is_scale (v : FVec3) (Radius : R) :
  Vec3.sub v (Vec3.scale Radius (Vec3.div v (Vec3.Size v)))
  = Vec3.scale (1 - Radius / Vec3.Size v) v.
Proof. apply vec_eq; simpl; unfold Rdiv; ring. Qed.

Lemma DotProduct_sub_scale (a b c : FVec3) (k : R) :
  Vec3.DotProduct (Vec3.sub a (Vec3.scale k b)) c
  = Vec3.DotProduct a c - k * Vec3.DotProduct b c.
Proof. unfold Vec3.DotProduct; simpl; ring. Qed.

Lemma DotProduct_add_scale (a b c : FVec3) (k : R) :
  Vec3.DotProduct (Vec3.add a (Vec3.scale k b)) c
  = Vec3.DotProduct a c + k * Vec3.DotProduct b c.
Proof. unfold Vec3.DotProduct; simpl; ring. Qed.

Lemma DotProduct_add_l (a b c : FVec3) :
  Vec3.DotProduct (Vec3.add a b) c = Vec3.DotProduct a c + Vec3.DotProduct b c.
Proof. unfold Vec3.DotProduct; simpl; ring. Qed.

Lemma DotProduct_zero_l (c : FVec3) : Vec3.DotProduct (mkVec3 0 0 0) c = 0.
Proof. unfold Vec3.DotProduct; simpl; ring. Qed.

(** ** The spherical limit *)

Lemma Sphere_inside (CX : FVec3) (Radius : R) :
  Vec3.Size CX < Radius -> GetSphereLimitedPositionError CX Radius = mkVec3 0 0 0.
Proof.
  intros H; unfold GetSphereLimitedPositionError.
  rewrite Rltb_true by assumption; reflexivity.
Qed.

Lemma Sphere_outside (CX : FVec3) (Radius : R) :
  Radius <= Vec3.Size CX -> SMALL_NUMBER < Vec3.Size CX ->
  GetSphereLimitedPositionError CX Radius
  = Vec3.scale (1 - Radius / Vec3.Size CX) CX.
Proof.
  intros HR Hs; unfold GetSphereLimitedPositionError.
  rewrite Rltb_false, Rgtb_true by assumption.
  apply clip_is_scale.
Qed.

Lemma Sphere_degenerate (CX : FVec3) (Radius : R) :
  Radius <= Vec3.Size CX -> Vec3.Size CX <= SMALL_NUMBER ->
  GetSphereLimitedPositionError CX Radius = CX.
Proof.
  intros HR Hs; unfold GetSphereLimitedPositionError.
  rewrite Rltb_false, Rgtb_false by assumption; reflexivity.
Qed.

(** C5, as the code has it: an error shorter than the limit gives the zero
    vector; an error no shorter than the limit and longer than the
    small-magnitude threshold gives the error less the limit times its own
    direction, [CX - Limit * (CX / |CX|)]; in exact arithmetic that is, for
    an error of length [limit + d] with [d > 0], the error scaled by the
    positive factor [d / |CX|], a vector of length exactly [d] along [CX];
    an error no shorter than the limit and within the threshold is returned
    as it is; and a zero-length error gives the zero vector. *)
Theorem SphereLimitedPositionError_radial (CX : FVec3) (Limit : R) :
  (Vec3.Size CX < Limit ->
     GetSphereLimitedPositionError CX Limit = mkVec3 0 0 0) /\
  (Limit <= Vec3.Size CX -> SMALL_NUMBER < Vec3.Size CX ->
     GetSphereLimitedPositionError CX Limit
     = Vec3.sub CX (Vec3.scale Limit (Vec3.div CX (Vec3.Size CX)))) /\
  (forall d : R, 0 < d -> Vec3.Size CX = Limit + d -> SMALL_NUMBER < Vec3.Size CX ->
     Vec3.Size (GetSphereLimitedPositionError CX Limit) = d /\
     0 < d / Vec3.Size CX /\
     GetSphereLimitedPositionError CX Limit = Vec3.scale (d / Vec3.Size CX) CX) /\
  (Limit <= Vec3.Size CX -> Vec3.Size CX <= SMALL_NUMBER ->
     GetSphereLimitedPositionError CX Limit = CX) /\
  (Vec3.Size CX = 0 -> GetSphereLimitedPositionError CX Limit = mkVec3 0 0 0).
Proof.
  split; [apply Sphere_inside |].
  split.
  { intros HR Hbig; rewrite Sphere_outside by assumption.
    symmetry; apply clip_is_scale. }
  split; [| split; [apply Sphere_degenerate |]].
  - intros d Hd Hlen Hbig.
    pose proof SMALL_NUMBER_pos as Hsmall.
    assert (Hpos : 0 < Vec3.Size CX) by lra.
    assert (Hk : 1 - Limit / Vec3.Size CX = d / Vec3.Size CX) by (field_simplify_eq; lra).
    rewrite Sphere_outside by lra.
    rewrite Hk.
    assert (Hfac : 0 < d / Vec3.Size CX) by (apply Rdiv_lt_0_compat; assumption).
    repeat split; try assumption.
    rewrite Size_scale, Rabs_pos_eq by lra.
    field; lra.
  - intros Hzero.
    destruct (Rlt_dec (Vec3.Size CX) Limit) as [Hin | Hout].
    + apply Sphere_inside; assumption.
    + pose proof SMALL_NUMBER_pos as Hsmall.
      rewrite Sphere_degenerate by lra.
      apply Size_zero_inv; assumption.
Qed.

(** An error of length 5 under a limit of 2 leaves the excess 3 along the
    error's own direction. *)
Lemma SphereLimitedPositionError_radial_witness :
  Vec3.Size (GetSphereLimitedPositionError (mkVec3 5 0 0) 2) = 3 /\
  GetSphereLimitedPositionError (mkVec3 5 0 0) 2
  = Vec3.scale (3 / Vec3.Size (mkVec3 5 0 0)) (mkVec3 5 0 0).
Proof.
  assert (Hsize : Vec3.Size (mkVec3 5 0 0) = 5) by (apply Size_along_X; lra).
  destruct (SphereLimitedPositionError_radial (mkVec3 5 0 0) 2) as (_ & _ & H & _).
  destruct (H 3) as (Hlen & _ & Hdir).
  - lra.
  - rewrite Hsize; lra.
  - rewrite Hsize; unfold SMALL_NUMBER; lra.
  - split; assumption.
Defined.

(** Within the small-magnitude threshold nothing is clipped: the error
    [(5e-9, 0, 0)] under the limit [1e-9] has length [limit + 4e-9], and the
    result is the error itself, of length [5e-9] and not [4e-9]. *)
Lemma Sphere_tiny_error_not_clipped :
  0 < 4 / 1000000000 /\
  Vec3.Size (mkVec3 (5 / 1000000000) 0 0) = 1 / 1000000000 + 4 / 1000000000 /\
  GetSphereLimitedPositionError (mkVec3 (5 / 1000000000) 0 0) (1 / 1000000000)
  = mkVec3 (5 / 1000000000) 0 0 /\
  Vec3.Size (GetSphereLimitedPositionError (mkVec3 (5 / 1000000000) 0 0) (1 / 1000000000))
  <> 4 / 1000000000.
Proof.
  assert (Hsize : Vec3.Size (mkVec3 (5 / 1000000000) 0 0) = 5 / 1000000000)
    by (apply Size_along_X; lra).
  assert (Hout : GetSphereLimitedPositionError (mkVec3 (5 / 1000000000) 0 0)
                   (1 / 1000000000) = mkVec3 (5 / 1000000000) 0 0).
  { apply Sphere_degenerate; rewrite Hsize; unfold SMALL_NUMBER; lra. }
  rewrite Hout, Hsize.
  repeat split; lra.
Qed.

(** ** The frame axes of a unit quaternion *)

Section FrameAxes.

Variable R0 : Quat.FRotation3.
Hypothesis R0_unit : Quat.IsNormalized R0.

Let AxisX := Quat.RotateVector R0 (mkVec3 1 0 0).
Let AxisY := Quat.RotateVector R0 (mkVec3 0 1 0).
Let AxisZ := Quat.RotateVector R0 (mkVec3 0 0 1).

(** Every dot product of two rotated basis vectors differs from its value
    on the basis by a multiple of [|R0|² - 1]. *)
Ltac frame_dot P :=
  unfold AxisX, AxisY, AxisZ, Vec3.DotProduct, Quat.RotateVector; simpl;
  match goal with
  | |- ?lhs = ?c =>
      replace lhs with (c + (Quat.SizeSquared R0 - 1) * P)
        by (unfold Quat.SizeSquared; ring)
  end;
  rewrite R0_unit; ring.

Lemma AxisX_unit : Vec3.DotProduct AxisX AxisX = 1.
Proof.
  frame_dot (4 * (Quat.Y R0 * Quat.Y R0 + Quat.Z R0 * Quat.Z R0)).
Qed.

Lemma AxisY_unit : Vec3.DotProduct AxisY AxisY = 1.
Proof.
  frame_dot (4 * (Quat.X R0 * Quat.X R0 + Quat.Z R0 * Quat.Z R0)).
Qed.

Lemma AxisZ_unit : Vec3.DotProduct AxisZ AxisZ = 1.
Proof.
  frame_dot (4 * (Quat.X R0 * Quat.X R0 + Quat.Y R0 * Quat.Y R0)).
Qed.

Lemma AxisX_AxisY : Vec3.DotProduct AxisX AxisY = 0.
Proof. frame_dot (- (4 * (Quat.X R0 * Quat.Y R0))). Qed.

Lemma AxisX_AxisZ : Vec3.DotProduct AxisX AxisZ = 0.
Proof. frame_dot (- (4 * (Quat.X R0 * Quat.Z R0))). Qed.

Lemma AxisY_AxisZ : Vec3.DotProduct AxisY AxisZ = 0.
Proof. frame_dot (- (4 * (Quat.Y R0 * Quat.Z R0))). Qed.

End FrameAxes.

Lemma DotProduct_comm (a b : FVec3) : Vec3.DotProduct a b = Vec3.DotProduct b a.
Proof. unfold Vec3.DotProduct; ring. Qed.

Lemma DotProduct_div_l (a c : FVec3) (k : R) :
  Vec3.DotProduct (Vec3.div a k) c = Vec3.DotProduct a c / k.
Proof. unfold Vec3.DotProduct; simpl; unfold Rdiv; ring. Qed.

(** ** The line and cylinder limits against a free axis *)

Lemma Line_free_perp (CX Axis : FVec3) (Limit : R) :
  Vec3.DotProduct Axis Axis = 1 ->
  Vec3.DotProduct (GetLineLimitedPositionError CX Axis Limit Free) Axis = 0.
Proof.
  intros Hunit; unfold GetLineLimitedPositionError; cbn [motion_eqb orb].
  rewrite DotProduct_sub_scale, Hunit; ring.
Qed.

Lemma Line_keeps_perp (CX Axis Other : FVec3) (Limit : R) (AxisMotion : EJointMotionType) :
  Vec3.DotProduct CX Other = 0 -> Vec3.DotProduct Axis Other = 0 ->
  Vec3.DotProduct (GetLineLimitedPositionError CX Axis Limit AxisMotion) Other = 0.
Proof.
  intros HCX HAxis; unfold GetLineLimitedPositionError.
  destruct (motion_eqb AxisMotion Free || (Rabs (Vec3.DotProduct CX Axis) <? Limit)).
  - rewrite DotProduct_sub_scale, HCX, HAxis; ring.
  - destruct (Vec3.DotProduct CX Axis >=? Limit).
    + rewrite DotProduct_sub_scale, HCX, HAxis; ring.
    + rewrite DotProduct_add_scale, HCX, HAxis; ring.
Qed.

Lemma Cylinder_free_perp (InCX Axis : FVec3) (Limit : R) :
  Vec3.DotProduct Axis Axis = 1 ->
  Vec3.DotProduct (GetCylinderLimitedPositionError InCX Axis Limit Free) Axis = 0.
Proof.
  intros Hunit; unfold GetCylinderLimitedPositionError; cbn [motion_eqb].
  set (CXPlane := Vec3.sub InCX (Vec3.scale (Vec3.DotProduct InCX Axis) Axis)).
  assert (Hplane : Vec3.DotProduct CXPlane Axis = 0).
  { unfold CXPlane; rewrite DotProduct_sub_scale, Hunit; ring. }
  rewrite DotProduct_add_l, DotProduct_zero_l.
  destruct (Vec3.Size CXPlane <? Limit).
  - rewrite DotProduct_zero_l; ring.
  - destruct (Vec3.Size CXPlane >? KINDA_SMALL_NUMBER).
    + rewrite DotProduct_sub_scale, DotProduct_div_l, Hplane; unfold Rdiv; ring.
    + rewrite Hplane; ring.
Qed.

Lemma Sphere_zero_limit (CX : FVec3) : GetSphereLimitedPositionError CX 0 = CX.
Proof.
  unfold GetSphereLimitedPositionError.
  rewrite Rltb_false by apply Size_nonneg.
  destruct (Vec3.Size CX >? SMALL_NUMBER); [| reflexivity].
  apply vec_eq; simpl; ring.
Qed.

(** Closes a goal [DotProduct (...) Axis = 0] over nested line limits and a
    cylinder limit, given the frame lemmas of the unit quaternion [Hunit]. *)
Ltac free_axis_perp Hunit :=
  repeat first
    [ apply Line_free_perp
    | apply Cylinder_free_perp
    | apply Line_keeps_perp
    | exact (AxisX_unit _ Hunit) | exact (AxisY_unit _ Hunit) | exact (AxisZ_unit _ Hunit)
    | exact (AxisX_AxisY _ Hunit) | exact (AxisX_AxisZ _ Hunit) | exact (AxisY_AxisZ _ Hunit)
    | rewrite DotProduct_comm; exact (AxisX_AxisY _ Hunit)
    | rewrite DotProduct_comm; exact (AxisX_AxisZ _ Hunit)
    | rewrite DotProduct_comm; exact (AxisY_AxisZ _ Hunit) ].

(** C6: with all three effective motion types (a soft limited axis counting
    as free) locked, the result is the input error; with all three limited
    and a limit of 0, the result is the input error; and for a unit
    quaternion [R0], the result has no component along the world axis
    [R0 * e] of any axis whose effective motion type is free. *)
Theorem LimitedPositionError_shapes
    (J : JointSettings.FPBDJointSettings) (R0 : Quat.FRotation3) (CX : FVec3) :
  let Motion := EffectiveMotion J in
  let Out := GetLimitedPositionError J R0 CX in
  (at0 Motion = Locked -> at1 Motion = Locked -> at2 Motion = Locked -> Out = CX) /\
  (at0 Motion = Limited -> at1 Motion = Limited -> at2 Motion = Limited ->
     JointSettings.LinearLimit J = 0 -> Out = CX) /\
  (Quat.IsNormalized R0 ->
     (at0 Motion = Free ->
        Vec3.DotProduct Out (Quat.RotateVector R0 (mkVec3 1 0 0)) = 0) /\
     (at1 Motion = Free ->
        Vec3.DotProduct Out (Quat.RotateVector R0 (mkVec3 0 1 0)) = 0) /\
     (at2 Motion = Free ->
        Vec3.DotProduct Out (Quat.RotateVector R0 (mkVec3 0 0 1)) = 0)).
Proof.
  intros Motion Out; subst Motion Out; unfold GetLimitedPositionError; cbv zeta.
  generalize (JointSettings.LinearLimit J); intros Limit.
  destruct (EffectiveMotion J) as [m0 m1 m2]; cbn [at0 at1 at2].
  split; [| split].
  - intros -> -> ->; reflexivity.
  - intros -> -> -> ->; cbn [motion_eqb andb]; apply Sphere_zero_limit.
  - intros Hunit; split; [| split]; intros ->.
    + destruct m1, m2; cbn [motion_eqb andb negb]; free_axis_perp Hunit.
    + destruct m0, m2; cbn [motion_eqb andb negb]; free_axis_perp Hunit.
    + destruct m0, m1; cbn [motion_eqb andb negb]; free_axis_perp Hunit.
Qed.

Lemma Identity_unit : Quat.IsNormalized Quat.Identity.
Proof. unfold Quat.IsNormalized, Quat.SizeSquared; simpl; ring. Qed.

(** The three parts on three joints: all locked; all hard limited with a
    limit of 0; and a soft limited X axis, which counts as free. *)
Lemma LimitedPositionError_shapes_witness :
  GetLimitedPositionError JointAllTwoDrivesOff Quat.Identity (mkVec3 1 2 3)
    = mkVec3 1 2 3 /\
  GetLimitedPositionError JointHardSphereZero Quat.Identity (mkVec3 1 2 3)
    = mkVec3 1 2 3 /\
  Vec3.DotProduct
    (GetLimitedPositionError JointSoftLimitedX Quat.Identity (mkVec3 1 2 3))
    (Quat.RotateVector Quat.Identity (mkVec3 1 0 0)) = 0.
Proof.
  destruct (LimitedPositionError_shapes JointAllTwoDrivesOff Quat.Identity (mkVec3 1 2 3))
    as (Hlocked & _ & _).
  destruct (LimitedPositionError_shapes JointHardSphereZero Quat.Identity (mkVec3 1 2 3))
    as (_ & Hsphere & _).
  destruct (LimitedPositionError_shapes JointSoftLimitedX Quat.Identity (mkVec3 1 2 3))
    as (_ & _ & Hfree).
  split; [| split].
  - apply Hlocked; reflexivity.
  - apply Hsphere; reflexivity.
  - apply (Hfree Identity_unit); reflexivity.
Defined.

(** ** Quaternion algebra *)

Lemma quat_eq (a b : Quat.FRotation3) :
  Quat.X a = Quat.X b -> Quat.Y a = Quat.Y b -> Quat.Z a = Quat.Z b ->
  Quat.W a = Quat.W b -> a = b.
Proof. destruct a, b; simpl; intros -> -> -> ->; reflexivity. Qed.

Lemma mul_Identity_r (q : Quat.FRotation3) : Quat.mul q Quat.Identity = q.
Proof. apply quat_eq; simpl; ring. Qed.

Lemma Inverse_Identity : Quat.Inverse Quat.Identity = Quat.Identity.
Proof. apply quat_eq; simpl; ring. Qed.

(** Multiplying by the conjugate of [t] and then by [t] scales by [|t|²]. *)
Lemma mul_Inverse_mul (q t : Quat.FRotation3) :
  Quat.mul (Quat.mul q (Quat.Inverse t)) t
  = Quat.mk (Quat.X q * Quat.SizeSquared t) (Quat.Y q * Quat.SizeSquared t)
            (Quat.Z q * Quat.SizeSquared t) (Quat.W q * Quat.SizeSquared t).
Proof. apply quat_eq; unfold Quat.SizeSquared; simpl; ring. Qed.

Lemma mul_Inverse_cancel (q t : Quat.FRotation3) :
  Quat.IsNormalized t -> Quat.mul (Quat.mul q (Quat.Inverse t)) t = q.
Proof.
  intros Hunit; rewrite mul_Inverse_mul, Hunit.
  apply quat_eq; simpl; ring.
Qed.



Lemma GetNormalized_unit (q : Quat.FRotation3) :
  Quat.IsNormalized (Quat.GetNormalized q).
Proof.
  unfold Quat.GetNormalized; cbv zeta.
  destruct (Rgeb_spec (Quat.SizeSquared q) SMALL_NUMBER) as [Hbig | Hsmall].
  - pose proof SMALL_NUMBER_pos as Hs.
    assert (Hpos : 0 < Quat.SizeSquared q) by lra.
    assert (Hsqrt : 0 < sqrt (Quat.SizeSquared q)) by (apply sqrt_lt_R0; assumption).
    unfold Quat.IsNormalized.
    remember (Quat.SizeSquared q) as S eqn:HS.
    unfold Quat.SizeSquared; simpl.
    replace (Quat.X q * / sqrt S * (Quat.X q * / sqrt S)
             + Quat.Y q * / sqrt S * (Quat.Y q * / sqrt S)
             + Quat.Z q * / sqrt S * (Quat.Z q * / sqrt S)
             + Quat.W q * / sqrt S * (Quat.W q * / sqrt S))
      with (Quat.SizeSquared q * (/ sqrt S * / sqrt S))
      by (unfold Quat.SizeSquared; ring).
    rewrite <- HS, <- Rinv_mult, sqrt_sqrt by lra.
    field; lra.
  - apply Identity_unit.
Qed.

Lemma GetNormalized_of_unit (q : Quat.FRotation3) :
  Quat.IsNormalized q -> Quat.GetNormalized q = q.
Proof.
  intros Hunit; unfold Quat.GetNormalized; cbv zeta.
  rewrite Hunit, Rgeb_true by (unfold SMALL_NUMBER; lra).
  rewrite sqrt_1, Rinv_1.
  apply quat_eq; simpl; ring.
Qed.

Lemma unit_W_bounds (q : Quat.FRotation3) :
  Quat.IsNormalized q -> -1 <= Quat.W q <= 1.
Proof. unfold Quat.IsNormalized, Quat.SizeSquared; intros H; split; nra. Qed.

(** ** The swing/twist decomposition *)

Lemma ToSwingTwistX_Twist_unit (q : Quat.FRotation3) :
  Quat.IsNormalized (snd (Quat.ToSwingTwistX q)).
Proof.
  unfold Quat.ToSwingTwistX; cbv zeta; cbn [snd].
  destruct ((Quat.X q >? 0) || (Quat.X q <? 0)).
  - apply GetNormalized_unit.
  - apply Identity_unit.
Qed.

Lemma ToSwingTwistX_Twist_about_X (q : Quat.FRotation3) :
  Quat.Y (snd (Quat.ToSwingTwistX q)) = 0 /\ Quat.Z (snd (Quat.ToSwingTwistX q)) = 0.
Proof.
  unfold Quat.ToSwingTwistX; cbv zeta; cbn [snd].
  destruct ((Quat.X q >? 0) || (Quat.X q <? 0)); [| split; reflexivity].
  unfold Quat.GetNormalized; cbv zeta.
  destruct (_ >=? _); simpl; split; ring.
Qed.

Lemma ToSwingTwistX_recomposes (q : Quat.FRotation3) :
  Quat.mul (fst (Quat.ToSwingTwistX q)) (snd (Quat.ToSwingTwistX q)) = q.
Proof.
  pose proof (ToSwingTwistX_Twist_unit q) as Hunit.
  unfold Quat.ToSwingTwistX in *; cbv zeta in *; cbn [fst snd] in *.
  apply mul_Inverse_cancel; assumption.
Qed.

(** C3: for every pair of rotations (unit or not, near a half turn or not),
    the swing and the twist returned by [DecomposeSwingTwistLocal], composed
    twist first (the product [Swing * Twist] applies [Twist] first), are
    exactly the relative rotation [R0⁻¹ * R1]; the twist is a unit quaternion
    about the X axis. *)
Theorem DecomposeSwingTwistLocal_recomposes (R0 R1 : Quat.FRotation3) :
  let R01Swing := fst (DecomposeSwingTwistLocal R0 R1) in
  let R01Twist := snd (DecomposeSwingTwistLocal R0 R1) in
  (R01Swing * R01Twist)%quat = (Quat.Inverse R0 * R1)%quat /\
  Quat.IsNormalized R01Twist /\
  Quat.Y R01Twist = 0 /\ Quat.Z R01Twist = 0.
Proof.
  unfold DecomposeSwingTwistLocal; cbv zeta.
  split; [apply ToSwingTwistX_recomposes |].
  split; [apply ToSwingTwistX_Twist_unit |].
  apply ToSwingTwistX_Twist_about_X.
Qed.

(** Two half turns seen from the identity: the one about the twist axis is
    all twist, the one about Y is all swing. *)
Example Decompose_half_turn_about_X :
  DecomposeSwingTwistLocal Quat.Identity HalfTurnNegativeX
  = (Quat.Identity, HalfTurnNegativeX).
Proof.
  unfold DecomposeSwingTwistLocal, Quat.ToSwingTwistX; cbv zeta.
  replace (Quat.mul (Quat.Inverse Quat.Identity) HalfTurnNegativeX)
    with HalfTurnNegativeX by (apply quat_eq; simpl; ring).
  cbn [Quat.X Quat.W HalfTurnNegativeX].
  rewrite Rltb_true by lra; rewrite orb_true_r.
  assert (Hunit : Quat.IsNormalized (Quat.mk (-1) 0 0 0))
    by (unfold Quat.IsNormalized, Quat.SizeSquared; simpl; ring).
  rewrite (GetNormalized_of_unit _ Hunit).
  f_equal; apply quat_eq; simpl; ring.
Qed.

Example Decompose_half_turn_about_Y :
  DecomposeSwingTwistLocal Quat.Identity HalfTurnY = (HalfTurnY, Quat.Identity).
Proof.
  unfold DecomposeSwingTwistLocal, Quat.ToSwingTwistX; cbv zeta.
  replace (Quat.mul (Quat.Inverse Quat.Identity) HalfTurnY)
    with HalfTurnY by (apply quat_eq; simpl; ring).
  cbn [Quat.X HalfTurnY].
  rewrite Rgtb_false, Rltb_false by lra; cbn [orb].
  rewrite Inverse_Identity, mul_Identity_r; reflexivity.
Qed.

(** ** Equal orientations *)









(** ** The twist angle *)

Lemma GetAngle_bounds (q : Quat.FRotation3) : 0 <= Quat.GetAngle q <= 2 * PI.
Proof.
  unfold Quat.GetAngle, FMath.Acos.
  pose proof (acos_bound (Quat.W q)); lra.
Qed.

Lemma RemappedAngle_bounds (InTwist : Quat.FRotation3) :
  - PI < RemappedAngle InTwist <= PI.
Proof.
  unfold RemappedAngle; cbv zeta.
  pose proof (GetAngle_bounds (Quat.GetNormalized InTwist)) as Hb.
  pose proof PI_RGT_0 as Hpi.
  destruct (Rgtb_spec (Quat.GetAngle (Quat.GetNormalized InTwist)) PI); lra.
Qed.

Lemma GetTwistAngle_sign (InTwist : Quat.FRotation3) :
  GetTwistAngle InTwist
  = if Quat.X (Quat.GetNormalized InTwist) <? 0
    then - RemappedAngle InTwist else RemappedAngle InTwist.
Proof. reflexivity. Qed.

(** Among the values of the clamped arc cosine on [-1, 1], a quarter turn is
    taken at 0 only. *)
Lemma acos_quarter_turn (w : R) : -1 <= w <= 1 -> acos w = PI / 2 -> w = 0.
Proof.
  intros Hw Hacos.
  rewrite <- (cos_acos w Hw), Hacos; apply cos_PI2.
Qed.

Lemma RemappedAngle_half_turn (InTwist : Quat.FRotation3) :
  RemappedAngle InTwist = PI <-> Quat.W (Quat.GetNormalized InTwist) = 0.
Proof.
  unfold RemappedAngle; cbv zeta.
  pose proof (GetAngle_bounds (Quat.GetNormalized InTwist)) as Hb.
  pose proof PI_RGT_0 as Hpi.
  pose proof (unit_W_bounds _ (GetNormalized_unit InTwist)) as Hw.
  unfold Quat.GetAngle, FMath.Acos in *.
  split.
  - destruct (Rgtb_spec (2 * acos (Quat.W (Quat.GetNormalized InTwist))) PI);
      intros Heq; [lra |].
    apply acos_quarter_turn; [assumption | lra].
  - intros ->; rewrite acos_0.
    rewrite Rgtb_false by lra; field.
Qed.

(** C2, as the code has it: the result lies in the closed interval from
    [-PI] to [PI]; it is the rotation angle of the normalised twist, less a
    full turn when above [PI] (a value in the half-open interval from [-PI]
    to [PI]), negated exactly when the X component of the normalised twist is
    negative; and it is [-PI] whenever the normalised twist has scalar
    component 0 and a negative X component. *)
Theorem GetTwistAngle_range (InTwist : Quat.FRotation3) :
  let Twist := Quat.GetNormalized InTwist in
  - PI <= GetTwistAngle InTwist <= PI /\
  - PI < RemappedAngle InTwist <= PI /\
  (Quat.X Twist < 0 -> GetTwistAngle InTwist = - RemappedAngle InTwist) /\
  (0 <= Quat.X Twist -> GetTwistAngle InTwist = RemappedAngle InTwist) /\
  (Quat.W Twist = 0 -> Quat.X Twist < 0 -> GetTwistAngle InTwist = - PI).
Proof.
  intros Twist; subst Twist.
  pose proof (RemappedAngle_bounds InTwist) as Hb.
  pose proof (RemappedAngle_half_turn InTwist) as Hhalf.
  rewrite GetTwistAngle_sign.
  destruct (Rltb_spec (Quat.X (Quat.GetNormalized InTwist)) 0) as [Hneg | Hpos].
  - split; [lra |]. split; [assumption |].
    split; [reflexivity |]. split; [lra |].
    intros HW _; apply Hhalf in HW; lra.
  - split; [lra |]. split; [assumption |].
    split; [lra |]. split; [reflexivity |].
    intros _ HX; lra.
Qed.

Lemma HalfTurnNegativeX_unit : Quat.IsNormalized HalfTurnNegativeX.
Proof. unfold Quat.IsNormalized, Quat.SizeSquared; simpl; ring. Qed.

(** The half turn about the negative twist axis is measured as [-PI]. *)
Lemma GetTwistAngle_range_witness :
  GetTwistAngle HalfTurnNegativeX = - RemappedAngle HalfTurnNegativeX /\
  GetTwistAngle Quat.Identity = RemappedAngle Quat.Identity /\
  GetTwistAngle HalfTurnNegativeX = - PI.
Proof.
  destruct (GetTwistAngle_range HalfTurnNegativeX) as (_ & _ & Hneg & _ & Hhalf).
  destruct (GetTwistAngle_range Quat.Identity) as (_ & _ & _ & Hpos & _).
  split; [| split].
  - apply Hneg.
    rewrite (GetNormalized_of_unit _ HalfTurnNegativeX_unit); simpl; lra.
  - apply Hpos.
    rewrite (GetNormalized_of_unit _ Identity_unit); simpl; lra.
  - apply Hhalf;
      rewrite (GetNormalized_of_unit _ HalfTurnNegativeX_unit); simpl; lra.
Defined.

(** C2, as stated, fails at the half turn about the negative twist axis: for
    the unit twist [(-1, 0, 0, 0)] the rotation angle is [PI], it is not above
    [PI], the X component is negative, and the result is [-PI], outside the
    half-open interval. *)
Lemma GetTwistAngle_reaches_minus_PI :
  Quat.IsNormalized HalfTurnNegativeX /\
  GetTwistAngle HalfTurnNegativeX = - PI /\
  ~ (- PI < GetTwistAngle HalfTurnNegativeX <= PI).
Proof.
  assert (Heq : GetTwistAngle HalfTurnNegativeX = - PI).
  { unfold GetTwistAngle; cbv zeta.
    rewrite (GetNormalized_of_unit _ HalfTurnNegativeX_unit).
    unfold Quat.GetAngle, FMath.Acos; cbn [Quat.W Quat.X HalfTurnNegativeX].
    rewrite acos_0.
    pose proof PI_RGT_0 as Hpi.
    rewrite Rgtb_false, Rltb_true by lra.
    field. }
  split; [apply HalfTurnNegativeX_unit |].
  split; [assumption |].
  rewrite Heq; lra.
Qed.

(** * The program on binary32 inputs

    Evaluations of the binary32 transcription: where the exact-arithmetic
    statements above say "exactly", the machine type rounds. *)

(** [ConditionInertia((1, 14, 38), 7)] is
    [(5.4285712, 16.872587, 38)]: the exact ratio of its maximum to its
    minimum is above 7, and so is the ratio the program itself would
    compute. *)
Lemma Binary32_ConditionInertia_1_14_38 :
  Binary32.ConditionInertia Inertia_1_14_38 (b32 7)
  = Binary32.mkVec3 (Binary32.ofBits 11384539 (-21)) (Binary32.ofBits 8846095 (-19))
      (b32 38) /\
  (7 < Binary32.toQ (b32 38) / Binary32.toQ (Binary32.ofBits 11384539 (-21)))%Q /\
  Binary32.div (b32 38) (Binary32.ofBits 11384539 (-21)) = Binary32.ofBits 14680065 (-21) /\
  b32 7 = Binary32.ofBits 14680064 (-21).
Proof. repeat split; vm_compute; reflexivity. Qed.

(** Conditioning that result again moves its middle component by one unit in
    the last place. *)
Lemma Binary32_ConditionInertia_twice :
  Binary32.ConditionInertia (Binary32.ConditionInertia Inertia_1_14_38 (b32 7)) (b32 7)
  = Binary32.mkVec3 (Binary32.ofBits 11384539 (-21)) (Binary32.ofBits 8846094 (-19))
      (b32 38).
Proof. vm_compute; reflexivity. Qed.

(** With inverse masses 13 and 1 and a minimum ratio of one half, the parent
    comes back with inverse mass [2.00000024]; the exact ratio of the direct
    masses, [InvMChild / InvMParent], is below one half. *)
Lemma Binary32_Conditioning_13_1 :
  Binary32.InvMParent (Binary32.ConditionInverseMassAndInertia Pair_13_1 b32_half (b32 10))
  = Binary32.ofBits 8388609 (-22) /\
  Binary32.InvMChild (Binary32.ConditionInverseMassAndInertia Pair_13_1 b32_half (b32 10))
  = b32 1 /\
  (Binary32.toQ (b32 1) / Binary32.toQ (Binary32.ofBits 8388609 (-22)) < 1 # 2)%Q.
Proof. repeat split; vm_compute; reflexivity. Qed.

(** A dynamic parent with one inverse inertia component 0 (a locked rotation
    axis) comes back with an inverse inertia that is not a number. *)
Lemma Binary32_Conditioning_locked_axis :
  Binary32.InvIParent
    (Binary32.ConditionInverseMassAndInertia ParentLockedAxis b32_half (b32 10))
  = Binary32.mkVec3 S754_nan S754_nan S754_nan.
Proof. vm_compute; reflexivity. Qed.

(** The error [(1, 2, 2)] of length 3 under the limit 1: the result is
    [(0.66666663, 1.3333333, 1.3333333)], whose exact squared length is below
    4 and whose computed length is [1.9999999], not 2. *)
Lemma Binary32_Sphere_1_2_2 :
  Binary32.Size Error_1_2_2 = b32 3 /\
  Binary32.GetSphereLimitedPositionError Error_1_2_2 (b32 1)
  = Binary32.mkVec3 (Binary32.ofBits 11184810 (-24)) (Binary32.ofBits 11184810 (-23))
      (Binary32.ofBits 11184810 (-23)) /\
  (ExactSizeSquared (Binary32.GetSphereLimitedPositionError Error_1_2_2 (b32 1)) < 4)%Q /\
  Binary32.Size (Binary32.GetSphereLimitedPositionError Error_1_2_2 (b32 1))
  = Binary32.ofBits 16777215 (-23) /\
  b32 2 = Binary32.ofBits 16777216 (-23).
Proof. repeat split; vm_compute; reflexivity. Qed.

(** The error [(2^70, 0, 0)] under the limit [2^69]: the squared length
    overflows, the computed length is infinite, the direction is zero and the
    error comes back unclipped. *)
Lemma Binary32_Sphere_overflow :
  Binary32.Size Error_huge = S754_infinity false /\
  Binary32.GetSphereLimitedPositionError Error_huge (b32 (2 ^ 69)) = Error_huge.
Proof. repeat split; vm_compute; reflexivity. Qed.

(** At both errors the two ways of dividing a vector by its length give the
    same direction, so the evaluations above do not depend on which one the
    engine's vector type uses. *)
Lemma Binary32_division_variants :
  Binary32.vdiv_by_reciprocal Error_1_2_2 (Binary32.Size Error_1_2_2)
  = Binary32.vdiv Error_1_2_2 (Binary32.Size Error_1_2_2) /\
  Binary32.vdiv_by_reciprocal Error_huge (Binary32.Size Error_huge)
  = Binary32.vdiv Error_huge (Binary32.Size Error_huge).
Proof. split; vm_compute; reflexivity. Qed.

(** A parent with negative inverse inertia components is left as it is by
    both inertia conditioners: its maximum direct inertia stays negative and
    the parent/child ratio of maximum inertias is [-1], below the minimum
    ratio. *)
Lemma conditioning_negative_inertia :
  0 < InvMParent NegativeInertiaParent /\ 0 < InvMChild NegativeInertiaParent /\
  Vec3.Max (Reciprocal (InvIParent
     (ConditionInverseMassAndInertia NegativeInertiaParent (1 / 2) 10)))
  / Vec3.Max (Reciprocal (InvIChild
     (ConditionInverseMassAndInertia NegativeInertiaParent (1 / 2) 10)))
  = -1 /\
  ~ 1 / 2 <=
    Vec3.Max (Reciprocal (InvIParent
       (ConditionInverseMassAndInertia NegativeInertiaParent (1 / 2) 10)))
    / Vec3.Max (Reciprocal (InvIChild
       (ConditionInverseMassAndInertia NegativeInertiaParent (1 / 2) 10))).
Proof.
  assert (HP : 0 < InvMParent NegativeInertiaParent) by (simpl; lra).
  assert (HC : 0 < InvMChild NegativeInertiaParent) by (simpl; lra).
  assert (HrP : Reciprocal (InvIParent NegativeInertiaParent) = mkVec3 (-1) (-1) (-1))
    by (unfold Reciprocal; apply vec_eq; simpl; field).
  assert (HrC : Reciprocal (InvIChild NegativeInertiaParent) = mkVec3 1 1 1)
    by (unfold Reciprocal; apply vec_eq; simpl; field).
  assert (HminP : Vec3.Min (mkVec3 (-1) (-1) (-1)) = -1) by eval_minmax.
  assert (HmaxP : Vec3.Max (mkVec3 (-1) (-1) (-1)) = -1) by eval_minmax.
  assert (HminC : Vec3.Min (mkVec3 1 1 1) = 1) by eval_minmax.
  assert (HmaxC : Vec3.Max (mkVec3 1 1 1) = 1) by eval_minmax.
  assert (HcP : ConditionInertia (mkVec3 (-1) (-1) (-1)) 10 = mkVec3 (-1) (-1) (-1))
    by (apply ConditionInertia_unchanged; rewrite HminP; lra).
  assert (HcC : ConditionInertia (mkVec3 1 1 1) 10 = mkVec3 1 1 1)
    by (apply ConditionInertia_unchanged; rewrite HminC, HmaxC; lra).
  assert (Hpar : ConditionParentInertia (mkVec3 (-1) (-1) (-1)) (mkVec3 1 1 1) (1 / 2)
                 = mkVec3 (-1) (-1) (-1)).
  { unfold ConditionParentInertia; rewrite HmaxP.
    rewrite (Rgtb_true (1 / 2) 0), (Rgtb_false (-1) 0) by lra; reflexivity. }
  rewrite Condition_both_dynamic by assumption; cbn [InvIParent InvIChild].
  rewrite HrP, HrC, HcP, HcC, Hpar.
  assert (HiP : Reciprocal (mkVec3 (-1) (-1) (-1)) = mkVec3 (-1) (-1) (-1))
    by (unfold Reciprocal; apply vec_eq; simpl; field).
  assert (HiC : Reciprocal (mkVec3 1 1 1) = mkVec3 1 1 1)
    by (unfold Reciprocal; apply vec_eq; simpl; field).
  rewrite !HiP, !HiC, HmaxP, HmaxC.
  repeat split; try assumption; lra.
Qed.

(** C5, as stated, fails in three ways.  Within the small-magnitude
    threshold nothing is clipped: [(5e-9, 0, 0)] under the limit [1e-9] comes
    back whole, of length [5e-9] and not [4e-9].  On the machine type the
    length is met only up to rounding: [(1, 2, 2)] under the limit 1, of
    length [1 + 2], comes back with an exact squared length below 4 and a
    computed length [1.9999999], not 2.  And an error whose squared length
    overflows, [(2^70, 0, 0)] under the limit [2^69], comes back whole. *)
Lemma Sphere_claim_fails :
  (0 < 4 / 1000000000 /\
   Vec3.Size (mkVec3 (5 / 1000000000) 0 0) = 1 / 1000000000 + 4 / 1000000000 /\
   GetSphereLimitedPositionError (mkVec3 (5 / 1000000000) 0 0) (1 / 1000000000)
   = mkVec3 (5 / 1000000000) 0 0 /\
   Vec3.Size (GetSphereLimitedPositionError (mkVec3 (5 / 1000000000) 0 0) (1 / 1000000000))
   <> 4 / 1000000000) /\
  (Binary32.Size Error_1_2_2 = b32 3 /\
   (ExactSizeSquared (Binary32.GetSphereLimitedPositionError Error_1_2_2 (b32 1)) < 4)%Q /\
   Binary32.Size (Binary32.GetSphereLimitedPositionError Error_1_2_2 (b32 1))
   <> b32 2) /\
  Binary32.GetSphereLimitedPositionError Error_huge (b32 (2 ^ 69)) = Error_huge.
Proof.
  split; [exact Sphere_tiny_error_not_clipped |].
  destruct Binary32_Sphere_1_2_2 as (Hsize & _ & Hexact & Hlen & _).
  destruct Binary32_Sphere_overflow as [_ Hhuge].
  split; [| exact Hhuge].
  split; [exact Hsize |]. split; [exact Hexact |].
  rewrite Hlen; vm_compute; discriminate.
Qed.

(** C7, as stated, fails in two ways.  For a maximum ratio below 1 the
    remapping goes the wrong way: [(1, 1, 2)] under 1/2 becomes [(4, 4, 2)],
    of ratio 2, with another maximum and another order.  And on the machine
    type the ratio is met only up to rounding: [(1, 14, 38)] under 7 becomes
    [(5.4285712, 16.872587, 38)], whose exact max/min ratio is above 7. *)
Lemma ConditionInertia_claim_fails :
  (0 < 1 / 2 /\
   0 < Vec3.Min (mkVec3 1 1 2) /\
   1 / 2 < Vec3.Max (mkVec3 1 1 2) / Vec3.Min (mkVec3 1 1 2) /\
   ConditionInertia (mkVec3 1 1 2) (1 / 2) = mkVec3 4 4 2 /\
   Vec3.Max (ConditionInertia (mkVec3 1 1 2) (1 / 2))
     / Vec3.Min (ConditionInertia (mkVec3 1 1 2) (1 / 2)) <> 1 / 2 /\
   Vec3.Max (ConditionInertia (mkVec3 1 1 2) (1 / 2)) <> Vec3.Max (mkVec3 1 1 2) /\
   ~ SameOrder (mkVec3 1 1 2) (ConditionInertia (mkVec3 1 1 2) (1 / 2))) /\
  (Binary32.VMax (Binary32.ConditionInertia Inertia_1_14_38 (b32 7)) = b32 38 /\
   Binary32.VMin (Binary32.ConditionInertia Inertia_1_14_38 (b32 7))
   = Binary32.ofBits 11384539 (-21) /\
   (7 < Binary32.toQ (b32 38) / Binary32.toQ (Binary32.ofBits 11384539 (-21)))%Q).
Proof.
  split; [exact ConditionInertia_ratio_below_one |].
  destruct Binary32_ConditionInertia_1_14_38 as (Hout & Hratio & _).
  rewrite Hout; repeat split; try exact Hratio; vm_compute; reflexivity.
Qed.

(** C8, as stated, fails in four ways.  For a maximum inertia ratio below 1
    the anisotropy bound cannot be met (a parent of direct inertia
    [(1, 1, 2)] under 1/2 ends at ratio 2).  Without positive inverse inertia
    components the inertia bounds are lost: negative components leave the
    parent/child ratio of maximum inertias at [-1], and on the machine type a
    component 0 (a locked axis) comes back as not-a-number.  And on the
    machine type the mass ratio is met only up to rounding: inverse masses 13
    and 1 under the minimum ratio one half come back as [2.00000024] and 1, a
    ratio of direct masses below one half. *)
Lemma conditioning_claim_fails :
  (0 < 1 /\ 0 < 1 / 2 /\ 0 < InvMParent LoneParent /\
   InvIParent (ConditionInverseMassAndInertia LoneParent 1 (1 / 2))
     = mkVec3 (1 / 4) (1 / 4) (1 / 2) /\
   Vec3.Max (Reciprocal (InvIParent (ConditionInverseMassAndInertia LoneParent 1 (1 / 2))))
     / Vec3.Min (Reciprocal (InvIParent (ConditionInverseMassAndInertia LoneParent 1 (1 / 2))))
     = 2 /\
   ~ Vec3.Max (Reciprocal (InvIParent (ConditionInverseMassAndInertia LoneParent 1 (1 / 2))))
     / Vec3.Min (Reciprocal (InvIParent (ConditionInverseMassAndInertia LoneParent 1 (1 / 2))))
     <= 1 / 2) /\
  (0 < InvMParent NegativeInertiaParent /\ 0 < InvMChild NegativeInertiaParent /\
   ~ 1 / 2 <=
     Vec3.Max (Reciprocal (InvIParent
        (ConditionInverseMassAndInertia NegativeInertiaParent (1 / 2) 10)))
     / Vec3.Max (Reciprocal (InvIChild
        (ConditionInverseMassAndInertia NegativeInertiaParent (1 / 2) 10)))) /\
  Binary32.InvIParent
    (Binary32.ConditionInverseMassAndInertia ParentLockedAxis b32_half (b32 10))
  = Binary32.mkVec3 S754_nan S754_nan S754_nan /\
  (Binary32.toQ (Binary32.InvMChild
      (Binary32.ConditionInverseMassAndInertia Pair_13_1 b32_half (b32 10)))
   / Binary32.toQ (Binary32.InvMParent
      (Binary32.ConditionInverseMassAndInertia Pair_13_1 b32_half (b32 10)))
   < 1 # 2)%Q.
Proof.
  split; [exact conditioning_ratio_below_one |].
  destruct conditioning_negative_inertia as (HP & HC & _ & Hneg).
  split; [split; [exact HP | split; [exact HC | exact Hneg]] |].
  split; [exact Binary32_Conditioning_locked_axis |].
  destruct Binary32_Conditioning_13_1 as (-> & -> & Hratio); exact Hratio.
Qed.

(** * Further properties of the kernel *)

(** ** The settings resolver never leaks a negative override *)

Lemma override_nonneg (s j : R) : 0 <= j -> 0 <= (if s >? 0 then s else j).
Proof. intros Hj; destruct (Rgtb_spec s 0); lra. Qed.

Lemma guarded_override_nonneg (flag : bool) (s j : R) :
  0 <= j -> 0 <= (if flag then (if s >? 0 then s else j) else 0).
Proof. intros Hj; destruct flag; [apply override_nonneg; assumption | lra]. Qed.

(** X1: when the joint's own coefficients are non-negative, every getter
    returns a non-negative coefficient, whatever the solver's overrides are
    (a negative or zero override is never returned). *)
Theorem resolver_nonnegative
    (S : SolverSettings.FPBDJointSolverSettings)
    (J : JointSettings.FPBDJointSettings) :
  NonNegativeJoint J ->
  0 <= GetLinearStiffness S J /\ 0 <= GetSoftLinearStiffness S J /\
  0 <= GetSoftLinearDamping S J /\ 0 <= GetTwistStiffness S J /\
  0 <= GetSoftTwistStiffness S J /\ 0 <= GetSoftTwistDamping S J /\
  0 <= GetSwingStiffness S J /\ 0 <= GetSoftSwingStiffness S J /\
  0 <= GetSoftSwingDamping S J /\ 0 <= GetLinearDriveStiffness S J /\
  0 <= GetLinearDriveDamping S J /\ 0 <= GetAngularTwistDriveStiffness S J /\
  0 <= GetAngularTwistDriveDamping S J /\ 0 <= GetAngularSwingDriveStiffness S J /\
  0 <= GetAngularSwingDriveDamping S J /\ 0 <= GetAngularSLerpDriveStiffness S J /\
  0 <= GetAngularSLerpDriveDamping S J /\ 0 <= GetLinearProjection S J /\
  0 <= GetAngularProjection S J.
Proof.
  intros (H1 & H2 & H3 & H4 & H5 & H6 & H7 & H8 & H9 & H10 & H11 & H12 & H13).
  repeat match goal with |- _ /\ _ => split end;
    first [ apply override_nonneg; assumption
          | apply guarded_override_nonneg; assumption ].
Qed.

Lemma JointAllTwoDrivesOn_nonneg : NonNegativeJoint JointAllTwoDrivesOn.
Proof. unfold NonNegativeJoint; simpl; repeat split; lra. Qed.

Lemma resolver_nonnegative_witness :
  0 <= GetLinearStiffness SolverAllNegative JointAllTwoDrivesOn /\
  0 <= GetAngularTwistDriveDamping SolverAllNegative JointAllTwoDrivesOn.
Proof.
  destruct (resolver_nonnegative SolverAllNegative JointAllTwoDrivesOn
              JointAllTwoDrivesOn_nonneg)
    as (H1 & _ & _ & _ & _ & _ & _ & _ & _ & _ & _ & _ & H13 & _).
  split; assumption.
Defined.

(** ** The angular position correction and the linear projection *)

Lemma all_locked_effective (J : JointSettings.FPBDJointSettings) :
  at0 (JointSettings.LinearMotionTypes J) = Locked ->
  at1 (JointSettings.LinearMotionTypes J) = Locked ->
  at2 (JointSettings.LinearMotionTypes J) = Locked ->
  EffectiveMotion J = mkTVector3 Locked Locked Locked.
Proof.
  intros H0 H1 H2; unfold EffectiveMotion; cbv zeta.
  rewrite H0, H1, H2; reflexivity.
Qed.

(** X2: the angular position correction is either 0 or the solver's value;
    whenever it is not 0, all three linear axes are locked, soft limits play
    no part, and the linear projection error is the whole raw error. *)
Theorem position_correction_only_when_point_locked
    (S : SolverSettings.FPBDJointSolverSettings)
    (J : JointSettings.FPBDJointSettings) :
  (GetAngularPositionCorrection S J = 0 \/
   GetAngularPositionCorrection S J
     = SolverSettings.AngularConstraintPositionCorrection S) /\
  (GetAngularPositionCorrection S J <> 0 ->
     JointSettings.LinearMotionTypes J = mkTVector3 Locked Locked Locked /\
     forall (R0 : Quat.FRotation3) (CX : FVec3),
       GetLimitedPositionError J R0 CX = CX).
Proof.
  unfold GetAngularPositionCorrection; cbv zeta.
  destruct (JointSettings.LinearMotionTypes J) as [m0 m1 m2] eqn:Htypes;
    cbn [at0 at1 at2].
  destruct m0, m1, m2; cbn [motion_eqb andb];
    (split; [auto |]); intros Hnz; try (elim Hnz; reflexivity).
  split; [reflexivity |].
  intros R0 CX; unfold GetLimitedPositionError; cbv zeta.
  rewrite all_locked_effective by (rewrite Htypes; reflexivity).
  reflexivity.
Qed.

Lemma position_correction_only_when_point_locked_witness :
  GetAngularPositionCorrection SolverAllFive JointAllTwoDrivesOff <> 0 /\
  GetLimitedPositionError JointAllTwoDrivesOff Quat.Identity (mkVec3 1 2 3)
    = mkVec3 1 2 3.
Proof.
  assert (Hnz : GetAngularPositionCorrection SolverAllFive JointAllTwoDrivesOff <> 0)
    by (unfold GetAngularPositionCorrection; simpl; lra).
  split; [exact Hnz |].
  destruct (position_correction_only_when_point_locked SolverAllFive JointAllTwoDrivesOff)
    as [_ H].
  apply (H Hnz).
Defined.

(** ** The parent conditioners in closed form *)

Lemma ratio_lt_iff (a b r : R) : 0 < b -> a / b < r <-> a < r * b.
Proof.
  intros Hb; split; intros H.
  - apply (Rmult_lt_compat_r b) in H; [| lra].
    unfold Rdiv in H; rewrite Rmult_assoc, Rinv_l, Rmult_1_r in H by lra; assumption.
  - apply (Rmult_lt_reg_r b); [assumption |].
    unfold Rdiv; rewrite Rmult_assoc, Rinv_l, Rmult_1_r by lra; assumption.
Qed.



Lemma ConditionParentInertia_factor (IParent IChild : FVec3) (MinRatio : R) :
  exists k : R, 1 <= k /\
    ConditionParentInertia IParent IChild MinRatio = Vec3.scale k IParent.
Proof.
  assert (Hid : IParent = Vec3.scale 1 IParent) by (apply vec_eq; simpl; ring).
  unfold ConditionParentInertia.
  destruct (Rgtb_spec MinRatio 0) as [Hr | Hr]; [| exists 1; split; [lra | exact Hid]].
  destruct (Rgtb_spec (Vec3.Max IParent) 0) as [HP | HP]; cbn [andb];
    [| exists 1; split; [lra | exact Hid]].
  destruct (Rgtb_spec (Vec3.Max IChild) 0) as [HC | HC];
    [| exists 1; split; [lra | exact Hid]].
  destruct (Rltb_spec (Vec3.Max IParent / Vec3.Max IChild) MinRatio) as [Hlt | Hge];
    [| exists 1; split; [lra | exact Hid]].
  eexists; split; [| reflexivity].
  assert (Hq : 0 < Vec3.Max IParent / Vec3.Max IChild)
    by (apply Rdiv_lt_0_compat; assumption).
  apply (Rmult_le_reg_r (Vec3.Max IParent / Vec3.Max IChild)); [assumption |].
  unfold Rdiv at 2; rewrite Rmult_assoc, Rinv_l, Rmult_1_r by lra.
  lra.
Qed.

Lemma ConditionParentMass_ge (MParent MChild MinRatio : R) :
  0 < MParent -> MParent <= ConditionParentMass MParent MChild MinRatio.
Proof.
  intros HP; unfold ConditionParentMass.
  destruct (Rgtb_spec MinRatio 0) as [Hr | Hr]; cbn [andb]; [| lra].
  rewrite (Rgtb_true MParent 0) by assumption; cbn [andb].
  destruct (Rgtb_spec MChild 0) as [HC | HC]; [| lra].
  destruct (Rltb_spec (MParent / MChild) MinRatio) as [Hlt | Hge]; [| lra].
  apply ratio_lt_iff in Hlt; [| assumption].
  replace (MParent * (MinRatio / (MParent / MChild))) with (MinRatio * MChild)
    by (field; lra).
  lra.
Qed.



(** ** ConditionInertia as a projection *)

Lemma ConditionInertia_fixed_when_bounded (I : FVec3) (MaxRatio : R) :
  InertiaRatioBounded I MaxRatio -> ConditionInertia I MaxRatio = I.
Proof.
  intros [Hmin Hratio]; apply ConditionInertia_unchanged; lra.
Qed.

(** X5: in exact arithmetic, for a maximum ratio of at least 1, conditioning
    an inertia twice is conditioning it once.  (On the machine type a second
    conditioning can move a component by a unit in the last place, see
    [Binary32_ConditionInertia_twice].) *)
Theorem ConditionInertia_idempotent (InI : FVec3) (MaxRatio : R) :
  1 <= MaxRatio ->
  ConditionInertia (ConditionInertia InI MaxRatio) MaxRatio
  = ConditionInertia InI MaxRatio.
Proof.
  intros Hr.
  destruct (Rlt_dec 0 (Vec3.Min InI)) as [Hmin | Hmin].
  - apply ConditionInertia_fixed_when_bounded.
    apply ConditionInertia_bounded; [assumption |].
    apply Min_pos_iff; assumption.
  - rewrite (ConditionInertia_unchanged InI MaxRatio) by tauto.
    apply ConditionInertia_unchanged; tauto.
Qed.

Lemma ConditionInertia_idempotent_witness :
  ConditionInertia (ConditionInertia (mkVec3 1 1 100) 10) 10
  = ConditionInertia (mkVec3 1 1 100) 10.
Proof. apply ConditionInertia_idempotent; lra. Defined.

Lemma Remap_between (I : FVec3) (MaxRatio x : R) :
  1 <= MaxRatio -> 0 < Vec3.Min I -> MaxRatio < Vec3.Max I / Vec3.Min I ->
  Vec3.Min I <= x <= Vec3.Max I ->
  x <= RemapInertia (Vec3.Min I) (Vec3.Max I) MaxRatio x <= Vec3.Max I.
Proof.
  intros Hr Hmin Hratio Hx.
  pose proof (spread_pos I MaxRatio Hr Hmin Hratio) as Hs.
  pose proof (floor_le_IMax I MaxRatio Hr Hmin Hratio) as Hfloor.
  assert (Hlow : Vec3.Min I <= Vec3.Max I / MaxRatio).
  { assert (Hprod : MaxRatio * Vec3.Min I < Vec3.Max I).
    { apply (Rmult_lt_compat_r (Vec3.Min I)) in Hratio; [| assumption].
      unfold Rdiv in Hratio.
      rewrite Rmult_assoc, Rinv_l, Rmult_1_r in Hratio by lra; assumption. }
    apply (Rmult_le_reg_r MaxRatio); [lra |].
    unfold Rdiv; rewrite Rmult_assoc, Rinv_l, Rmult_1_r by lra; lra. }
  unfold RemapInertia, FMath.Lerp.
  set (t := (x - Vec3.Min I) / (Vec3.Max I - Vec3.Min I)).
  assert (Ht : 0 <= t <= 1).
  { unfold t; split.
    - apply Rmult_le_pos; [lra | left; apply Rinv_0_lt_compat; assumption].
    - apply ratio_le_iff; lra. }
  assert (Hxt : x = Vec3.Min I + t * (Vec3.Max I - Vec3.Min I))
    by (unfold t; field; lra).
  split; [rewrite Hxt at 1 |]; nra.
Qed.

(** X6: in exact arithmetic, for a maximum ratio of at least 1, conditioning
    only raises: every component of the result is at least the input
    component and at most the input's maximum component. *)
Theorem ConditionInertia_raises (InI : FVec3) (MaxRatio : R) :
  1 <= MaxRatio ->
  ComponentsLe InI (ConditionInertia InI MaxRatio) /\
  X (ConditionInertia InI MaxRatio) <= Vec3.Max InI /\
  Y (ConditionInertia InI MaxRatio) <= Vec3.Max InI /\
  Z (ConditionInertia InI MaxRatio) <= Vec3.Max InI.
Proof.
  intros Hr.
  pose proof (Min3_lower (X InI) (Y InI) (Z InI)) as Hlo.
  pose proof (Max3_upper (X InI) (Y InI) (Z InI)) as Hup.
  fold (Vec3.Min InI) in Hlo; fold (Vec3.Max InI) in Hup.
  destruct (Rlt_dec 0 (Vec3.Min InI)) as [Hmin | Hmin];
    [destruct (Rlt_dec MaxRatio (Vec3.Max InI / Vec3.Min InI)) as [Hbig | Hsmall] |].
  - rewrite (ConditionInertia_components InI MaxRatio Hr Hmin Hbig).
    pose proof (Remap_between InI MaxRatio (X InI) Hr Hmin Hbig) as HX.
    pose proof (Remap_between InI MaxRatio (Y InI) Hr Hmin Hbig) as HY.
    pose proof (Remap_between InI MaxRatio (Z InI) Hr Hmin Hbig) as HZ.
    unfold ComponentsLe; cbn [X Y Z]; repeat split;
      first [apply HX | apply HY | apply HZ]; lra.
  - rewrite ConditionInertia_unchanged by tauto.
    unfold ComponentsLe; repeat split; lra.
  - rewrite ConditionInertia_unchanged by tauto.
    unfold ComponentsLe; repeat split; lra.
Qed.

Lemma ConditionInertia_raises_witness :
  ComponentsLe (mkVec3 1 1 100) (ConditionInertia (mkVec3 1 1 100) 10).
Proof.
  destruct (ConditionInertia_raises (mkVec3 1 1 100) 10) as [H _]; [lra | exact H].
Defined.

(** ** The composite conditioner only makes bodies heavier *)

Lemma reciprocal_antitone (a b : R) : 0 < a -> a <= b -> 1 / b <= 1 / a.
Proof.
  intros Ha Hab; unfold Rdiv; rewrite !Rmult_1_l.
  apply Rinv_le_contravar; assumption.
Qed.

Lemma reciprocal_of_raised (x y : R) : 0 < x -> 1 / x <= y -> 1 / y <= x.
Proof.
  intros Hx Hy.
  assert (Hinv : 0 < 1 / x) by (apply Rdiv_lt_0_compat; lra).
  apply Rle_trans with (1 / (1 / x));
    [apply reciprocal_antitone; assumption | right; field; lra].
Qed.

Lemma Reciprocal_of_raised (InvI I : FVec3) :
  PositiveComponents InvI -> ComponentsLe (Reciprocal InvI) I ->
  ComponentsLe (Reciprocal I) InvI.
Proof.
  intros (Hx & Hy & Hz) (Lx & Ly & Lz); unfold ComponentsLe, Reciprocal in *.
  cbn [X Y Z] in *.
  repeat split; apply reciprocal_of_raised; assumption.
Qed.

Lemma ComponentsLe_trans (a b c : FVec3) :
  ComponentsLe a b -> ComponentsLe b c -> ComponentsLe a c.
Proof. unfold ComponentsLe; intros (? & ? & ?) (? & ? & ?); repeat split; lra. Qed.

Lemma ComponentsLe_scale (k : R) (v : FVec3) :
  1 <= k -> PositiveComponents v -> ComponentsLe v (Vec3.scale k v).
Proof.
  intros Hk (Hx & Hy & Hz); unfold ComponentsLe; cbn [Vec3.scale X Y Z].
  repeat split; nra.
Qed.

Lemma conditioned_own_raised (InvI : FVec3) (MaxRatio : R) :
  1 <= MaxRatio -> PositiveComponents InvI ->
  ComponentsLe (Reciprocal InvI) (ConditionInertia (Reciprocal InvI) MaxRatio) /\
  PositiveComponents (ConditionInertia (Reciprocal InvI) MaxRatio).
Proof.
  intros Hr Hpos.
  pose proof (Reciprocal_positive _ Hpos) as Hdirect.
  destruct (ConditionInertia_bounded _ _ Hr Hdirect) as [[Hmin _] _].
  split; [| apply Min_pos_iff; assumption].
  destruct (Rlt_dec MaxRatio
              (Vec3.Max (Reciprocal InvI) / Vec3.Min (Reciprocal InvI))) as [Hbig | Hsmall].
  - apply Min_pos_iff in Hdirect.
    pose proof (Min3_lower (X (Reciprocal InvI)) (Y (Reciprocal InvI)) (Z (Reciprocal InvI)))
      as Hlo.
    pose proof (Max3_upper (X (Reciprocal InvI)) (Y (Reciprocal InvI)) (Z (Reciprocal InvI)))
      as Hup.
    fold (Vec3.Min (Reciprocal InvI)) in Hlo; fold (Vec3.Max (Reciprocal InvI)) in Hup.
    rewrite (ConditionInertia_components _ _ Hr Hdirect Hbig).
    unfold ComponentsLe; cbn [X Y Z].
    repeat split; apply Remap_between; try assumption; lra.
  - rewrite ConditionInertia_unchanged by tauto.
    unfold ComponentsLe; repeat split; lra.
Qed.

(** X7: in exact arithmetic, for a maximum inertia ratio of at least 1 and a
    well-formed pair, conditioning never makes a body lighter or easier to
    turn: no inverse mass and no component of an inverse inertia is larger on
    return than on entry, and a dynamic body stays dynamic. *)
Theorem conditioning_never_lightens
    (In : FInvMassInertia) (MinRatio MaxRatio : R) :
  1 <= MaxRatio -> WellFormedPair In ->
  let Out := ConditionInverseMassAndInertia In MinRatio MaxRatio in
  InvMParent Out <= InvMParent In /\
  InvMChild Out <= InvMChild In /\
  ComponentsLe (InvIParent Out) (InvIParent In) /\
  ComponentsLe (InvIChild Out) (InvIChild In) /\
  (0 < InvMParent In -> 0 < InvMParent Out) /\
  (0 < InvMChild In -> 0 < InvMChild Out).
Proof.
  intros Hr [HwP HwC] Out; subst Out.
  assert (Hrefl : forall v, ComponentsLe v v)
    by (intros v; unfold ComponentsLe; repeat split; lra).
  destruct (Rlt_dec 0 (InvMParent In)) as [HP | HP];
    destruct (Rlt_dec 0 (InvMChild In)) as [HC | HC].
  - rewrite Condition_both_dynamic by assumption;
      cbn [InvMParent InvMChild InvIParent InvIChild].
    assert (HMP : 0 < 1 / InvMParent In) by (apply Rdiv_lt_0_compat; lra).
    pose proof (ConditionParentMass_ge (1 / InvMParent In) (1 / InvMChild In) MinRatio HMP)
      as Hge.
    destruct (conditioned_own_raised _ _ Hr (HwP HP)) as [HraiseP HposP].
    destruct (conditioned_own_raised _ _ Hr (HwC HC)) as [HraiseC HposC].
    destruct (ConditionParentInertia_factor
                (ConditionInertia (Reciprocal (InvIParent In)) MaxRatio)
                (ConditionInertia (Reciprocal (InvIChild In)) MaxRatio) MinRatio)
      as (k & Hk & ->).
    split; [apply reciprocal_of_raised; assumption |].
    split; [right; field; lra |].
    split.
    { apply Reciprocal_of_raised; [apply HwP; assumption |].
      eapply ComponentsLe_trans; [exact HraiseP |].
      apply ComponentsLe_scale; assumption. }
    split; [apply Reciprocal_of_raised; [apply HwC |]; assumption |].
    split; intros _.
    + apply Rdiv_lt_0_compat; lra.
    + replace (1 / (1 / InvMChild In)) with (InvMChild In) by (field; lra); assumption.
  - rewrite Condition_parent_dynamic by lra;
      cbn [InvMParent InvMChild InvIParent InvIChild].
    destruct (conditioned_own_raised _ _ Hr (HwP HP)) as [HraiseP HposP].
    split; [right; field; lra |].
    split; [lra |].
    split; [apply Reciprocal_of_raised; [apply HwP |]; assumption |].
    split; [apply Hrefl |].
    split; [intros _ | intros Hc; lra].
    replace (1 / (1 / InvMParent In)) with (InvMParent In) by (field; lra); assumption.
  - rewrite Condition_child_dynamic by lra;
      cbn [InvMParent InvMChild InvIParent InvIChild].
    destruct (conditioned_own_raised _ _ Hr (HwC HC)) as [HraiseC HposC].
    split; [lra |].
    split; [right; field; lra |].
    split; [apply Hrefl |].
    split; [apply Reciprocal_of_raised; [apply HwC |]; assumption |].
    split; [intros Hp; lra | intros _].
    replace (1 / (1 / InvMChild In)) with (InvMChild In) by (field; lra); assumption.
  - rewrite Condition_none_dynamic by lra.
    repeat split; try lra; apply Hrefl.
Qed.

Lemma LightParentHeavyChild_well_formed : WellFormedPair LightParentHeavyChild.
Proof.
  destruct LightParentHeavyChild_positive as [HP HC]; split; intros _; assumption.
Qed.

Lemma conditioning_never_lightens_witness :
  InvMParent (ConditionInverseMassAndInertia LightParentHeavyChild (1 / 2) 10)
    <= InvMParent LightParentHeavyChild /\
  ComponentsLe
    (InvIParent (ConditionInverseMassAndInertia LightParentHeavyChild (1 / 2) 10))
    (InvIParent LightParentHeavyChild).
Proof.
  destruct (conditioning_never_lightens LightParentHeavyChild (1 / 2) 10)
    as (H1 & _ & H3 & _).
  - lra.
  - apply LightParentHeavyChild_well_formed.
  - split; assumption.
Defined.

(** ** The composite conditioner as a projection *)

Lemma ConditionParentMass_idempotent (MParent MChild MinRatio : R) :
  ConditionParentMass (ConditionParentMass MParent MChild MinRatio) MChild MinRatio
  = ConditionParentMass MParent MChild MinRatio.
Proof.
  destruct (Rlt_dec 0 MinRatio) as [Hr | Hr];
    [destruct (Rlt_dec 0 MParent) as [HP | HP];
       [destruct (Rlt_dec 0 MChild) as [HC | HC] |] |].
  - destruct (ConditionParentMass_ratio _ _ _ Hr HP HC) as [Hpos Hratio].
    set (M := ConditionParentMass MParent MChild MinRatio) in *.
    unfold ConditionParentMass at 1.
    rewrite (Rgtb_true MinRatio 0), (Rgtb_true M 0), (Rgtb_true MChild 0)
      by assumption; cbn [andb].
    rewrite Rltb_false by assumption; reflexivity.
  - assert (Heq : ConditionParentMass MParent MChild MinRatio = MParent).
    { unfold ConditionParentMass; rewrite (Rgtb_false MChild 0) by lra.
      rewrite andb_false_r; reflexivity. }
    rewrite Heq; exact Heq.
  - assert (Heq : ConditionParentMass MParent MChild MinRatio = MParent).
    { unfold ConditionParentMass; rewrite (Rgtb_false MParent 0) by lra.
      rewrite andb_false_r; reflexivity. }
    rewrite Heq; exact Heq.
  - assert (Heq : forall m, ConditionParentMass m MChild MinRatio = m).
    { intros m; unfold ConditionParentMass; rewrite (Rgtb_false MinRatio 0) by lra.
      reflexivity. }
    rewrite !Heq; reflexivity.
Qed.

Lemma ConditionParentInertia_idempotent (IParent IChild : FVec3) (MinRatio : R) :
  ConditionParentInertia (ConditionParentInertia IParent IChild MinRatio) IChild MinRatio
  = ConditionParentInertia IParent IChild MinRatio.
Proof.
  destruct (Rlt_dec 0 MinRatio) as [Hr | Hr];
    [destruct (Rlt_dec 0 (Vec3.Max IParent)) as [HP | HP];
       [destruct (Rlt_dec 0 (Vec3.Max IChild)) as [HC | HC] |] |].
  - pose proof (ConditionParentInertia_ratio _ _ _ Hr HP HC) as Hratio.
    set (P := ConditionParentInertia IParent IChild MinRatio) in *.
    unfold ConditionParentInertia at 1.
    rewrite (Rgtb_true MinRatio 0) by assumption.
    destruct (Vec3.Max P >? 0), (Vec3.Max IChild >? 0); cbn [andb]; try reflexivity.
    rewrite Rltb_false by assumption; reflexivity.
  - assert (Heq : forall p, ConditionParentInertia p IChild MinRatio = p).
    { intros p; unfold ConditionParentInertia.
      rewrite (Rgtb_false (Vec3.Max IChild) 0) by lra.
      rewrite andb_false_r; destruct (MinRatio >? 0); reflexivity. }
    rewrite !Heq; reflexivity.
  - assert (Heq : ConditionParentInertia IParent IChild MinRatio = IParent).
    { unfold ConditionParentInertia.
      rewrite (Rgtb_false (Vec3.Max IParent) 0) by lra.
      destruct (MinRatio >? 0); reflexivity. }
    rewrite Heq; exact Heq.
  - assert (Heq : forall p, ConditionParentInertia p IChild MinRatio = p).
    { intros p; unfold ConditionParentInertia.
      rewrite (Rgtb_false MinRatio 0) by lra; reflexivity. }
    rewrite !Heq; reflexivity.
Qed.

Lemma Reciprocal_twice_positive (v : FVec3) :
  PositiveComponents v -> Reciprocal (Reciprocal v) = v.
Proof. intros (Hx & Hy & Hz); apply Reciprocal_involutive; lra. Qed.

(** X8: in exact arithmetic, for a maximum inertia ratio of at least 1 and a
    well-formed pair, conditioning is idempotent: the values returned by one
    call are returned unchanged by a second call with the same ratios. *)
Theorem conditioning_idempotent
    (In : FInvMassInertia) (MinRatio MaxRatio : R) :
  1 <= MaxRatio -> WellFormedPair In ->
  ConditionInverseMassAndInertia
    (ConditionInverseMassAndInertia In MinRatio MaxRatio) MinRatio MaxRatio
  = ConditionInverseMassAndInertia In MinRatio MaxRatio.
Proof.
  intros Hr [HwP HwC].
  destruct (Rlt_dec 0 (InvMParent In)) as [HP | HP];
    destruct (Rlt_dec 0 (InvMChild In)) as [HC | HC].
  - rewrite (Condition_both_dynamic In) by assumption.
    assert (HMP : 0 < 1 / InvMParent In) by (apply Rdiv_lt_0_compat; lra).
    pose proof (ConditionParentMass_ge (1 / InvMParent In) (1 / InvMChild In) MinRatio HMP)
      as Hge.
    destruct (conditioned_own_raised _ _ Hr (HwP HP)) as [_ HposP].
    destruct (conditioned_own_raised _ _ Hr (HwC HC)) as [_ HposC].
    pose proof (ConditionInertia_bounded _ _ Hr (Reciprocal_positive _ (HwP HP)))
      as [HbP _].
    pose proof (ConditionInertia_bounded _ _ Hr (Reciprocal_positive _ (HwC HC)))
      as [HbC _].
    pose proof (parent_inertia_bounded _
      (ConditionInertia (Reciprocal (InvIChild In)) MaxRatio) MinRatio _ HbP) as HbP'.
    set (M := ConditionParentMass (1 / InvMParent In) (1 / InvMChild In) MinRatio) in *.
    set (C := ConditionInertia (Reciprocal (InvIChild In)) MaxRatio) in *.
    set (P := ConditionParentInertia
                (ConditionInertia (Reciprocal (InvIParent In)) MaxRatio) C MinRatio) in *.
    rewrite Condition_both_dynamic;
      cbn [InvMParent InvMChild InvIParent InvIChild];
      [| apply Rdiv_lt_0_compat; lra
       | apply Rdiv_lt_0_compat; [lra | apply Rdiv_lt_0_compat; lra]].
    rewrite (Reciprocal_twice_bounded _ _ HbP'), (Reciprocal_twice_bounded _ _ HbC).
    rewrite (ConditionInertia_fixed_when_bounded _ _ HbP'),
      (ConditionInertia_fixed_when_bounded _ _ HbC).
    replace (1 / (1 / M)) with M by (field; lra).
    replace (1 / (1 / (1 / InvMChild In))) with (1 / InvMChild In) by (field; lra).
    unfold M at 1, P at 1.
    rewrite ConditionParentMass_idempotent, ConditionParentInertia_idempotent.
    reflexivity.
  - rewrite (Condition_parent_dynamic In) by lra.
    pose proof (ConditionInertia_bounded _ _ Hr (Reciprocal_positive _ (HwP HP)))
      as [HbP _].
    rewrite Condition_parent_dynamic;
      cbn [InvMParent InvMChild InvIParent InvIChild];
      [| apply Rdiv_lt_0_compat; [lra | apply Rdiv_lt_0_compat; lra] | lra].
    rewrite (Reciprocal_twice_bounded _ _ HbP),
      (ConditionInertia_fixed_when_bounded _ _ HbP).
    f_equal; field; lra.
  - rewrite (Condition_child_dynamic In) by lra.
    pose proof (ConditionInertia_bounded _ _ Hr (Reciprocal_positive _ (HwC HC)))
      as [HbC _].
    rewrite Condition_child_dynamic;
      cbn [InvMParent InvMChild InvIParent InvIChild];
      [| lra | apply Rdiv_lt_0_compat; [lra | apply Rdiv_lt_0_compat; lra]].
    rewrite (Reciprocal_twice_bounded _ _ HbC),
      (ConditionInertia_fixed_when_bounded _ _ HbC).
    f_equal; field; lra.
  - rewrite (Condition_none_dynamic In) by lra.
    apply Condition_none_dynamic; lra.
Qed.

Lemma conditioning_idempotent_witness :
  ConditionInverseMassAndInertia
    (ConditionInverseMassAndInertia LightParentHeavyChild (1 / 2) 10) (1 / 2) 10
  = ConditionInverseMassAndInertia LightParentHeavyChild (1 / 2) 10.
Proof.
  apply conditioning_idempotent; [lra | apply LightParentHeavyChild_well_formed].
Defined.

(** ** ConditionInertia does not depend on the unit of inertia *)

(** X22: in exact arithmetic, for a maximum ratio of at least 1,
    conditioning commutes with a change of unit: scaling the inertia by a
    positive factor scales the conditioned inertia by the same factor. *)
Theorem ConditionInertia_homogeneous (InI : FVec3) (MaxRatio k : R) :
  1 <= MaxRatio -> 0 < k ->
  ConditionInertia (Vec3.scale k InI) MaxRatio
  = Vec3.scale k (ConditionInertia InI MaxRatio).
Proof.
  intros Hr Hk.
  assert (HMin : Vec3.Min (Vec3.scale k InI) = k * Vec3.Min InI)
    by (apply Min_scale; lra).
  assert (HMax : Vec3.Max (Vec3.scale k InI) = k * Vec3.Max InI)
    by (apply Max_scale; lra).
  destruct (Rlt_dec 0 (Vec3.Min InI)) as [Hmin | Hmin];
    [destruct (Rlt_dec MaxRatio (Vec3.Max InI / Vec3.Min InI)) as [Hbig | Hsmall] |].
  - pose proof (spread_pos InI MaxRatio Hr Hmin Hbig) as Hs.
    assert (Hmin' : 0 < Vec3.Min (Vec3.scale k InI)) by (rewrite HMin; nra).
    assert (Hbig' : MaxRatio < Vec3.Max (Vec3.scale k InI) / Vec3.Min (Vec3.scale k InI)).
    { rewrite HMin, HMax.
      replace (k * Vec3.Max InI / (k * Vec3.Min InI))
        with (Vec3.Max InI / Vec3.Min InI) by (field; lra).
      assumption. }
    rewrite (ConditionInertia_components _ _ Hr Hmin' Hbig'),
      (ConditionInertia_components _ _ Hr Hmin Hbig), HMin, HMax.
    unfold RemapInertia, FMath.Lerp.
    assert (Hks : 0 < k * Vec3.Max InI - k * Vec3.Min InI) by nra.
    apply vec_eq; simpl; field; repeat split; lra.
  - rewrite (ConditionInertia_unchanged InI) by tauto.
    apply ConditionInertia_unchanged.
    rewrite HMin, HMax; intros (_ & Hm & Hb).
    apply Hsmall.
    replace (k * Vec3.Max InI / (k * Vec3.Min InI))
      with (Vec3.Max InI / Vec3.Min InI) in Hb by (field; lra).
    assumption.
  - rewrite (ConditionInertia_unchanged InI) by tauto.
    apply ConditionInertia_unchanged.
    rewrite HMin; intros (_ & Hm & _); nra.
Qed.

Lemma ConditionInertia_homogeneous_witness :
  ConditionInertia (Vec3.scale 3 (mkVec3 1 1 100)) 10
  = Vec3.scale 3 (ConditionInertia (mkVec3 1 1 100) 10).
Proof. apply ConditionInertia_homogeneous; lra. Defined.

(** ** Rotation by a unit quaternion *)

(** Rotating two vectors changes their dot product by a multiple of
    [|q|² - 1]. *)
Lemma RotateVector_dot_general (q : Quat.FRotation3) (a b : FVec3) :
  Vec3.DotProduct (Quat.RotateVector q a) (Quat.RotateVector q b)
  = Vec3.DotProduct a b
    + (Quat.SizeSquared q - 1)
      * (4 * (Quat.X q * Quat.X q + Quat.Y q * Quat.Y q + Quat.Z q * Quat.Z q)
           * Vec3.DotProduct a b
         - 4 * (Quat.X q * X a + Quat.Y q * Y a + Quat.Z q * Z a)
             * (Quat.X q * X b + Quat.Y q * Y b + Quat.Z q * Z b)).
Proof.
  unfold Vec3.DotProduct, Quat.RotateVector, Quat.SizeSquared; simpl; ring.
Qed.

Lemma RotateVector_dot (q : Quat.FRotation3) (a b : FVec3) :
  Quat.IsNormalized q ->
  Vec3.DotProduct (Quat.RotateVector q a) (Quat.RotateVector q b)
  = Vec3.DotProduct a b.
Proof.
  intros Hunit; rewrite RotateVector_dot_general, Hunit; ring.
Qed.

(** A vector is the sum of its components along the three frame axes. *)
Lemma frame_complete (q : Quat.FRotation3) (v : FVec3) :
  Quat.IsNormalized q ->
  v = Vec3.add
        (Vec3.add
           (Vec3.scale (Vec3.DotProduct v (Quat.RotateVector q (mkVec3 1 0 0)))
              (Quat.RotateVector q (mkVec3 1 0 0)))
           (Vec3.scale (Vec3.DotProduct v (Quat.RotateVector q (mkVec3 0 1 0)))
              (Quat.RotateVector q (mkVec3 0 1 0))))
        (Vec3.scale (Vec3.DotProduct v (Quat.RotateVector q (mkVec3 0 0 1)))
           (Quat.RotateVector q (mkVec3 0 0 1))).
Proof.
  intros Hunit; unfold Quat.IsNormalized in Hunit.
  set (Q2 := Quat.X q * Quat.X q + Quat.Y q * Quat.Y q + Quat.Z q * Quat.Z q).
  set (Qv := Quat.X q * X v + Quat.Y q * Y v + Quat.Z q * Z v).
  apply vec_eq; unfold Vec3.DotProduct, Quat.RotateVector; simpl.
  - match goal with |- _ = ?rhs =>
      replace rhs
        with (X v + (Quat.SizeSquared q - 1) * (4 * Q2 * X v - 4 * Qv * Quat.X q))
        by (unfold Quat.SizeSquared, Q2, Qv; ring)
    end.
    rewrite Hunit; ring.
  - match goal with |- _ = ?rhs =>
      replace rhs
        with (Y v + (Quat.SizeSquared q - 1) * (4 * Q2 * Y v - 4 * Qv * Quat.Y q))
        by (unfold Quat.SizeSquared, Q2, Qv; ring)
    end.
    rewrite Hunit; ring.
  - match goal with |- _ = ?rhs =>
      replace rhs
        with (Z v + (Quat.SizeSquared q - 1) * (4 * Q2 * Z v - 4 * Qv * Quat.Z q))
        by (unfold Quat.SizeSquared, Q2, Qv; ring)
    end.
    rewrite Hunit; ring.
Qed.

Lemma KINDA_SMALL_NUMBER_pos : 0 < KINDA_SMALL_NUMBER.
Proof. unfold KINDA_SMALL_NUMBER; lra. Qed.


(** ** The line limit *)

(** X9: for a non-negative limit and an axis that is not free, the line limit
    takes away from the error its part along the axis, clamped to the range
    from [-Limit] to [Limit]; for a free axis it takes away the whole part
    along the axis.  In both cases the error across the axis is untouched,
    and for a unit axis what is left along the axis is the excess
    [d - Clamp d (-Limit) Limit] (0 on a free axis). *)
Theorem LineLimitedPositionError_clamps
    (CX Axis : FVec3) (Limit : R) (AxisMotion : EJointMotionType) :
  let d := Vec3.DotProduct CX Axis in
  let Out := GetLineLimitedPositionError CX Axis Limit AxisMotion in
  (AxisMotion = Free -> Out = Vec3.sub CX (Vec3.scale d Axis)) /\
  (AxisMotion <> Free -> 0 <= Limit ->
     Out = Vec3.sub CX (Vec3.scale (Clamp d (- Limit) Limit) Axis)) /\
  (forall Other : FVec3, Vec3.DotProduct Axis Other = 0 ->
     Vec3.DotProduct Out Other = Vec3.DotProduct CX Other) /\
  (Vec3.DotProduct Axis Axis = 1 -> AxisMotion <> Free -> 0 <= Limit ->
     Vec3.DotProduct Out Axis = d - Clamp d (- Limit) Limit).
Proof.
  intros d Out.
  assert (Hfree : AxisMotion = Free -> Out = Vec3.sub CX (Vec3.scale d Axis)).
  { intros ->; reflexivity. }
  assert (Hclamp : AxisMotion <> Free -> 0 <= Limit ->
                   Out = Vec3.sub CX (Vec3.scale (Clamp d (- Limit) Limit) Axis)).
  { intros Hm HL; subst Out; unfold GetLineLimitedPositionError; fold d.
    assert (Hb : motion_eqb AxisMotion Free = false)
      by (destruct AxisMotion; [elim Hm |..]; reflexivity).
    rewrite Hb; cbn [orb]; unfold Clamp.
    destruct (Rltb_spec (Rabs d) Limit) as [Hin | Hout].
    - apply Rabs_def2 in Hin.
      rewrite (Rltb_false d (- Limit)), (Rltb_true d Limit) by lra; reflexivity.
    - destruct (Rgeb_spec d Limit) as [Hhi | Hlo].
      + rewrite (Rltb_false d (- Limit)), (Rltb_false d Limit) by lra; reflexivity.
      + assert (Hd : d <= - Limit).
        { destruct (Rle_dec d (- Limit)) as [H | H]; [assumption |].
          elim Hout; apply Rabs_def1; lra. }
        destruct (Rltb_spec d (- Limit)) as [Hlt | Heq].
        * apply vec_eq; simpl; ring.
        * rewrite Rltb_true by lra.
          replace d with (- Limit) by lra.
          apply vec_eq; simpl; ring. }
  split; [exact Hfree |]. split; [exact Hclamp |]. split.
  - intros Other Horth; subst Out; unfold GetLineLimitedPositionError.
    destruct (motion_eqb AxisMotion Free || (Rabs (Vec3.DotProduct CX Axis) <? Limit));
      [| destruct (Vec3.DotProduct CX Axis >=? Limit)];
      rewrite ?DotProduct_sub_scale, ?DotProduct_add_scale, Horth; ring.
  - intros Hunit Hm HL.
    rewrite (Hclamp Hm HL), DotProduct_sub_scale, Hunit; fold d; ring.
Qed.

Lemma LineLimitedPositionError_clamps_witness :
  GetLineLimitedPositionError (mkVec3 5 7 0) (mkVec3 1 0 0) 2 Limited
  = Vec3.sub (mkVec3 5 7 0)
      (Vec3.scale (Clamp (Vec3.DotProduct (mkVec3 5 7 0) (mkVec3 1 0 0)) (- 2) 2)
         (mkVec3 1 0 0)).
Proof.
  destruct (LineLimitedPositionError_clamps (mkVec3 5 7 0) (mkVec3 1 0 0) 2 Limited)
    as (_ & H & _).
  apply H; [discriminate | lra].
Defined.

(** ** The cylinder limit *)

Lemma SizeSquared_dot (v : FVec3) : Vec3.SizeSquared v = Vec3.DotProduct v v.
Proof. reflexivity. Qed.

(** The in-plane part of the error, clipped as the cylinder limit clips it. *)
Lemma Cylinder_decomposes (InCX Axis : FVec3) (Limit : R) (AxisMotion : EJointMotionType) :
  exists a k : R,
    (a = 0 \/ a = Vec3.DotProduct InCX Axis) /\
    (AxisMotion = Free -> a = 0) /\
    (AxisMotion <> Free -> a = Vec3.DotProduct InCX Axis) /\
    (0 <= Limit -> 0 <= k <= 1) /\
    GetCylinderLimitedPositionError InCX Axis Limit AxisMotion
    = Vec3.add (Vec3.scale a Axis)
        (Vec3.scale k (Vec3.sub InCX (Vec3.scale (Vec3.DotProduct InCX Axis) Axis))).
Proof.
  unfold GetCylinderLimitedPositionError; cbv zeta.
  set (d := Vec3.DotProduct InCX Axis).
  set (Plane := Vec3.sub InCX (Vec3.scale d Axis)).
  pose proof KINDA_SMALL_NUMBER_pos as Hsmall.
  exists (if motion_eqb AxisMotion Free then 0 else d).
  exists (if Vec3.Size Plane <? Limit then 0
          else if Vec3.Size Plane >? KINDA_SMALL_NUMBER
               then 1 - Limit / Vec3.Size Plane else 1).
  split; [destruct (motion_eqb AxisMotion Free); auto |].
  split; [intros ->; reflexivity |].
  split; [intros Hm; destruct AxisMotion; [elim Hm |..]; reflexivity |].
  split.
  - intros HL.
    destruct (Rltb_spec (Vec3.Size Plane) Limit) as [Hin | Hout]; [lra |].
    destruct (Rgtb_spec (Vec3.Size Plane) KINDA_SMALL_NUMBER) as [Hbig | Htiny]; [| lra].
    assert (Hq : 0 <= Limit / Vec3.Size Plane <= 1).
    { split; [apply Rmult_le_pos; [lra | left; apply Rinv_0_lt_compat; lra] |].
      apply ratio_le_iff; lra. }
    lra.
  - destruct (motion_eqb AxisMotion Free);
      destruct (Rltb_spec (Vec3.Size Plane) Limit);
      try destruct (Rgtb_spec (Vec3.Size Plane) KINDA_SMALL_NUMBER);
      apply vec_eq; simpl; unfold Rdiv; ring.
Qed.



(** ** The projection error as a whole *)

(** X11: for a unit quaternion [R0], a joint whose three linear axes are
    all free after the soft-limit downgrade (free, or limited with soft limits
    enabled) has no projection error at all: the result is the zero vector. *)
Theorem LimitedPositionError_all_free
    (J : JointSettings.FPBDJointSettings) (R0 : Quat.FRotation3) (CX : FVec3) :
  Quat.IsNormalized R0 ->
  EffectiveMotion J = mkTVector3 Free Free Free ->
  GetLimitedPositionError J R0 CX = mkVec3 0 0 0.
Proof.
  intros Hunit Hfree.
  rewrite (frame_complete R0 (GetLimitedPositionError J R0 CX) Hunit).
  unfold GetLimitedPositionError; cbv zeta.
  rewrite Hfree; cbn [at0 at1 at2 motion_eqb andb negb].
  set (AxisX := Quat.RotateVector R0 (mkVec3 1 0 0)).
  set (AxisY := Quat.RotateVector R0 (mkVec3 0 1 0)).
  set (AxisZ := Quat.RotateVector R0 (mkVec3 0 0 1)).
  set (L := JointSettings.LinearLimit J).
  set (Out := GetLineLimitedPositionError
                (GetLineLimitedPositionError
                   (GetLineLimitedPositionError CX AxisX L Free) AxisY L Free)
                AxisZ L Free).
  assert (HX : Vec3.DotProduct Out AxisX = 0)
    by (unfold Out, AxisX, AxisY, AxisZ; free_axis_perp Hunit).
  assert (HY : Vec3.DotProduct Out AxisY = 0)
    by (unfold Out, AxisX, AxisY, AxisZ; free_axis_perp Hunit).
  assert (HZ : Vec3.DotProduct Out AxisZ = 0)
    by (unfold Out, AxisX, AxisY, AxisZ; free_axis_perp Hunit).
  rewrite HX, HY, HZ.
  apply vec_eq; simpl; ring.
Qed.

Lemma LimitedPositionError_all_free_witness :
  GetLimitedPositionError JointAllFree Quat.Identity (mkVec3 1 2 3) = mkVec3 0 0 0.
Proof.
  apply LimitedPositionError_all_free; [apply Identity_unit | reflexivity].
Defined.

Lemma SizeSquared_sub_scale (v a : FVec3) (c : R) :
  Vec3.SizeSquared (Vec3.sub v (Vec3.scale c a))
  = Vec3.SizeSquared v - 2 * c * Vec3.DotProduct v a
    + c * c * Vec3.DotProduct a a.
Proof. unfold Vec3.SizeSquared, Vec3.DotProduct; simpl; ring. Qed.

Lemma Line_shrinks (CX Axis : FVec3) (Limit bound : R) (AxisMotion : EJointMotionType) :
  Vec3.DotProduct Axis Axis = 1 -> 0 <= Limit ->
  Vec3.SizeSquared CX <= bound ->
  Vec3.SizeSquared (GetLineLimitedPositionError CX Axis Limit AxisMotion) <= bound.
Proof.
  intros Hunit HL Hb.
  apply Rle_trans with (Vec3.SizeSquared CX); [| assumption].
  unfold GetLineLimitedPositionError; cbv zeta.
  set (d := Vec3.DotProduct CX Axis).
  destruct (motion_eqb AxisMotion Free || (Rabs d <? Limit)) eqn:Hfirst.
  - rewrite SizeSquared_sub_scale, Hunit; fold d; nra.
  - apply orb_false_elim in Hfirst; destruct Hfirst as [_ Hout].
    destruct (Rltb_spec (Rabs d) Limit) as [| Hout']; [discriminate |].
    destruct (Rgeb_spec d Limit) as [Hhi | Hlo].
    + rewrite SizeSquared_sub_scale, Hunit; fold d; nra.
    + assert (Hd : d <= - Limit).
      { destruct (Rle_dec d (- Limit)) as [H | H]; [assumption |].
        elim Hout'; apply Rabs_def1; lra. }
      replace (Vec3.add CX (Vec3.scale Limit Axis))
        with (Vec3.sub CX (Vec3.scale (- Limit) Axis))
        by (apply vec_eq; simpl; ring).
      rewrite SizeSquared_sub_scale, Hunit; fold d; nra.
Qed.

Lemma Cylinder_shrinks (InCX Axis : FVec3) (Limit : R) (AxisMotion : EJointMotionType) :
  Vec3.DotProduct Axis Axis = 1 -> 0 <= Limit ->
  Vec3.SizeSquared (GetCylinderLimitedPositionError InCX Axis Limit AxisMotion)
  <= Vec3.SizeSquared InCX.
Proof.
  intros Hunit HL.
  destruct (Cylinder_decomposes InCX Axis Limit AxisMotion)
    as (a & k & Ha & _ & _ & Hk & ->).
  specialize (Hk HL).
  set (d := Vec3.DotProduct InCX Axis) in *.
  set (Plane := Vec3.sub InCX (Vec3.scale d Axis)).
  assert (Hperp : Vec3.DotProduct Plane Axis = 0)
    by (unfold Plane; rewrite DotProduct_sub_scale, Hunit; fold d; ring).
  assert (Hout : Vec3.SizeSquared (Vec3.add (Vec3.scale a Axis) (Vec3.scale k Plane))
                 = a * a * Vec3.DotProduct Axis Axis
                   + 2 * a * k * Vec3.DotProduct Plane Axis
                   + k * k * Vec3.SizeSquared Plane)
    by (unfold Vec3.SizeSquared, Vec3.DotProduct; simpl; ring).
  assert (Hin : Vec3.SizeSquared InCX
                = d * d * Vec3.DotProduct Axis Axis
                  + 2 * d * Vec3.DotProduct Plane Axis
                  + Vec3.SizeSquared Plane)
    by (unfold Plane, Vec3.SizeSquared, Vec3.DotProduct; simpl; ring).
  rewrite Hout, Hin, Hunit, Hperp.
  pose proof (SizeSquared_nonneg Plane) as Hp.
  assert (Ha2 : a * a <= d * d) by (destruct Ha as [-> | ->]; nra).
  assert (Hk2 : k * k <= 1) by nra.
  nra.
Qed.

Lemma Sphere_shrinks (CX : FVec3) (Radius : R) :
  0 <= Radius ->
  Vec3.SizeSquared (GetSphereLimitedPositionError CX Radius) <= Vec3.SizeSquared CX.
Proof.
  intros HR; unfold GetSphereLimitedPositionError; cbv zeta.
  pose proof (SizeSquared_nonneg CX) as Hnn.
  pose proof SMALL_NUMBER_pos as Hsmall.
  destruct (Rltb_spec (Vec3.Size CX) Radius) as [Hin | Hout].
  - unfold Vec3.SizeSquared at 1; simpl; lra.
  - destruct (Rgtb_spec (Vec3.Size CX) SMALL_NUMBER) as [Hbig | Htiny]; [| lra].
    rewrite clip_is_scale.
    set (k := 1 - Radius / Vec3.Size CX).
    assert (Hq : 0 <= Radius / Vec3.Size CX <= 1).
    { split; [apply Rmult_le_pos; [lra | left; apply Rinv_0_lt_compat; lra] |].
      apply ratio_le_iff; lra. }
    replace (Vec3.SizeSquared (Vec3.scale k CX)) with (k * k * Vec3.SizeSquared CX)
      by (unfold Vec3.SizeSquared; simpl; ring).
    assert (Hk2 : k * k <= 1) by (unfold k; nra).
    nra.
Qed.

(** X12: for a unit quaternion [R0] and a non-negative linear limit, the
    projection error is never longer than the raw error, whatever the three
    motion types are. *)
Theorem LimitedPositionError_never_longer
    (J : JointSettings.FPBDJointSettings) (R0 : Quat.FRotation3) (CX : FVec3) :
  Quat.IsNormalized R0 -> 0 <= JointSettings.LinearLimit J ->
  Vec3.Size (GetLimitedPositionError J R0 CX) <= Vec3.Size CX.
Proof.
  intros Hunit HL; unfold Vec3.Size; apply sqrt_le_1_alt.
  unfold GetLimitedPositionError; cbv zeta.
  pose proof (AxisX_unit R0 Hunit) as HX.
  pose proof (AxisY_unit R0 Hunit) as HY.
  pose proof (AxisZ_unit R0 Hunit) as HZ.
  destruct (EffectiveMotion J) as [m0 m1 m2]; cbn [at0 at1 at2].
  destruct m0, m1, m2; cbn [motion_eqb andb negb];
    repeat first
      [ apply Rle_refl
      | apply Sphere_shrinks; assumption
      | apply Cylinder_shrinks; assumption
      | apply Line_shrinks; [assumption | assumption |] ].
Qed.

Lemma LimitedPositionError_never_longer_witness :
  Vec3.Size (GetLimitedPositionError JointHardLimitedXY Quat.Identity (mkVec3 5 7 3))
  <= Vec3.Size (mkVec3 5 7 3).
Proof.
  apply LimitedPositionError_never_longer; [apply Identity_unit | simpl; lra].
Defined.

(** ** The locked axes *)

Lemma GetLockedAxes_regular (R0 R1 : Quat.FRotation3) :
  SMALL_NUMBER <= Rabs (QuatDot R0 R1) ->
  GetLockedAxes R0 R1
  = (Vec3.scale (1 / 2)
       (mkVec3 (2 * Quat.X R0 * Quat.X R1 + (Quat.W R0 * Quat.W R1
                  - (Quat.X R0 * Quat.X R1 + Quat.Y R0 * Quat.Y R1 + Quat.Z R0 * Quat.Z R1)))
               (Quat.X R1 * Quat.Y R0 + Quat.X R0 * Quat.Y R1
                  + (Quat.W R0 * Quat.Z R1 + Quat.W R1 * Quat.Z R0))
               (Quat.X R1 * Quat.Z R0 + Quat.X R0 * Quat.Z R1
                  - (Quat.W R0 * Quat.Y R1 + Quat.W R1 * Quat.Y R0))),
     Vec3.scale (1 / 2)
       (mkVec3 (Quat.Y R1 * Quat.X R0 + Quat.Y R0 * Quat.X R1
                  - (Quat.W R0 * Quat.Z R1 + Quat.W R1 * Quat.Z R0))
               (2 * Quat.Y R0 * Quat.Y R1 + (Quat.W R0 * Quat.W R1
                  - (Quat.X R0 * Quat.X R1 + Quat.Y R0 * Quat.Y R1 + Quat.Z R0 * Quat.Z R1)))
               (Quat.Y R1 * Quat.Z R0 + Quat.Y R0 * Quat.Z R1
                  + (Quat.W R0 * Quat.X R1 + Quat.W R1 * Quat.X R0))),
     Vec3.scale (1 / 2)
       (mkVec3 (Quat.Z R1 * Quat.X R0 + Quat.Z R0 * Quat.X R1
                  + (Quat.W R0 * Quat.Y R1 + Quat.W R1 * Quat.Y R0))
               (Quat.Z R1 * Quat.Y R0 + Quat.Z R0 * Quat.Y R1
                  - (Quat.W R0 * Quat.X R1 + Quat.W R1 * Quat.X R0))
               (2 * Quat.Z R0 * Quat.Z R1 + (Quat.W R0 * Quat.W R1
                  - (Quat.X R0 * Quat.X R1 + Quat.Y R0 * Quat.Y R1 + Quat.Z R0 * Quat.Z R1))))).
Proof.
  intros Hreg; unfold GetLockedAxes; cbv zeta.
  replace (Quat.W R0 * Quat.W R1
           + Vec3.DotProduct (mkVec3 (Quat.X R0) (Quat.Y R0) (Quat.Z R0))
               (mkVec3 (Quat.X R1) (Quat.Y R1) (Quat.Z R1)))
    with (QuatDot R0 R1) by (unfold QuatDot, Vec3.DotProduct; simpl; ring).
  rewrite Rltb_false by assumption.
  repeat f_equal; apply vec_eq; unfold Vec3.DotProduct; simpl; ring.
Qed.

(** X13: away from the degenerate case (the four-dimensional dot product of
    the two quaternions at least [SMALL_NUMBER] in absolute value) the scalar
    triple product of the three locked axes is that dot product times the two
    squared norms, over 8; so for unit quaternions it is the dot product over
    8, which is not zero: the three axes are linearly independent. *)
Theorem GetLockedAxes_triple_product (R0 R1 : Quat.FRotation3) :
  SMALL_NUMBER <= Rabs (QuatDot R0 R1) ->
  let Axes := GetLockedAxes R0 R1 in
  TripleProduct (fst (fst Axes)) (snd (fst Axes)) (snd Axes)
  = QuatDot R0 R1 * Quat.SizeSquared R0 * Quat.SizeSquared R1 / 8 /\
  (Quat.IsNormalized R0 -> Quat.IsNormalized R1 ->
     TripleProduct (fst (fst Axes)) (snd (fst Axes)) (snd Axes) = QuatDot R0 R1 / 8 /\
     TripleProduct (fst (fst Axes)) (snd (fst Axes)) (snd Axes) <> 0).
Proof.
  intros Hreg Axes; subst Axes.
  rewrite (GetLockedAxes_regular R0 R1 Hreg); cbn [fst snd].
  assert (Hgen : TripleProduct
                   (Vec3.scale (1 / 2)
                      (mkVec3 (2 * Quat.X R0 * Quat.X R1 + (Quat.W R0 * Quat.W R1
                                 - (Quat.X R0 * Quat.X R1 + Quat.Y R0 * Quat.Y R1 + Quat.Z R0 * Quat.Z R1)))
                              (Quat.X R1 * Quat.Y R0 + Quat.X R0 * Quat.Y R1
                                 + (Quat.W R0 * Quat.Z R1 + Quat.W R1 * Quat.Z R0))
                              (Quat.X R1 * Quat.Z R0 + Quat.X R0 * Quat.Z R1
                                 - (Quat.W R0 * Quat.Y R1 + Quat.W R1 * Quat.Y R0))))
                   (Vec3.scale (1 / 2)
                      (mkVec3 (Quat.Y R1 * Quat.X R0 + Quat.Y R0 * Quat.X R1
                                 - (Quat.W R0 * Quat.Z R1 + Quat.W R1 * Quat.Z R0))
                              (2 * Quat.Y R0 * Quat.Y R1 + (Quat.W R0 * Quat.W R1
                                 - (Quat.X R0 * Quat.X R1 + Quat.Y R0 * Quat.Y R1 + Quat.Z R0 * Quat.Z R1)))
                              (Quat.Y R1 * Quat.Z R0 + Quat.Y R0 * Quat.Z R1
                                 + (Quat.W R0 * Quat.X R1 + Quat.W R1 * Quat.X R0))))
                   (Vec3.scale (1 / 2)
                      (mkVec3 (Quat.Z R1 * Quat.X R0 + Quat.Z R0 * Quat.X R1
                                 + (Quat.W R0 * Quat.Y R1 + Quat.W R1 * Quat.Y R0))
                              (Quat.Z R1 * Quat.Y R0 + Quat.Z R0 * Quat.Y R1
                                 - (Quat.W R0 * Quat.X R1 + Quat.W R1 * Quat.X R0))
                              (2 * Quat.Z R0 * Quat.Z R1 + (Quat.W R0 * Quat.W R1
                                 - (Quat.X R0 * Quat.X R1 + Quat.Y R0 * Quat.Y R1 + Quat.Z R0 * Quat.Z R1)))))
                 = QuatDot R0 R1 * Quat.SizeSquared R0 * Quat.SizeSquared R1 / 8).
  { unfold TripleProduct, Vec3.DotProduct, Vec3.CrossProduct, QuatDot, Quat.SizeSquared.
    simpl; field. }
  split; [exact Hgen |].
  intros H0 H1; rewrite Hgen, H0, H1.
  split; [field |].
  pose proof SMALL_NUMBER_pos as Hs.
  intros Hzero.
  assert (Hdot : QuatDot R0 R1 = 0) by lra.
  rewrite Hdot, Rabs_R0 in Hreg; lra.
Qed.

Lemma GetLockedAxes_triple_product_witness :
  TripleProduct (fst (fst (GetLockedAxes Quat.Identity Quat.Identity)))
    (snd (fst (GetLockedAxes Quat.Identity Quat.Identity)))
    (snd (GetLockedAxes Quat.Identity Quat.Identity))
  = QuatDot Quat.Identity Quat.Identity / 8.
Proof.
  assert (Hreg : SMALL_NUMBER <= Rabs (QuatDot Quat.Identity Quat.Identity)).
  { unfold QuatDot; simpl.
    replace (1 * 1 + 0 * 0 + 0 * 0 + 0 * 0) with 1 by ring.
    rewrite Rabs_R1; unfold SMALL_NUMBER; lra. }
  destruct (GetLockedAxes_triple_product Quat.Identity Quat.Identity Hreg) as [_ H].
  destruct (H Identity_unit Identity_unit) as [Heq _]; exact Heq.
Defined.

Lemma QuatDot_self (q : Quat.FRotation3) : QuatDot q q = Quat.SizeSquared q.
Proof. unfold QuatDot, Quat.SizeSquared; ring. Qed.

(** X14: for two equal unit orientations the three locked axes are the three
    frame axes of the body, each scaled by one half. *)
Theorem GetLockedAxes_equal_orientations (R0 : Quat.FRotation3) :
  Quat.IsNormalized R0 ->
  GetLockedAxes R0 R0
  = (Vec3.scale (1 / 2) (Quat.RotateVector R0 (mkVec3 1 0 0)),
     Vec3.scale (1 / 2) (Quat.RotateVector R0 (mkVec3 0 1 0)),
     Vec3.scale (1 / 2) (Quat.RotateVector R0 (mkVec3 0 0 1))).
Proof.
  intros Hunit.
  assert (Hreg : SMALL_NUMBER <= Rabs (QuatDot R0 R0)).
  { rewrite QuatDot_self, Hunit, Rabs_R1; unfold SMALL_NUMBER; lra. }
  rewrite (GetLockedAxes_regular R0 R0 Hreg).
  unfold Quat.IsNormalized, Quat.SizeSquared in Hunit.
  assert (HW : Quat.W R0 * Quat.W R0
               = 1 - Quat.X R0 * Quat.X R0 - Quat.Y R0 * Quat.Y R0 - Quat.Z R0 * Quat.Z R0)
    by lra.
  repeat f_equal; apply vec_eq; unfold Quat.RotateVector; simpl;
    try ring; rewrite HW; ring.
Qed.

Lemma GetLockedAxes_equal_orientations_witness :
  GetLockedAxes Quat.Identity Quat.Identity
  = (Vec3.scale (1 / 2) (Quat.RotateVector Quat.Identity (mkVec3 1 0 0)),
     Vec3.scale (1 / 2) (Quat.RotateVector Quat.Identity (mkVec3 0 1 0)),
     Vec3.scale (1 / 2) (Quat.RotateVector Quat.Identity (mkVec3 0 0 1))).
Proof. apply GetLockedAxes_equal_orientations; apply Identity_unit. Defined.

(** ** The single-swing extractors *)

Lemma Lagrange_identity (a b : FVec3) :
  Vec3.SizeSquared (Vec3.CrossProduct a b) + Vec3.DotProduct a b * Vec3.DotProduct a b
  = Vec3.DotProduct a a * Vec3.DotProduct b b.
Proof. unfold Vec3.SizeSquared, Vec3.DotProduct, Vec3.CrossProduct; simpl; ring. Qed.

Lemma CrossProduct_perp_l (a b : FVec3) :
  Vec3.DotProduct (Vec3.CrossProduct a b) a = 0.
Proof. unfold Vec3.DotProduct, Vec3.CrossProduct; simpl; ring. Qed.

Lemma CrossProduct_perp_r (a b : FVec3) :
  Vec3.DotProduct (Vec3.CrossProduct a b) b = 0.
Proof. unfold Vec3.DotProduct, Vec3.CrossProduct; simpl; ring. Qed.

Lemma TwistAxis_unit :
  Vec3.DotProduct FJointConstants.TwistAxis FJointConstants.TwistAxis = 1.
Proof. unfold Vec3.DotProduct; simpl; ring. Qed.

Section SwingExtractorFacts.

Variable OtherSwingAxis : EJointAngularConstraintIndex -> FVec3.
Variables R0 R1 : Quat.FRotation3.
Variable Index : EJointAngularConstraintIndex.

Hypothesis R0_unit : Quat.IsNormalized R0.
Hypothesis R1_unit : Quat.IsNormalized R1.
Hypothesis Other_unit :
  Vec3.DotProduct (OtherSwingAxis Index) (OtherSwingAxis Index) = 1.

Let Twist1 := Quat.RotateVector R1 FJointConstants.TwistAxis.
Let Swing0 := Quat.RotateVector R0 (OtherSwingAxis Index).

Lemma Twist1_unit : Vec3.DotProduct Twist1 Twist1 = 1.
Proof. unfold Twist1; rewrite RotateVector_dot by assumption; apply TwistAxis_unit. Qed.

Lemma Swing0_unit : Vec3.DotProduct Swing0 Swing0 = 1.
Proof. unfold Swing0; rewrite RotateVector_dot by assumption; apply Other_unit. Qed.

Lemma SwingTwistDot_bounds : -1 <= Vec3.DotProduct Swing0 Twist1 <= 1.
Proof.
  pose proof (Lagrange_identity Swing0 Twist1) as HL.
  rewrite Swing0_unit, Twist1_unit in HL.
  pose proof (SizeSquared_nonneg (Vec3.CrossProduct Swing0 Twist1)) as Hnn.
  split; nra.
Qed.

End SwingExtractorFacts.

(** X15: for unit orientations and a unit local swing axis, the axis and the
    angle of [GetLockedSwingAxisAngle] are a sine pair: the squared length of
    the axis plus the square of the angle is 1 (so the angle lies in [-1, 1]
    and the axis has the length of the matching cosine), and the axis is
    perpendicular to both the child's twist axis and the parent's swing
    axis. *)
Theorem GetLockedSwingAxisAngle_sine_pair
    (OtherSwingAxis : EJointAngularConstraintIndex -> FVec3)
    (R0 R1 : Quat.FRotation3) (Index : EJointAngularConstraintIndex) :
  Quat.IsNormalized R0 -> Quat.IsNormalized R1 ->
  Vec3.DotProduct (OtherSwingAxis Index) (OtherSwingAxis Index) = 1 ->
  let Axis := fst (GetLockedSwingAxisAngle OtherSwingAxis R0 R1 Index) in
  let Angle := snd (GetLockedSwingAxisAngle OtherSwingAxis R0 R1 Index) in
  Vec3.SizeSquared Axis + Angle * Angle = 1 /\
  -1 <= Angle <= 1 /\
  Vec3.DotProduct Axis (Quat.RotateVector R1 FJointConstants.TwistAxis) = 0 /\
  Vec3.DotProduct Axis (Quat.RotateVector R0 (OtherSwingAxis Index)) = 0.
Proof.
  intros H0 H1 HO Axis Angle; subst Axis Angle.
  unfold GetLockedSwingAxisAngle; cbv zeta; cbn [fst snd].
  pose proof (Lagrange_identity (Quat.RotateVector R0 (OtherSwingAxis Index))
                (Quat.RotateVector R1 FJointConstants.TwistAxis)) as HL.
  rewrite (Swing0_unit OtherSwingAxis R0 Index H0 HO), (Twist1_unit R1 H1) in HL.
  pose proof (SwingTwistDot_bounds OtherSwingAxis R0 R1 Index H0 H1 HO) as Hb.
  split; [lra |]. split; [lra |].
  split; [apply CrossProduct_perp_r | apply CrossProduct_perp_l].
Qed.

Lemma PairedSwingAxis_unit (i : EJointAngularConstraintIndex) :
  Vec3.DotProduct (PairedSwingAxis i) (PairedSwingAxis i) = 1.
Proof. destruct i; unfold Vec3.DotProduct; simpl; ring. Qed.

Lemma GetLockedSwingAxisAngle_sine_pair_witness :
  Vec3.SizeSquared
    (fst (GetLockedSwingAxisAngle PairedSwingAxis Quat.Identity HalfTurnY Swing1))
  + snd (GetLockedSwingAxisAngle PairedSwingAxis Quat.Identity HalfTurnY Swing1)
    * snd (GetLockedSwingAxisAngle PairedSwingAxis Quat.Identity HalfTurnY Swing1)
  = 1.
Proof.
  destruct (GetLockedSwingAxisAngle_sine_pair PairedSwingAxis
              Quat.Identity HalfTurnY Swing1) as [H _].
  - apply Identity_unit.
  - unfold Quat.IsNormalized, Quat.SizeSquared; simpl; ring.
  - apply PairedSwingAxis_unit.
  - exact H.
Defined.

Lemma Clamp_inside (x : R) : -1 <= x <= 1 -> Clamp x (-1) 1 = x.
Proof.
  intros Hx; unfold Clamp.
  rewrite Rltb_false by lra.
  destruct (Rltb_spec x 1); [reflexivity | lra].
Qed.

Lemma NormalizeSafe_unit (V : FVec3) (EpsilonSq : R) :
  0 <= EpsilonSq -> EpsilonSq < Vec3.SizeSquared V ->
  NormalizeSafe V EpsilonSq = (Vec3.scale (/ sqrt (Vec3.SizeSquared V)) V, true) /\
  Vec3.SizeSquared (Vec3.scale (/ sqrt (Vec3.SizeSquared V)) V) = 1.
Proof.
  intros He Hbig; unfold NormalizeSafe; cbv zeta.
  rewrite Rgtb_true by assumption; split; [reflexivity |].
  assert (Hpos : 0 < Vec3.SizeSquared V) by lra.
  assert (Hsqrt : 0 < sqrt (Vec3.SizeSquared V)) by (apply sqrt_lt_R0; assumption).
  replace (Vec3.SizeSquared (Vec3.scale (/ sqrt (Vec3.SizeSquared V)) V))
    with (Vec3.SizeSquared V * (/ sqrt (Vec3.SizeSquared V) * / sqrt (Vec3.SizeSquared V)))
    by (unfold Vec3.SizeSquared; simpl; ring).
  rewrite <- Rinv_mult, sqrt_sqrt by lra.
  field; lra.
Qed.

(** X16: the angle of [GetDualConeSwingAxisAngle] always lies between
    [-PI/2] and [PI/2].  When the cross product of the parent's swing axis
    and the child's twist axis is no longer (squared) than
    [KINDA_SMALL_NUMBER], in particular when the two are parallel, the angle
    is 0 and the axis is the cross product as it is.  Otherwise, for unit
    orientations and a unit local swing axis, the axis is the unit vector
    along the axis of [GetLockedSwingAxisAngle] and the sine of the angle is
    the angle of [GetLockedSwingAxisAngle]. *)
Theorem GetDualConeSwingAxisAngle_cases
    (OtherSwingAxis : EJointAngularConstraintIndex -> FVec3)
    (R0 R1 : Quat.FRotation3) (Index : EJointAngularConstraintIndex) :
  let Cross := fst (GetLockedSwingAxisAngle OtherSwingAxis R0 R1 Index) in
  let Axis := fst (GetDualConeSwingAxisAngle OtherSwingAxis R0 R1 Index) in
  let Angle := snd (GetDualConeSwingAxisAngle OtherSwingAxis R0 R1 Index) in
  - (PI / 2) <= Angle <= PI / 2 /\
  (Vec3.SizeSquared Cross <= KINDA_SMALL_NUMBER -> Angle = 0 /\ Axis = Cross) /\
  (Quat.IsNormalized R0 -> Quat.IsNormalized R1 ->
   Vec3.DotProduct (OtherSwingAxis Index) (OtherSwingAxis Index) = 1 ->
   KINDA_SMALL_NUMBER < Vec3.SizeSquared Cross ->
     Vec3.SizeSquared Axis = 1 /\
     Axis = Vec3.scale (/ sqrt (Vec3.SizeSquared Cross)) Cross /\
     sin Angle = snd (GetLockedSwingAxisAngle OtherSwingAxis R0 R1 Index)).
Proof.
  intros Cross Axis Angle; subst Cross Axis Angle.
  unfold GetDualConeSwingAxisAngle, GetLockedSwingAxisAngle; cbv zeta; cbn [fst snd].
  set (Twist1 := Quat.RotateVector R1 FJointConstants.TwistAxis).
  set (Swing0 := Quat.RotateVector R0 (OtherSwingAxis Index)).
  set (Cross := Vec3.CrossProduct Swing0 Twist1).
  pose proof PI_RGT_0 as Hpi.
  pose proof KINDA_SMALL_NUMBER_pos as Hsmall.
  split; [| split].
  - destruct (NormalizeSafe Cross KINDA_SMALL_NUMBER) as [A [|]]; cbn [snd].
    + unfold Asin; pose proof (asin_bound (Clamp (- Vec3.DotProduct Swing0 Twist1) (-1) 1)).
      lra.
    + lra.
  - intros Htiny; unfold NormalizeSafe; cbv zeta.
    rewrite Rgtb_false by assumption; cbn [fst snd]; split; reflexivity.
  - intros H0 H1 HO Hbig.
    destruct (NormalizeSafe_unit Cross KINDA_SMALL_NUMBER) as [-> Hlen];
      [lra | assumption |].
    cbn [fst snd].
    split; [exact Hlen |]. split; [reflexivity |].
    pose proof (SwingTwistDot_bounds OtherSwingAxis R0 R1 Index H0 H1 HO) as Hb.
    fold Swing0 Twist1 in Hb.
    unfold Asin; rewrite Clamp_inside by lra.
    apply sin_asin; lra.
Qed.

(** A child turned by a third of a turn about the diagonal has its twist axis
    along the parent's Y axis: against that axis as the paired swing axis the
    cross product vanishes and the angle is 0. *)
Lemma GetDualConeSwingAxisAngle_cases_witness :
  snd (GetDualConeSwingAxisAngle PairedSwingAxis Quat.Identity ThirdTurnDiagonal Swing1)
  = 0.
Proof.
  destruct (GetDualConeSwingAxisAngle_cases PairedSwingAxis
              Quat.Identity ThirdTurnDiagonal Swing1) as (_ & H & _).
  apply H.
  unfold GetLockedSwingAxisAngle, Vec3.SizeSquared, Vec3.CrossProduct,
    Quat.RotateVector, KINDA_SMALL_NUMBER; simpl; lra.
Defined.



(** ** Symmetries of the twist angle *)

Lemma GetNormalized_FlipX (q : Quat.FRotation3) :
  Quat.GetNormalized (FlipX q) = FlipX (Quat.GetNormalized q).
Proof.
  unfold Quat.GetNormalized; cbv zeta.
  replace (Quat.SizeSquared (FlipX q)) with (Quat.SizeSquared q)
    by (unfold Quat.SizeSquared, FlipX; simpl; ring).
  destruct (Quat.SizeSquared q >=? SMALL_NUMBER);
    apply quat_eq; simpl; ring.
Qed.

Lemma GetNormalized_regular (q : Quat.FRotation3) :
  Quat.X (Quat.GetNormalized q) <> 0 -> SMALL_NUMBER <= Quat.SizeSquared q.
Proof.
  unfold Quat.GetNormalized; cbv zeta.
  destruct (Rgeb_spec (Quat.SizeSquared q) SMALL_NUMBER) as [Hbig | Hsmall];
    [intros _; assumption |].
  cbn [Quat.X Quat.Identity]; intros H; elim H; reflexivity.
Qed.

Lemma GetNormalized_Negate (q : Quat.FRotation3) :
  SMALL_NUMBER <= Quat.SizeSquared q ->
  Quat.GetNormalized (Negate q) = Negate (Quat.GetNormalized q).
Proof.
  intros Hbig; unfold Quat.GetNormalized; cbv zeta.
  replace (Quat.SizeSquared (Negate q)) with (Quat.SizeSquared q)
    by (unfold Quat.SizeSquared, Negate; simpl; ring).
  rewrite Rgeb_true by assumption.
  apply quat_eq; simpl; ring.
Qed.

(** X18: the twist angle is antisymmetric in the twist-axis component:
    negating the X component of a twist whose normalised X component is not
    zero negates the angle. *)
Theorem GetTwistAngle_antisymmetric (InTwist : Quat.FRotation3) :
  Quat.X (Quat.GetNormalized InTwist) <> 0 ->
  GetTwistAngle (FlipX InTwist) = - GetTwistAngle InTwist.
Proof.
  intros HX; unfold GetTwistAngle; cbv zeta.
  rewrite GetNormalized_FlipX.
  unfold Quat.GetAngle; cbn [FlipX Quat.X Quat.W].
  set (T := Quat.GetNormalized InTwist) in *.
  set (Rem := if 2 * FMath.Acos (Quat.W T) >? PI
              then 2 * FMath.Acos (Quat.W T) - 2 * PI
              else 2 * FMath.Acos (Quat.W T)).
  destruct (Rltb_spec (- Quat.X T) 0), (Rltb_spec (Quat.X T) 0); lra.
Qed.

Lemma FlipX_HalfTurnNegativeX_normalized :
  Quat.X (Quat.GetNormalized HalfTurnNegativeX) <> 0.
Proof.
  rewrite (GetNormalized_of_unit _ HalfTurnNegativeX_unit); simpl; lra.
Qed.

Lemma GetTwistAngle_antisymmetric_witness :
  GetTwistAngle (FlipX HalfTurnNegativeX) = - GetTwistAngle HalfTurnNegativeX.
Proof.
  apply GetTwistAngle_antisymmetric; apply FlipX_HalfTurnNegativeX_normalized.
Defined.

(** X19: in exact arithmetic, a quaternion and its negation, which are the
    same rotation, have the same twist angle, as long as the normalised
    twist-axis component and the normalised scalar component are not zero. *)
Theorem GetTwistAngle_sign_invariant (InTwist : Quat.FRotation3) :
  Quat.X (Quat.GetNormalized InTwist) <> 0 ->
  Quat.W (Quat.GetNormalized InTwist) <> 0 ->
  GetTwistAngle (Negate InTwist) = GetTwistAngle InTwist.
Proof.
  intros HX HW; unfold GetTwistAngle; cbv zeta.
  rewrite (GetNormalized_Negate _ (GetNormalized_regular _ HX)).
  pose proof (unit_W_bounds _ (GetNormalized_unit InTwist)) as Hb.
  unfold Quat.GetAngle, FMath.Acos; cbn [Negate Quat.X Quat.W].
  set (T := Quat.GetNormalized InTwist) in *.
  rewrite acos_opp.
  pose proof (acos_bound (Quat.W T)) as Ha.
  pose proof PI_RGT_0 as Hpi.
  assert (Hne : acos (Quat.W T) <> PI / 2).
  { intros Heq; apply HW; apply acos_quarter_turn; assumption. }
  destruct (Rltb_spec (- Quat.X T) 0), (Rltb_spec (Quat.X T) 0);
    destruct (Rgtb_spec (2 * (PI - acos (Quat.W T))) PI),
             (Rgtb_spec (2 * acos (Quat.W T)) PI); lra.
Qed.

Lemma GetTwistAngle_sign_invariant_witness :
  GetTwistAngle (Negate ThirdTurnDiagonal) = GetTwistAngle ThirdTurnDiagonal.
Proof.
  assert (Hunit : Quat.IsNormalized ThirdTurnDiagonal)
    by (unfold Quat.IsNormalized, Quat.SizeSquared; simpl; field).
  apply GetTwistAngle_sign_invariant;
    rewrite (GetNormalized_of_unit _ Hunit); simpl; lra.
Defined.

(** ** The two twist angles *)

(** X20: the twist angle of [GetSwingTwistAngles] is the unsigned rotation
    angle of the twist, between 0 and [2 PI]; the angle of
    [GetTwistAxisAngle] for the same orientations is that angle brought into
    the range from [-PI] to [PI] and signed by the twist's X component, so the
    two have the same cosine. *)
Theorem twist_angles_agree (R0 R1 : Quat.FRotation3) :
  let TwistAngle := fst (fst (GetSwingTwistAngles R0 R1)) in
  let Angle := snd (GetTwistAxisAngle R0 R1) in
  let R01Twist := snd (DecomposeSwingTwistLocal R0 R1) in
  0 <= TwistAngle <= 2 * PI /\
  cos Angle = cos TwistAngle /\
  Angle = (if Quat.X R01Twist <? 0 then -1 else 1)
          * (if TwistAngle >? PI then TwistAngle - 2 * PI else TwistAngle).
Proof.
  intros TwistAngle Angle R01Twist; subst TwistAngle Angle R01Twist.
  pose proof (ToSwingTwistX_Twist_unit (Quat.mul (Quat.Inverse R0) R1)) as Hunit.
  unfold GetSwingTwistAngles, GetTwistAxisAngle, DecomposeSwingTwistLocal in *.
  cbv zeta in *.
  destruct (Quat.ToSwingTwistX (Quat.mul (Quat.Inverse R0) R1)) as [Swing T].
  cbn [fst snd] in *.
  pose proof (GetAngle_bounds T) as Hb.
  split; [exact Hb |].
  unfold GetTwistAngle; cbv zeta.
  rewrite (GetNormalized_of_unit _ Hunit).
  destruct (Rltb_spec (Quat.X T) 0), (Rgtb_spec (Quat.GetAngle T) PI); split;
    try ring.
  - rewrite cos_neg, cos_minus, cos_2PI, sin_2PI; ring.
  - apply cos_neg.
  - rewrite cos_minus, cos_2PI, sin_2PI; ring.
Qed.

(** X21: for a unit child orientation the axis of [GetTwistAxisAngle] is a
    unit vector, and its angle lies between [-PI] and [PI]. *)
Theorem GetTwistAxisAngle_unit_axis (R0 R1 : Quat.FRotation3) :
  Quat.IsNormalized R1 ->
  Vec3.Size (fst (GetTwistAxisAngle R0 R1)) = 1 /\
  - PI <= snd (GetTwistAxisAngle R0 R1) <= PI.
Proof.
  intros Hunit; unfold GetTwistAxisAngle.
  destruct (DecomposeSwingTwistLocal R0 R1) as [R01Swing R01Twist].
  cbv zeta; cbn [fst snd]; split.
  - unfold Vec3.Size; rewrite SizeSquared_dot, RotateVector_dot by assumption.
    rewrite TwistAxis_unit; apply sqrt_1.
  - rewrite GetTwistAngle_sign.
    pose proof (RemappedAngle_bounds R01Twist) as Hb.
    destruct (_ <? _); lra.
Qed.

Lemma GetTwistAxisAngle_unit_axis_witness :
  Vec3.Size (fst (GetTwistAxisAngle Quat.Identity HalfTurnY)) = 1.
Proof.
  destruct (GetTwistAxisAngle_unit_axis Quat.Identity HalfTurnY) as [H _];
    [unfold Quat.IsNormalized, Quat.SizeSquared; simpl; ring | exact H].
Defined.
